(** * Image reconstruction from parallel projections (Radon.ipynb)

    A shallow embedding of the code cells of [solutions_colab/Radon.ipynb]:
    the projection operator [RadonRotate], the reconstruction error printed
    as "MSE", and the [FunctionOperator] demonstration.  NumPy arrays of
    floats are lists over the real numbers (exact arithmetic), integer
    arrays are lists over [Z], and a call that can raise returns a
    [Py.result].  The operators of PyLops that the notebook composes are
    modelled as a small class hierarchy with a forward and an adjoint
    method; the transforms of scikit-image are left arbitrary. *)

From Stdlib Require Import String.
From Stdlib Require Import Reals Lra Lia ZArith List Bool Psatz.
Import ListNotations.

Set Implicit Arguments.
Set Warnings "-register-all".

(* ===================================================================== *)
(** ** Python: exceptions, loops, slices *)
(* ===================================================================== *)

Module Py.

Inductive exn : Type :=
| ValueError (msg : string)
| IndexError (msg : string)
| NameError (msg : string).

Inductive result (A : Type) : Type :=
| Ok (a : A)
| Raise (e : exn).

Arguments Ok {A} a.
Arguments Raise {A} e.

Definition bind {A B : Type} (c : result A) (k : A -> result B) : result B :=
  match c with
  | Ok a => k a
  | Raise e => Raise e
  end.

(** [for a in xs: s = body(s, a)], leaving the loop at the first raise. *)
Fixpoint for_each {S A : Type} (body : S -> A -> result S) (xs : list A) (s : S)
  : result S :=
  match xs with
  | [] => Ok s
  | a :: rest => bind (body s a) (for_each body rest)
  end.

Fixpoint mapM {A B : Type} (f : A -> result B) (xs : list A) : result (list B) :=
  match xs with
  | [] => Ok []
  | a :: rest =>
      bind (f a) (fun b => bind (mapM f rest) (fun bs => Ok (b :: bs)))
  end.

(** [a // b] on integers rounds towards minus infinity, as [Z.div] does
    for a positive divisor. *)
Definition floordiv (a b : Z) : Z := (a / b)%Z.

(** A slice bound [i] of a sequence of length [n]: a negative bound counts
    from the end, and the result is clamped to [0 .. n]. *)
Definition slice_bound (n i : Z) : Z :=
  if (i <? 0)%Z then Z.max (i + n) 0 else Z.min i n.

(** [l[start:stop]] *)
Definition slice {A : Type} (start stop : Z) (l : list A) : list A :=
  let n := Z.of_nat (length l) in
  let s := slice_bound n start in
  let e := slice_bound n stop in
  firstn (Z.to_nat (e - s)) (skipn (Z.to_nat s) l).

End Py.

Import Py.

Notation "x <- c ;; k" := (Py.bind c (fun x => k))
  (at level 61, c at next level, right associativity).

(* ===================================================================== *)
(** ** NumPy: the array functions the notebook calls *)
(* ===================================================================== *)

Module Np.

(** [np.arange(n)]: [0, 1, ..., n-1], empty when [n <= 0]. *)
Definition arange (n : Z) : list Z := map Z.of_nat (seq 0 (Z.to_nat n)).

(** [np.arange(start, stop, step)] for a positive [step]. *)
Definition arange3 (start stop step : Z) : list Z :=
  map (fun k => (start + k * step)%Z) (arange ((stop - start + step - 1) / step)).

(** [np.meshgrid(x, y, indexing='ij')]: two [len x] by [len y] arrays,
    the first constant along its rows, the second along its columns. *)
Definition meshgrid_ij {A : Type} (x y : list A) : list (list A) * list (list A) :=
  (map (fun xi => map (fun _ => xi) y) x, map (fun _ => y) x).

(** [a.ravel()] of a two-dimensional array, in row-major order. *)
Definition ravel {A : Type} (a : list (list A)) : list A := concat a.

(** [np.vstack((X, Y))] of two one-dimensional arrays. *)
Definition vstack {A : Type} (X Y : list A) : list (list A) := [X; Y].

(** [np.deg2rad] *)
Definition deg2rad (t : R) : R := (t * (PI / 180))%R.

(** [np.zeros(n)] *)
Definition zeros (n : nat) : list R := repeat 0%R n.

(** An operation applied entry by entry to two arrays of one shape. *)
Fixpoint map2 {A B C : Type} (f : A -> B -> C) (u : list A) (v : list B) : list C :=
  match u, v with
  | a :: u', b :: v' => f a b :: map2 f u' v'
  | _, _ => []
  end.

(** Elementwise [u + v], [u - v], [u * v] on arrays of one shape, [c * u]. *)
Definition add (u v : list R) : list R := map2 Rplus u v.
Definition sub (u v : list R) : list R := map2 Rminus u v.
Definition mul (u v : list R) : list R := map2 Rmult u v.
Definition scale (c : R) (u : list R) : list R := map (Rmult c) u.

(** [A @ B] for two-dimensional arrays: row [i] of the product is the
    combination of the rows of [B] with the coefficients of row [i] of [A]. *)
Definition matmul (A B : list (list R)) : list (list R) :=
  let ncols := length (hd [] B) in
  map (fun a =>
         fold_right (fun cr acc => add (scale (fst cr) (snd cr)) acc)
                    (zeros ncols) (combine a B)) A.

(** [a[i] += v] for a row [i] of a two-dimensional array and a scalar. *)
Fixpoint iadd_row (a : list (list R)) (i : nat) (v : R) : list (list R) :=
  match a, i with
  | [], _ => []
  | r :: rest, O => map (fun e => (e + v)%R) r :: rest
  | r :: rest, S i' => r :: iadd_row rest i' v
  end.

(** [np.floor(v).astype(int)] *)
Definition floor (v : R) : Z := Zfloor v.

(** [np.vdot(u, v)] on real arrays. *)
Fixpoint dot (u v : list R) : R :=
  match u, v with
  | a :: u', b :: v' => (a * b + dot u' v')%R
  | _, _ => 0%R
  end.

(** An index [i] along an axis of length [n]: [-n <= i < 0] counts from
    the end, anything else outside [0 .. n-1] raises. *)
Definition index (n i : Z) : result Z :=
  if ((0 <=? i) && (i <? n))%Z then Ok i
  else if ((- n <=? i) && (i <? 0))%Z then Ok (i + n)%Z
  else Raise (IndexError "index is out of bounds for axis").

(** The position in the raveled array of entry [(i, j)] of an array of
    shape [dims]. *)
Definition flat_index (dims : Z * Z) (ij : Z * Z) : result nat :=
  i <- index (fst dims) (fst ij) ;;
  j <- index (snd dims) (snd ij) ;;
  Ok (Z.to_nat (i * snd dims + j)).

(** [x.reshape(dims)[rows, cols]] with two integer index arrays of one
    length. *)
Definition take2 (x : list R) (dims : Z * Z) (rows cols : list Z) : result (list R) :=
  ks <- mapM (flat_index dims) (combine rows cols) ;;
  Ok (map (fun k => nth k x 0%R) ks).

(** [y[k] += v] on a raveled array. *)
Fixpoint iadd_at (y : list R) (k : nat) (v : R) : list R :=
  match y, k with
  | [], _ => []
  | e :: rest, O => (e + v)%R :: rest
  | e :: rest, S k' => e :: iadd_at rest k' v
  end.

(** [np.add.at(y, [rows, cols], vals)] on [y] of shape [dims], kept raveled:
    unbuffered, so a repeated index accumulates. *)
Definition add_at (y : list R) (dims : Z * Z) (rows cols : list Z) (vals : list R)
  : result (list R) :=
  ks <- mapM (flat_index dims) (combine rows cols) ;;
  Ok (fold_left (fun acc kv => iadd_at acc (fst kv) (snd kv)) (combine ks vals) y).

(** [x.reshape((m, n))] of a one-dimensional array, as its list of rows. *)
Fixpoint rows_of (m n : nat) (x : list R) : list (list R) :=
  match m with
  | O => []
  | S m' => firstn n x :: rows_of m' n (skipn n x)
  end.

(** [x.reshape(dims)] for a shape without [-1]. *)
Definition reshape2 (x : list R) (dims : Z * Z) : result (list (list R)) :=
  let (m, n) := dims in
  if ((0 <=? m) && (0 <=? n) && (Z.of_nat (length x) =? m * n))%Z
  then Ok (rows_of (Z.to_nat m) (Z.to_nat n) x)
  else Raise (ValueError "cannot reshape array").

(** [a.sum(axis=0)] and [a.sum(axis=1)] of an array with [n] columns. *)
Definition sum_axis0 (n : nat) (a : list (list R)) : list R :=
  fold_left add a (zeros n).
Definition sum_axis1 (a : list (list R)) : list R :=
  map (fun r => fold_right Rplus 0%R r) a.

(** [np.linalg.norm] of a two-dimensional array: the Frobenius norm. *)
Definition sumsq (a : list (list R)) : R :=
  fold_right Rplus 0%R (map (fun r => fold_right Rplus 0%R (map (fun e => (e * e)%R) r)) a).
Definition linalg_norm (a : list (list R)) : R := sqrt (sumsq a).

End Np.

(* ===================================================================== *)
(** ** PyLops: the linear operators the notebook composes *)
(* ===================================================================== *)

Module Pylops.

(** Modelled from the spec: the library classes [pylops.Sum],
    [pylops.signalprocessing.Bilinear], [pylops.VStack] and the product
    [*] of two operators are not under src/.  An operator is an object
    that keeps the parameters it was built from; its forward and adjoint
    are the methods [matvec] and [rmatvec] below.  The notebook describes
    them as interpolation from the unrotated to the rotated grid ([B]),
    summation over one axis ([S], whose adjoint spreads over that axis),
    and vertical stacking of the blocks [S B]. *)
Inductive LinearOperator : Type :=
| SumOp (dims : Z * Z) (axis : Z)
| BilinearOp (dims : Z * Z)
             (iava_t iava_b : list Z) (weights_tb : list R)
             (iava_l iava_r : list Z) (weights_lr : list R)
| ProductOp (A B : LinearOperator)
| VStackOp (ops : list LinearOperator).

(** Modelled from the spec: the attribute [Op.shape] of a library
    operator, (rows, columns) of the matrix it stands for. *)
Fixpoint shape (op : LinearOperator) : Z * Z :=
  match op with
  | SumOp dims axis =>
      ((if (axis =? 0)%Z then snd dims else fst dims), (fst dims * snd dims)%Z)
  | BilinearOp dims _ _ _ iava_l _ _ =>
      (Z.of_nat (length iava_l), (fst dims * snd dims)%Z)
  | ProductOp A B => (fst (shape A), snd (shape B))
  | VStackOp ops =>
      (fold_right Z.add 0%Z (map (fun o => fst (shape o)) ops),
       match ops with
       | [] => 0%Z
       | o :: _ => snd (shape o)
       end)
  end.

(** Modelled from the spec: [pylops.Sum(dims, dir)] for a two-dimensional
    [dims]; [dir] may count from the last axis. *)
Definition Sum (dims : Z * Z) (dir : Z) : result LinearOperator :=
  if ((-2 <=? dir) && (dir <? 2))%Z then Ok (SumOp dims (dir mod 2))
  else Raise (IndexError "pop index out of range").

(** Modelled from the spec: the forward of [Sum] reshapes the vector to
    [dims] and sums along [axis]. *)
Definition Sum_matvec (dims : Z * Z) (axis : Z) (x : list R) : result (list R) :=
  a <- Np.reshape2 x dims ;;
  Ok (if (axis =? 0)%Z then Np.sum_axis0 (Z.to_nat (snd dims)) a
      else Np.sum_axis1 a).

(** Modelled from the spec: the adjoint of [Sum] spreads the vector along
    [axis] ([np.tile] after [np.expand_dims]). *)
Definition Sum_rmatvec (dims : Z * Z) (axis : Z) (x : list R) : result (list R) :=
  if ((0 <=? fst dims) && (0 <=? snd dims))%Z then
    Ok (if (axis =? 0)%Z then concat (repeat x (Z.to_nat (fst dims)))
        else flat_map (fun v => repeat v (Z.to_nat (snd dims))) x)
  else Raise (ValueError "negative dimensions are not allowed").

(** Equality of two points, decided on the real numbers. *)
Definition same_point (p q : R * R) : bool :=
  if Req_dec_T (fst p) (fst q) then
    if Req_dec_T (snd p) (snd q) then true else false
  else false.

(** Modelled from the spec: the check of [Bilinear], not under src/, that
    no pair of coordinates is given twice. *)
Fixpoint has_repeats (pts : list (R * R)) : bool :=
  match pts with
  | [] => false
  | p :: rest => existsb (same_point p) rest || has_repeats rest
  end.

(** Modelled from the spec: [pylops.signalprocessing.Bilinear(iava, dims)].
    For each point it keeps the row above and below ([iava_t], [iava_b]),
    the column left and right ([iava_l], [iava_r]) and the two fractional
    parts as weights. *)
Definition Bilinear (iava : list (list R)) (dims : Z * Z) : result LinearOperator :=
  let iava0 := nth 0 iava [] in
  let iava1 := nth 1 iava [] in
  if has_repeats (combine iava0 iava1)
  then Raise (ValueError "Repeated values in iava array")
  else
    let iava_t := map Np.floor iava0 in
    let iava_b := map (fun t => (t + 1)%Z) iava_t in
    let weights_tb := Np.sub iava0 (map IZR iava_t) in
    let iava_l := map Np.floor iava1 in
    let iava_r := map (fun l => (l + 1)%Z) iava_l in
    let weights_lr := Np.sub iava1 (map IZR iava_l) in
    Ok (BilinearOp dims iava_t iava_b weights_tb iava_l iava_r weights_lr).

(** [1 - w] for an array of weights. *)
Definition one_minus (w : list R) : list R := map (fun e => (1 - e)%R) w.

(** Modelled from the spec: the forward of [Bilinear] reads the four
    neighbours of each point and weighs them. *)
Definition Bilinear_matvec (dims : Z * Z)
           (iava_t iava_b : list Z) (weights_tb : list R)
           (iava_l iava_r : list Z) (weights_lr : list R)
           (x : list R) : result (list R) :=
  _ <- Np.reshape2 x dims ;;
  tl <- Np.take2 x dims iava_t iava_l ;;
  tr <- Np.take2 x dims iava_t iava_r ;;
  bl <- Np.take2 x dims iava_b iava_l ;;
  br <- Np.take2 x dims iava_b iava_r ;;
  Ok (Np.add
        (Np.add
           (Np.add
              (Np.mul (Np.mul tl (one_minus weights_tb)) (one_minus weights_lr))
              (Np.mul (Np.mul tr (one_minus weights_tb)) weights_lr))
           (Np.mul (Np.mul bl weights_tb) (one_minus weights_lr)))
        (Np.mul (Np.mul br weights_tb) weights_lr)).

(** Modelled from the spec: the adjoint of [Bilinear] adds each weighted
    value back onto the four neighbours of its point, starting from zeros. *)
Definition Bilinear_rmatvec (dims : Z * Z)
           (iava_t iava_b : list Z) (weights_tb : list R)
           (iava_l iava_r : list Z) (weights_lr : list R)
           (x : list R) : result (list R) :=
  if ((0 <=? fst dims) && (0 <=? snd dims))%Z then
    let y := Np.zeros (Z.to_nat (fst dims * snd dims)) in
    y <- Np.add_at y dims iava_t iava_l
           (Np.mul (Np.mul x (one_minus weights_tb)) (one_minus weights_lr)) ;;
    y <- Np.add_at y dims iava_t iava_r
           (Np.mul (Np.mul x (one_minus weights_tb)) weights_lr) ;;
    y <- Np.add_at y dims iava_b iava_l
           (Np.mul (Np.mul x weights_tb) (one_minus weights_lr)) ;;
    Np.add_at y dims iava_b iava_r (Np.mul (Np.mul x weights_tb) weights_lr)
  else Raise (ValueError "negative dimensions are not allowed").

(** Modelled from the spec: [A * B] of two library operators. *)
Definition Product (A B : LinearOperator) : result LinearOperator :=
  if (snd (shape A) =? fst (shape B))%Z then Ok (ProductOp A B)
  else Raise (ValueError "cannot multiply: shape mismatch").

(** Modelled from the spec: [pylops.VStack(ops)]; the number of columns
    is read from the first operator of the list. *)
Definition VStack (ops : list LinearOperator) : result LinearOperator :=
  match ops with
  | [] => Raise (IndexError "list index out of range")
  | o :: rest =>
      if forallb (fun o' => (snd (shape o') =? snd (shape o))%Z) rest
      then Ok (VStackOp ops)
      else Raise (ValueError "operators have different number of columns")
  end.

(** The error of [matvec] and [rmatvec] on an input of the wrong length. *)
Definition dimension_mismatch {A : Type} : result A :=
  Raise (ValueError "dimension mismatch").

Section Blocks.

Variable A : Type.
Variable rows : A -> nat.
Variable forward adjoint : A -> list R -> result (list R).

(** Modelled from the spec: the forward of [VStack] writes the outputs of
    the blocks one after the other. *)
Fixpoint VStack_matvec (ops : list A) (x : list R) : result (list R) :=
  match ops with
  | [] => Ok []
  | o :: rest =>
      y <- forward o x ;;
      ys <- VStack_matvec rest x ;;
      Ok (y ++ ys)
  end.

(** Modelled from the spec: the adjoint of [VStack] cuts its input into one
    segment per block and adds the adjoints of the blocks onto [acc]. *)
Fixpoint VStack_rmatvec (ops : list A) (y : list R) (acc : list R)
  : result (list R) :=
  match ops with
  | [] => Ok acc
  | o :: rest =>
      v <- adjoint o (firstn (rows o) y) ;;
      VStack_rmatvec rest (skipn (rows o) y) (Np.add acc v)
  end.

End Blocks.

(** Modelled from the spec: [Op.matvec(x)], also written [Op * x].  The
    input must have as many entries as the operator has columns; a product
    applies its right factor first. *)
Fixpoint matvec (op : LinearOperator) (x : list R) {struct op} : result (list R) :=
  if negb (Z.of_nat (length x) =? snd (shape op))%Z then dimension_mismatch
  else
    match op with
    | SumOp dims axis => Sum_matvec dims axis x
    | BilinearOp dims it ib wtb il ir wlr =>
        Bilinear_matvec dims it ib wtb il ir wlr x
    | ProductOp A B => y <- matvec B x ;; matvec A y
    | VStackOp ops => VStack_matvec matvec ops x
    end.

(** Modelled from the spec: [Op.rmatvec(y)], also written [Op.H * y].  The
    input must have as many entries as the operator has rows; a product
    applies the adjoint of its left factor first. *)
Fixpoint rmatvec (op : LinearOperator) (y : list R) {struct op} : result (list R) :=
  if negb (Z.of_nat (length y) =? fst (shape op))%Z then dimension_mismatch
  else
    match op with
    | SumOp dims axis => Sum_rmatvec dims axis y
    | BilinearOp dims it ib wtb il ir wlr =>
        Bilinear_rmatvec dims it ib wtb il ir wlr y
    | ProductOp A B => x <- rmatvec A y ;; rmatvec B x
    | VStackOp ops =>
        VStack_rmatvec (fun o => Z.to_nat (fst (shape o))) rmatvec ops y
                       (Np.zeros (Z.to_nat (snd (shape op))))
    end.

End Pylops.

Import Pylops.

(* ===================================================================== *)
(** ** The notebook: its global variables *)
(* ===================================================================== *)

Module Notebook.

(** [pad = 50] *)
Definition pad : Z := 50.

(** [nx, ny = image.shape], where [image] is every second row and column
    of the 400 by 400 phantom of scikit-image with [pad] zeros added on
    every side. *)
Definition nx : Z := 400 / 2 + 2 * pad.
Definition ny : Z := 400 / 2 + 2 * pad.

(** [inner = 100] *)
Definition inner : Z := 100.

(** [thetamin, thetamax, dtheta = 0, 180, 3] and
    [thetas = np.arange(thetamin, thetamax, dtheta)] *)
Definition thetas : list Z := Np.arange3 0 180 3.

End Notebook.

(* ===================================================================== *)
(** ** The notebook: the projection operator *)
(* ===================================================================== *)

(** The first lines of [RadonRotate] ("create original grid"): the two
    rows [X], [Y] of the integer array [XY], centred on [(nx//2, ny//2)]. *)
Definition RadonRotate_grid (dims : Z * Z) (inner : Z) : list (list Z) :=
  let (nx, ny) := dims in
  let x0 := Py.floordiv nx 2 in
  let y0 := Py.floordiv ny 2 in
  let x := map (fun k => (k - x0 + Py.floordiv inner 2)%Z) (Np.arange (nx - inner)) in
  let y := map (fun k => (k - y0 + Py.floordiv inner 2)%Z) (Np.arange (ny - inner)) in
  let (X, Y) := Np.meshgrid_ij x y in
  let X := Np.ravel X in
  let Y := Np.ravel Y in
  Np.vstack X Y.

(** The body of the loop up to the recentring ("defined rotated
    coordinates"), for an angle [theta] in radians. *)
Definition RadonRotate_XYrot (dims : Z * Z) (XY : list (list Z)) (theta : R)
  : list (list R) :=
  let (nx, ny) := dims in
  let x0 := Py.floordiv nx 2 in
  let y0 := Py.floordiv ny 2 in
  let R := [[cos theta; (- sin theta)%R];
            [sin theta; cos theta]] in
  let XYrot := Np.matmul R (map (map IZR) XY) in
  let XYrot := Np.iadd_row XYrot 0 (IZR x0) in
  let XYrot := Np.iadd_row XYrot 1 (IZR y0) in
  XYrot.

(** The rest of the loop body ("create S*B operator for current angle"). *)
Definition RadonRotate_SB (dims : Z * Z) (inner : Z) (XYrot : list (list R))
  : result LinearOperator :=
  let (nx, ny) := dims in
  S <- Sum ((nx - inner)%Z, (ny - inner)%Z) 0 ;;
  B <- Bilinear XYrot (nx, ny) ;;
  Product S B.

(** [def RadonRotate(dims, inner, thetas)] *)
Definition RadonRotate (dims : Z * Z) (inner : Z) (thetas : list R)
  : result LinearOperator :=
  let XY := RadonRotate_grid dims inner in
  let thetas := map Np.deg2rad thetas in
  Rops <- Py.for_each
            (fun Rops theta =>
               let XYrot := RadonRotate_XYrot dims XY theta in
               SB <- RadonRotate_SB dims inner XYrot ;;
               Ok (Rops ++ [SB]))
            thetas [] ;;
  VStack Rops.

(** *** The operator as the notebook describes it

    "for each theta: rotate image by theta, sum over horizontal axis": the
    block of one angle is [S B_theta], and [P] stacks the blocks.  These
    definitions follow that description; [RadonRotate] above follows the
    code, and the two are compared below. *)

(** The window of the image that is rotated, relative to the centre
    [(nx//2, ny//2)], in row-major order. *)
Definition window (dims : Z * Z) (inner : Z) : list (Z * Z) :=
  let (nx, ny) := dims in
  list_prod
    (map (fun k => (k - nx / 2 + inner / 2)%Z) (Np.arange (nx - inner)))
    (map (fun k => (k - ny / 2 + inner / 2)%Z) (Np.arange (ny - inner))).

(** A point of the window turned by [theta] radians about the centre:
    the standard rotation matrix, then the shift back by the centre. *)
Definition rotated_point (dims : Z * Z) (theta : R) (p : Z * Z) : R * R :=
  ((cos theta * IZR (fst p) - sin theta * IZR (snd p) + IZR (fst dims / 2))%R,
   (sin theta * IZR (fst p) + cos theta * IZR (snd p) + IZR (snd dims / 2))%R).

Definition rotated_window (dims : Z * Z) (inner : Z) (theta : R) : list (R * R) :=
  map (rotated_point dims theta) (window dims inner).

(** The block [S B_theta] of an angle given in degrees. *)
Definition angle_block (dims : Z * Z) (inner : Z) (theta_deg : R)
  : result LinearOperator :=
  let pts := rotated_window dims inner (Np.deg2rad theta_deg) in
  S <- Sum ((fst dims - inner)%Z, (snd dims - inner)%Z) 0 ;;
  B <- Bilinear [map fst pts; map snd pts] dims ;;
  Product S B.

(** A sufficient margin for the rotated window to stay inside the image:
    with [r2] the largest squared distance of a window point from the
    centre, some whole number [d] with [r2 <= d * d] fits between the
    centre and the first and the last-but-one row and column; the window
    is not larger than the image. *)
Definition window_radius2 (dims : Z * Z) (inner : Z) : Z :=
  let (nx, ny) := dims in
  let xlo := (0 - nx / 2 + inner / 2)%Z in
  let xhi := (nx - inner - 1 - nx / 2 + inner / 2)%Z in
  let ylo := (0 - ny / 2 + inner / 2)%Z in
  let yhi := (ny - inner - 1 - ny / 2 + inner / 2)%Z in
  (Z.max (xlo * xlo) (xhi * xhi) + Z.max (ylo * ylo) (yhi * yhi))%Z.

Definition rotation_safe (dims : Z * Z) (inner : Z) : bool :=
  let (nx, ny) := dims in
  let d := Z.sqrt_up (window_radius2 dims inner) in
  ((inner <=? nx) && (inner <=? ny) &&
   (d <=? nx / 2) && (d <? nx - 1 - nx / 2) &&
   (d <=? ny / 2) && (d <? ny - 1 - ny / 2))%Z.

(** A point whose four neighbours, [floor] and [floor + 1] along each axis,
    are rows and columns of an image of shape [dims]. *)
Definition inside (dims : Z * Z) (p : R * R) : Prop :=
  (0 <= fst p < IZR (fst dims - 1))%R /\ (0 <= snd p < IZR (snd dims - 1))%R.

(** The squared radius of the disc
    [sqrt(((nx-inner-1)/2)^2 + ((ny-inner-1)/2)^2)], half the diagonal of
    the window measured between its first and last samples. *)
Definition half_diagonal2 (dims : Z * Z) (inner : Z) : R :=
  (IZR (fst dims - inner - 1) / 2 * (IZR (fst dims - inner - 1) / 2)
   + IZR (snd dims - inner - 1) / 2 * (IZR (snd dims - inner - 1) / 2))%R.

(** An operator whose [Bilinear] leaves hold index and weight arrays of one
    length, as every operator built by [Bilinear] from a rectangular
    coordinate array does. *)
Fixpoint well_formed (op : LinearOperator) : Prop :=
  match op with
  | SumOp _ _ => True
  | BilinearOp _ it ib wtb il ir wlr =>
      let n := length il in
      length it = n /\ length ib = n /\ length wtb = n /\
      length ir = n /\ length wlr = n
  | ProductOp A B => well_formed A /\ well_formed B
  | VStackOp ops => fold_right (fun o P => well_formed o /\ P) True ops
  end.

(** What it means for one operator to be a forward/adjoint pair at the
    input [x]: its forward output has as many entries as the operator has
    rows, and for every [y] of that length the adjoint returns and the two
    dot products agree. *)
Definition adjoint_at (op : LinearOperator) (x u : list R) : Prop :=
  Z.of_nat (length u) = fst (shape op) /\
  Z.of_nat (length x) = snd (shape op) /\
  forall y, Z.of_nat (length y) = fst (shape op) ->
            exists v, rmatvec op y = Ok v /\
                      length v = length x /\ (Np.dot u y = Np.dot x v)%R.

Definition rows_total (ops : list LinearOperator) : Z :=
  fold_right Z.add 0%Z (map (fun o => fst (shape o)) ops).

(* ===================================================================== *)
(** ** The notebook: the reconstruction error *)
(* ===================================================================== *)

(** [a[r0:r1, c0:c1]] *)
Definition getitem2 (a : list (list R)) (r0 r1 c0 c1 : Z) : list (list R) :=
  map (Py.slice c0 c1) (Py.slice r0 r1 a).

(** [a.shape == (m, n)] for an array kept as its list of rows. *)
Definition has_shape (a : list (list R)) (m n : nat) : Prop :=
  length a = m /\ Forall (fun r => length r = n) a.

(** [a - b] for two-dimensional arrays of one shape. *)
Definition sub2 (a b : list (list R)) : list (list R) := Np.map2 Np.sub a b.

(** The bounds of the slices [pad//2:-pad//2]; [-pad//2] is [(-pad)//2]. *)
Definition lo : Z := Py.floordiv Notebook.pad 2.
Definition hi : Z := Py.floordiv (- Notebook.pad) 2.

(** [mse_fbp = np.linalg.norm(image_fbp[pad//2:-pad//2, pad//2:-pad//2]
                              - image[pad//2:-pad//2, pad//2:-pad//2])] *)
Definition mse_fbp (image_fbp image : list (list R)) : R :=
  Np.linalg_norm (sub2 (getitem2 image_fbp lo hi lo hi) (getitem2 image lo hi lo hi)).

(** [mse_l2 = np.linalg.norm(image_l2[pad//2:-pad//2, pad//2:-pad//2]
                             - image[pad//2:-pad//2, pad//2:-pad//2])] *)
Definition mse_l2 (image_l2 image : list (list R)) : R :=
  Np.linalg_norm (sub2 (getitem2 image_l2 lo hi lo hi) (getitem2 image lo hi lo hi)).

(** [mse_tv = np.linalg.norm(image_tv[pad//2:-pad//2, pad//2:-pad//2]
                             - image[pad//2:-pad//2, pad//2:-pad//2])] *)
Definition mse_tv (image_tv image : list (list R)) : R :=
  Np.linalg_norm (sub2 (getitem2 image_tv lo hi lo hi) (getitem2 image lo hi lo hi)).

(** *** The error as it is described

    The part of a sequence that is left when [b] entries are removed at
    each end, the same for both axes of an array, the root of the sum of
    the squared differences over that part, and, for comparison, the mean
    of the squared differences over it. *)
Definition interior {A : Type} (b : nat) (l : list A) : list A :=
  firstn (length l - 2 * b) (skipn b l).

Definition interior2 (b : nat) (a : list (list R)) : list (list R) :=
  map (interior b) (interior b a).

Definition squared_differences (a b : list (list R)) : R :=
  fold_right Rplus 0%R
    (map (fun rr => fold_right Rplus 0%R
                      (Np.map2 (fun u v => ((u - v) * (u - v))%R) (fst rr) (snd rr)))
         (combine a b)).

Definition interior_norm (b : nat) (rec image : list (list R)) : R :=
  sqrt (squared_differences (interior2 b rec) (interior2 b image)).

Definition interior_mean_square (b : nat) (rec image : list (list R)) : R :=
  (squared_differences (interior2 b rec) (interior2 b image)
   / INR (length (concat (interior2 b image))))%R.

(* ===================================================================== *)
(** ** The notebook: wrapping [radon] and [iradon] in a [FunctionOperator] *)
(* ===================================================================== *)

(** An array with its shape; the entries are kept in row-major order. *)
Record ndarray : Type := { nd_shape : list Z; nd_data : list R }.

(** [a.size] *)
Definition nd_size (a : ndarray) : Z := fold_right Z.mul 1%Z (nd_shape a).

(** [a.reshape(s)] for a shape [s] without [-1]. *)
Definition nd_reshape (a : ndarray) (s : list Z) : result ndarray :=
  if (forallb (fun d => (0 <=? d)%Z) s
      && (fold_right Z.mul 1%Z s =? Z.of_nat (length (nd_data a)))%Z)%bool
  then Ok {| nd_shape := s; nd_data := nd_data a |}
  else Raise (ValueError "cannot reshape array").

(** [a.ravel()] *)
Definition nd_ravel (a : ndarray) : ndarray :=
  {| nd_shape := [Z.of_nat (length (nd_data a))]; nd_data := nd_data a |}.

(** An array whose shape accounts for its entries. *)
Definition nd_wf (a : ndarray) : Prop :=
  Forall (fun d => (0 <= d)%Z) (nd_shape a) /\
  nd_size a = Z.of_nat (length (nd_data a)).

Section FunctionOperatorDemo.

(** Modelled from the spec: the functions [radon] and [iradon] of
    scikit-image are not under src/.  They stand here for
    [radon(a, theta=thetas, circle=False, preserve_range=False)] and
    [iradon(a, theta=thetas, circle=False, filter=None,
    interpolation='nearest')], and nothing is assumed about them. *)
Variable radon : ndarray -> list Z -> result ndarray.
Variable iradon : ndarray -> list Z -> result ndarray.

(** The global names the cells read and write; a name that is not bound
    yet is [None]. *)
Record globals : Type := {
  image : ndarray;
  thetas : list Z;
  projection : ndarray;
  projection1 : option ndarray;
  image_adj : option ndarray
}.

Definition set_projection1 (g : globals) (v : ndarray) : globals :=
  {| image := image g; thetas := thetas g; projection := projection g;
     projection1 := Some v; image_adj := image_adj g |}.

Definition set_image_adj (g : globals) (v : ndarray) : globals :=
  {| image := image g; thetas := thetas g; projection := projection g;
     projection1 := projection1 g; image_adj := Some v |}.

Definition lookup (name : string) (v : option ndarray) : result ndarray :=
  match v with
  | Some a => Ok a
  | None => Raise (NameError name)
  end.

(** [mvec = lambda x: radon(x.reshape(image.shape), theta=thetas, ...)];
    the global names are read when the function is called. *)
Definition mvec (g : globals) (x : ndarray) : result ndarray :=
  a <- nd_reshape x (nd_shape (image g)) ;;
  radon a (thetas g).

(** [rmvec = lambda x: iradon(x.reshape(projection.shape), theta=thetas, ...)] *)
Definition rmvec (g : globals) (x : ndarray) : result ndarray :=
  a <- nd_reshape x (nd_shape (projection g)) ;;
  iradon a (thetas g).

(** Modelled from the spec: [pylops.FunctionOperator(f, fc, nr, nc)] is not
    under src/: an operator of shape [(nr, nc)] whose forward calls [f] and
    whose adjoint calls [fc]. *)
Record FunctionOperator : Type := {
  f : globals -> ndarray -> result ndarray;
  fc : globals -> ndarray -> result ndarray;
  nr : Z;
  nc : Z
}.

(** Modelled from the spec: [Op * x] for a one-dimensional [x]: the length
    is checked, and the output of the wrapped function is flattened to
    [nr] entries. *)
Definition FunctionOperator_matvec (g : globals) (Op : FunctionOperator) (x : ndarray)
  : result ndarray :=
  match nd_shape x with
  | [n] =>
      if (n =? nc Op)%Z then y <- f Op g x ;; nd_reshape y [nr Op]
      else dimension_mismatch
  | _ => dimension_mismatch
  end.

(** Modelled from the spec: [Op.H * y] for a one-dimensional [y]. *)
Definition FunctionOperator_rmatvec (g : globals) (Op : FunctionOperator) (y : ndarray)
  : result ndarray :=
  match nd_shape y with
  | [n] =>
      if (n =? nr Op)%Z then x <- fc Op g y ;; nd_reshape x [nc Op]
      else dimension_mismatch
  | _ => dimension_mismatch
  end.

(** [Fop = FunctionOperator(mvec, rmvec, projection.size, image.size)] *)
Definition make_Fop (g : globals) : FunctionOperator :=
  {| f := mvec; fc := rmvec; nr := nd_size (projection g); nc := nd_size (image g) |}.

(** The cell that applies [Fop] and then its adjoint:
<<
    projection1 = Fop * image.ravel()
    projection1 = projection.reshape(projection.shape)
    image_adj = Fop.H * projection1.ravel()
    image_adj = image_adj.reshape(image.shape)
>> *)
Definition apply_Fop_cell (Fop : FunctionOperator) (g : globals) : result globals :=
  p <- FunctionOperator_matvec g Fop (nd_ravel (image g)) ;;
  let g := set_projection1 g p in
  p <- nd_reshape (projection g) (nd_shape (projection g)) ;;
  let g := set_projection1 g p in
  p1 <- lookup "projection1" (projection1 g) ;;
  a <- FunctionOperator_rmatvec g Fop (nd_ravel p1) ;;
  let g := set_image_adj g a in
  a0 <- lookup "image_adj" (image_adj g) ;;
  a <- nd_reshape a0 (nd_shape (image g)) ;;
  Ok (set_image_adj g a).

End FunctionOperatorDemo.

(* ===================================================================== *)
(** ** The projection at angle 0, and the padding of the image *)
(* ===================================================================== *)

(** Entry [(i, j)] of the window of an image vector [x] of shape [dims]:
    the window starts [inner//2] rows and columns into the image. *)
Definition window_pixel (dims : Z * Z) (inner : Z) (x : list R) (i j : Z) : R :=
  nth (Z.to_nat ((i + inner / 2) * snd dims + (j + inner / 2))) x 0%R.

(** For each column of the window, the sum of its entries. *)
Definition window_column_sums (dims : Z * Z) (inner : Z) (x : list R) : list R :=
  map (fun j =>
         fold_right Rplus 0%R
           (map (fun i => window_pixel dims inner x i j)
                (Np.arange (fst dims - inner))))
      (Np.arange (snd dims - inner)).

(** [a[::2]] *)
Fixpoint every_second {A : Type} (l : list A) : list A :=
  match l with
  | a :: _ :: rest => a :: every_second rest
  | [a] => [a]
  | [] => []
  end.

(** [np.pad(a, ((p, p), (p, p)), mode='constant')] for an array [a] with
    [n] columns, kept as its list of rows: [p] rows of zeros above and
    below, [p] zeros before and after each row. *)
Definition pad_constant (p : Z) (n : nat) (a : list (list R)) : result (list (list R)) :=
  if (p <? 0)%Z then Raise (ValueError "index can't contain negative values")
  else
    let k := Z.to_nat p in
    let blank := Np.zeros (k + n + k) in
    Ok (repeat blank k
        ++ map (fun r => Np.zeros k ++ r ++ Np.zeros k) a
        ++ repeat blank k).

(** The cell that loads the image:
<<
    image = shepp_logan_phantom()[::2, ::2]
    pad = 50
    image = np.pad(image, ((pad, pad), (pad, pad)), mode='constant')
>>
    as a function of the phantom (with [n] columns) and of [pad]. *)
Definition load_image (pad : Z) (n : nat) (phantom : list (list R))
  : result (list (list R)) :=
  let image := map every_second (every_second phantom) in
  pad_constant pad (Nat.div2 (n + 1)) image.

(** [a.sum(axis=0)] written entry by entry: for each of the [n] columns,
    the sum of that entry over the rows. *)
Definition column_sums (n : nat) (a : list (list R)) : list R :=
  map (fun j => fold_right Rplus 0%R (map (fun r => nth j r 0%R) a)) (seq 0 n).

(* ===================================================================== *)
(** ** The rotation of the image by one angle *)
(* ===================================================================== *)

(** The cells "Single image rotation illustration" and "Create the
    rotation operator": the grid [XY] and its rotation [XYrot] are
    computed by the lines that [RadonRotate] repeats, for one angle given
    in degrees, and [Rop = pylops.signalprocessing.Bilinear(XYrot,
    dims=(nx, ny))]. *)
Definition rotation_Rop (dims : Z * Z) (inner : Z) (theta : R)
  : result LinearOperator :=
  let XY := RadonRotate_grid dims inner in
  let theta := Np.deg2rad theta in
  let XYrot := RadonRotate_XYrot dims XY theta in
  Bilinear XYrot dims.

(** The cell "Rotate the image", for the flattened image [x]:
<<
    imagerot = Rop * image.ravel()
    imagerot = imagerot.reshape(nx-inner, ny-inner)
>> *)
Definition imagerot (dims : Z * Z) (inner : Z) (theta : R) (x : list R)
  : result (list (list R)) :=
  Rop <- rotation_Rop dims inner theta ;;
  v <- matvec Rop x ;;
  Np.reshape2 v ((fst dims - inner)%Z, (snd dims - inner)%Z).

(** The window of the flattened image [x], as an array. *)
Definition window_pixels (dims : Z * Z) (inner : Z) (x : list R) : list (list R) :=
  map (fun i => map (fun j => window_pixel dims inner x i j)
                    (Np.arange (snd dims - inner)))
      (Np.arange (fst dims - inner)).

(* ===================================================================== *)
(** ** The reconstruction error for any [pad] *)
(* ===================================================================== *)

(** The expression of the reconstruction error for any value of the
    variable [pad]:
    [np.linalg.norm(a[pad//2:-pad//2, pad//2:-pad//2]
                    - b[pad//2:-pad//2, pad//2:-pad//2])];
    [-pad//2] is [(-pad)//2]. *)
Definition crop (pad : Z) (a : list (list R)) : list (list R) :=
  getitem2 a (Py.floordiv pad 2) (Py.floordiv (- pad) 2)
             (Py.floordiv pad 2) (Py.floordiv (- pad) 2).

Definition crop_error (pad : Z) (a b : list (list R)) : R :=
  Np.linalg_norm (sub2 (crop pad a) (crop pad b)).

(* ===================================================================== *)
(** ** The function [radon_kk]: the samples that are kept *)
(* ===================================================================== *)

(** [np.round]: the nearest whole number, the even one at a tie. *)
Definition np_round (v : R) : Z :=
  let f := Np.floor v in
  let d := (v - IZR f)%R in
  if Rlt_dec d (1 / 2) then f
  else if Rlt_dec (1 / 2) d then (f + 1)%Z
  else if Z.even f then f else (f + 1)%Z.

(** [l[sel]] for a boolean array [sel] as long as [l]. *)
Definition select {A : Type} (l : list A) (sel : list bool) : list A :=
  map fst (filter snd (combine l sel)).

(** [l[k] = v] for a position [k] of the list. *)
Fixpoint list_set {A : Type} (l : list A) (k : nat) (v : A) : list A :=
  match l, k with
  | [], _ => []
  | _ :: rest, O => v :: rest
  | e :: rest, S k' => e :: list_set rest k' v
  end.

(** [mask[i, j] = v] *)
Definition set2 (mask : list (list R)) (i j : nat) (v : R) : list (list R) :=
  list_set mask i (list_set (nth i mask []) j v).

(** The position [(i, j)] in an array of shape [dims], each index checked
    against its axis. *)
Definition index2 (dims : Z * Z) (ij : Z * Z) : result (nat * nat) :=
  i <- Np.index (fst dims) (fst ij) ;;
  j <- Np.index (snd dims) (snd ij) ;;
  Ok (Z.to_nat i, Z.to_nat j).

(** [mask[rows, cols] = v] for two integer index arrays of one length. *)
Definition setitem2 (mask : list (list R)) (dims : Z * Z) (rows cols : list Z) (v : R)
  : result (list (list R)) :=
  ijs <- Py.mapM (index2 dims) (combine rows cols) ;;
  Ok (fold_left (fun m ij => set2 m (fst ij) (snd ij) v) ijs mask).

(** [np.zeros((nx, ny))] *)
Definition zeros2 (nx ny : Z) : result (list (list R)) :=
  if ((nx <? 0) || (ny <? 0))%Z%bool
  then Raise (ValueError "negative dimensions are not allowed")
  else Ok (repeat (Np.zeros (Z.to_nat ny)) (Z.to_nat nx)).

(** [a.T] for an array with [n] columns, and [np.fliplr]. *)
Definition transpose (n : nat) (a : list (list R)) : list (list R) :=
  map (fun j => map (fun r => nth j r 0%R) a) (seq 0 n).
Definition fliplr (a : list (list R)) : list (list R) := map (@rev R) a.

(** The length of an axis after broadcasting two arrays, and an axis of
    length 1 repeated to the length [n]. *)
Definition broadcast_dim (a b : nat) : result nat :=
  if (a =? b)%nat then Ok a
  else if (a =? 1)%nat then Ok b
  else if (b =? 1)%nat then Ok a
  else Raise (ValueError "operands could not be broadcast together").
Definition stretch {A : Type} (d : A) (n : nat) (l : list A) : list A :=
  if (length l =? n)%nat then l else repeat (nth 0 l d) n.

(** The truth value of a number. *)
Definition nonzero (v : R) : bool := if Req_dec_T v 0 then false else true.

(** An operation on two arrays of the shapes [sa] and [sb], entry by entry
    after broadcasting. *)
Definition broadcast2 {C : Type} (f : R -> R -> C)
           (sa : nat * nat) (a : list (list R))
           (sb : nat * nat) (b : list (list R)) : result (list (list C)) :=
  m <- broadcast_dim (fst sa) (fst sb) ;;
  n <- broadcast_dim (snd sa) (snd sb) ;;
  Ok (Np.map2 (Np.map2 f)
              (stretch [] m (map (stretch 0%R n) a))
              (stretch [] m (map (stretch 0%R n) b))).

(** [np.logical_or(a, b)] *)
Definition logical_or (sa : nat * nat) (a : list (list R))
           (sb : nat * nat) (b : list (list R)) : result (list (list bool)) :=
  broadcast2 (fun u v => nonzero u || nonzero v) sa a sb b.

(** [a + b] for two-dimensional arrays. *)
Definition add2 (sa : nat * nat) (a : list (list R))
           (sb : nat * nat) (b : list (list R)) : result (list (list R)) :=
  broadcast2 Rplus sa a sb b.

(** [np.fft.ifftshift] along one axis moves the first [n//2] entries to the
    end; on a two-dimensional array it does so along both axes. *)
Definition ifftshift {A : Type} (l : list A) : list A :=
  let s := Nat.div (length l) 2 in skipn s l ++ firstn s l.
Definition ifftshift2 {A : Type} (a : list (list A)) : list (list A) :=
  ifftshift (map ifftshift a).

(** [np.fft.fftshift] along one axis moves the last [n//2] entries to the
    front; on a two-dimensional array it does so along both axes.  It is
    applied to [kkrestr.data] and [kkrestr.mask] before they are shown. *)
Definition fftshift {A : Type} (l : list A) : list A :=
  let s := (length l - Nat.div (length l) 2)%nat in skipn s l ++ firstn s l.
Definition fftshift2 {A : Type} (a : list (list A)) : list (list A) :=
  fftshift (map fftshift a).

(** [np.where(l)[0]]: the positions of the true entries. *)
Definition where_true (l : list bool) : list Z :=
  map fst (filter snd (combine (Np.arange (Z.of_nat (length l))) l)).

(** [np.count_nonzero] of a two-dimensional array of numbers, and the
    number of true entries of an array of booleans. *)
Definition count_nonzero (a : list (list R)) : nat :=
  length (filter nonzero (Np.ravel a)).
Definition count_true (a : list (list bool)) : nat :=
  length (filter (fun b => b) (Np.ravel a)).

(** The body of the loop over the angles:
<<
    ky = kx * np.tan(np.deg2rad(theta))
    iky = np.round(ky).astype(np.int) + nx // 2
    sel = (iky >= 0) & (iky < nx)
    mask[ikx[sel], iky[sel]] = 1
>> *)
Definition radon_kk_line (nx ny : Z) (mask : list (list R)) (theta : Z)
  : result (list (list R)) :=
  let kx := map (fun k => (k - Py.floordiv nx 2)%Z) (Np.arange nx) in
  let ikx := Np.arange nx in
  let ky := map (fun k => (IZR k * tan (Np.deg2rad (IZR theta)))%R) kx in
  let iky := map (fun v => (np_round v + Py.floordiv nx 2)%Z) ky in
  let sel := map (fun k => ((0 <=? k) && (k <? nx))%Z%bool) iky in
  setitem2 mask (nx, ny) (select ikx sel) (select iky sel) 1%R.

(** Entry [r] of [iky]: the column that the loop marks on row [r] for the
    angle [theta], when it is a column of the mask. *)
Definition radon_kk_iky (nx : Z) (theta : Z) (r : Z) : Z :=
  (np_round (IZR (r - Py.floordiv nx 2) * tan (Np.deg2rad (IZR theta)))
   + Py.floordiv nx 2)%Z.

(** The angles of [radon_kk]: [np.arange(-43, 47, 5)]. *)
Definition radon_kk_thetas : list Z := Np.arange3 (-43) 47 5.

(** The mask of [radon_kk] and the positions handed to [Restriction],
    [np.where(mask.ravel() == 1)[0]], for an image of shape [(nx, ny)]. *)
Definition radon_kk_iava (nx ny : Z) (thetas : list Z) : result (list Z) :=
  mask <- zeros2 nx ny ;;
  mask <- Py.for_each (radon_kk_line nx ny) thetas mask ;;
  let m := Z.to_nat nx in
  let n := Z.to_nat ny in
  mask <- logical_or (m, n) mask (n, m) (fliplr (transpose n mask)) ;;
  let mask := ifftshift2 mask in
  Ok (where_true (map (fun b => (Z.b2z b =? 1)%Z) (Np.ravel mask))).

(* ===================================================================== *)
(** ** The function [radon_noise] *)
(* ===================================================================== *)

(** [a[a.shape[0] // 2 - (nx - inner) // 2:a.shape[0] // 2 + (nx - inner) // 2]],
    the rows of [projection], or of an array of its shape, that are
    compared with the output of the operator. *)
Definition central_rows (nx inner : Z) (a : list (list R)) : list (list R) :=
  let P := Z.of_nat (length a) in
  Py.slice (Py.floordiv P 2 - Py.floordiv (nx - inner) 2)
           (Py.floordiv P 2 + Py.floordiv (nx - inner) 2) a.

(** [projection1_n = projection1 + n[...].T] in [radon_noise]: [n] is the
    array of random numbers, of the shape [(P, T)] of [projection], and
    [projection1] has the shape [(T, ny - inner)]. *)
Definition radon_noise_projection1_n (nx ny inner : Z) (T : nat)
           (n projection1 : list (list R)) : result (list (list R)) :=
  let c := central_rows nx inner n in
  add2 (T, Z.to_nat (ny - inner)) projection1 (T, length c) (transpose T c).

Unset Implicit Arguments.

(* ===================================================================== *)
(** ** Results of fallible calls *)
(* ===================================================================== *)

Lemma bind_Ok_inv (A B : Type) (c : result A) (k : A -> result B) (b : B) :
  (x <- c ;; k x) = Ok b -> exists a, c = Ok a /\ k a = Ok b.
Proof.
  destruct c as [a | e]; simpl; intros H.
  - exists a. split; [reflexivity | exact H].
  - discriminate H.
Qed.

Ltac bind_inv H :=
  let a := fresh "a" in
  let Ha := fresh "Ha" in
  apply bind_Ok_inv in H; destruct H as (a & Ha & H).

Lemma mapM_length (A B : Type) (f : A -> result B) (xs : list A) (ys : list B) :
  Py.mapM f xs = Ok ys -> length ys = length xs.
Proof.
  revert ys. induction xs as [| a xs IH]; simpl; intros ys H.
  - inversion H. reflexivity.
  - bind_inv H. bind_inv H. inversion H; subst. simpl. f_equal. now apply IH.
Qed.

Lemma mapM_Forall2 (A B : Type) (f : A -> result B) (xs : list A) (ys : list B) :
  Py.mapM f xs = Ok ys -> Forall2 (fun a b => f a = Ok b) xs ys.
Proof.
  revert ys. induction xs as [| a xs IH]; simpl; intros ys H.
  - inversion H. constructor.
  - bind_inv H. bind_inv H. inversion H; subst. constructor; auto.
Qed.

(** The loop of [RadonRotate] appends one result per element: it is a
    [mapM] whose results follow what was already in the list. *)
Lemma for_each_append (A B : Type) (f : A -> result B) (xs : list A) (acc : list B) :
  Py.for_each (fun l a => b <- f a ;; Ok (l ++ [b])) xs acc
  = (bs <- Py.mapM f xs ;; Ok (acc ++ bs)).
Proof.
  revert acc. induction xs as [| a xs IH]; simpl; intros acc.
  - now rewrite app_nil_r.
  - destruct (f a) as [b | e]; simpl; [| reflexivity].
    rewrite IH. destruct (Py.mapM f xs) as [bs | e]; simpl; [| reflexivity].
    now rewrite <- app_assoc.
Qed.

(* ===================================================================== *)
(** ** Arrays: lengths and dot products *)
(* ===================================================================== *)

Section Vectors.

Local Open Scope R_scope.

Lemma map2_length (A B C : Type) (f : A -> B -> C) (u : list A) (v : list B) :
  length (Np.map2 f u v) = Nat.min (length u) (length v).
Proof.
  revert v. induction u as [| a u IH]; intros [| b v]; simpl; auto.
Qed.

Lemma add_length (u v : list R) :
  length u = length v -> length (Np.add u v) = length u.
Proof. intros H. unfold Np.add. rewrite map2_length, <- H. apply Nat.min_id. Qed.

Lemma mul_length (u v : list R) :
  length u = length v -> length (Np.mul u v) = length u.
Proof. intros H. unfold Np.mul. rewrite map2_length, <- H. apply Nat.min_id. Qed.

Lemma zeros_length (n : nat) : length (Np.zeros n) = n.
Proof. apply repeat_length. Qed.

Lemma dot_nil_r (u : list R) : Np.dot u [] = 0.
Proof. destruct u; reflexivity. Qed.

Lemma dot_zeros_l (n : nat) (v : list R) : Np.dot (Np.zeros n) v = 0.
Proof.
  revert v. induction n as [| n IH]; intros [| b v]; simpl; auto.
  rewrite IH. lra.
Qed.

Lemma dot_zeros_r (n : nat) (u : list R) : Np.dot u (Np.zeros n) = 0.
Proof.
  revert u. induction n as [| n IH]; intros [| a u]; simpl; auto.
  rewrite IH. lra.
Qed.

Lemma dot_add_l (u v w : list R) :
  length u = length v ->
  Np.dot (Np.add u v) w = Np.dot u w + Np.dot v w.
Proof.
  unfold Np.add. revert v w. induction u as [| a u IH]; intros [| b v] [| c w] H;
    simpl in *; try discriminate; try lra.
  rewrite (IH v w) by congruence. lra.
Qed.

Lemma dot_add_r (u v w : list R) :
  length v = length w ->
  Np.dot u (Np.add v w) = Np.dot u v + Np.dot u w.
Proof.
  unfold Np.add. revert v w. induction u as [| a u IH]; intros [| b v] [| c w] H;
    simpl in *; try discriminate; try lra.
  rewrite (IH v w) by congruence. lra.
Qed.

Lemma dot_app (u1 u2 v1 v2 : list R) :
  length u1 = length v1 ->
  Np.dot (u1 ++ u2) (v1 ++ v2) = Np.dot u1 v1 + Np.dot u2 v2.
Proof.
  revert v1. induction u1 as [| a u1 IH]; intros [| b v1] H;
    simpl in *; try discriminate.
  - lra.
  - rewrite IH by congruence. lra.
Qed.

(** A weight array can be moved from one side of the product to the other. *)
Lemma dot_mul_swap (a w y : list R) :
  Np.dot (Np.mul a w) y = Np.dot a (Np.mul y w).
Proof.
  unfold Np.mul. revert w y. induction a as [| a0 a IH]; intros [| w0 w] [| y0 y];
    simpl; try reflexivity.
  rewrite IH. lra.
Qed.

Lemma iadd_at_length (y : list R) (k : nat) (v : R) :
  length (Np.iadd_at y k v) = length y.
Proof.
  revert k. induction y as [| e y IH]; intros [| k]; simpl; auto.
Qed.

Lemma dot_iadd_at (x y : list R) (k : nat) (v : R) :
  length x = length y ->
  Np.dot x (Np.iadd_at y k v) = Np.dot x y + nth k x 0 * v.
Proof.
  revert y k. induction x as [| a x IH]; intros [| e y] [| k] H;
    simpl in *; try discriminate; try lra.
  rewrite IH by congruence. lra.
Qed.

(** Scattering values onto an array, seen through a dot product, is
    gathering on the other side. *)
Lemma dot_scatter (x : list R) (ks : list nat) (vals acc : list R) :
  length x = length acc ->
  Np.dot x (fold_left (fun a kv => Np.iadd_at a (fst kv) (snd kv)) (combine ks vals) acc)
  = Np.dot x acc + Np.dot (map (fun k => nth k x 0) ks) vals.
Proof.
  revert vals acc. induction ks as [| k ks IH]; intros vals acc H.
  - simpl. lra.
  - destruct vals as [| v vals]; simpl.
    + lra.
    + rewrite IH by (rewrite iadd_at_length; exact H).
      rewrite dot_iadd_at by exact H. lra.
Qed.

Lemma scatter_length (ks : list nat) (vals acc : list R) :
  length (fold_left (fun a kv => Np.iadd_at a (fst kv) (snd kv)) (combine ks vals) acc)
  = length acc.
Proof.
  revert vals acc. induction ks as [| k ks IH]; intros vals acc; simpl; auto.
  destruct vals as [| v vals]; simpl; auto.
  rewrite IH. apply iadd_at_length.
Qed.

End Vectors.

(* ===================================================================== *)
(** ** Small runs of the model *)
(* ===================================================================== *)

Section SmallRuns.

Example arange_3 : Np.arange 3 = [0; 1; 2]%Z.
Proof. reflexivity. Qed.

Example arange_negative : Np.arange (-2) = [].
Proof. reflexivity. Qed.

Example thetas_run :
  length Notebook.thetas = 60%nat /\
  firstn 3 Notebook.thetas = [0; 3; 6]%Z /\ last Notebook.thetas 0%Z = 177%Z.
Proof. repeat split; reflexivity. Qed.

Example image_shape_run : (Notebook.nx, Notebook.ny) = (300, 300)%Z.
Proof. reflexivity. Qed.

Example slice_run : Py.slice 1 (-1) [10; 20; 30; 40]%Z = [20; 30]%Z.
Proof. reflexivity. Qed.

Example slice_short : Py.slice 2 (-2) [10; 20; 30]%Z = [].
Proof. reflexivity. Qed.

Example floordiv_negative : Py.floordiv (-51) 2 = (-26)%Z.
Proof. reflexivity. Qed.

Example meshgrid_run :
  Np.meshgrid_ij [1; 2]%Z [7; 8; 9]%Z
  = ([[1; 1; 1]; [2; 2; 2]]%Z, [[7; 8; 9]; [7; 8; 9]]%Z).
Proof. reflexivity. Qed.

(** The grid of a 4 by 4 image with [inner = 2]: the window is the middle
    2 by 2 block, relative to the centre [(2, 2)]. *)
Example grid_run :
  RadonRotate_grid (4, 4)%Z 2 = [[-1; -1; 0; 0]; [-1; 0; -1; 0]]%Z.
Proof. reflexivity. Qed.

Example index_run :
  Np.index 5 (-1) = Ok 4%Z /\ Np.index 5 4 = Ok 4%Z /\
  Np.index 5 5 = Raise (IndexError "index is out of bounds for axis").
Proof. repeat split; reflexivity. Qed.

Local Open Scope R_scope.

Ltac same_entries :=
  apply f_equal; repeat (apply f_equal2; [lra |]); reflexivity.

Ltac run_arrays :=
  repeat (unfold Np.sum_axis0, Np.sum_axis1, Np.add, Np.mul, Np.sub, Np.zeros,
          Np.add_at, Np.take2, one_minus; simpl).

(** [Sum] over axis 0 of the 2 by 3 array [[a b c] [d e f]], and its
    adjoint. *)
Example Sum_run (a b c d e f : R) :
  matvec (SumOp (2, 3)%Z 0) [a; b; c; d; e; f] = Ok [a + d; b + e; c + f].
Proof. simpl. unfold Sum_matvec. run_arrays. same_entries. Qed.

Example Sum_adjoint_run (u v w : R) :
  rmatvec (SumOp (2, 3)%Z 0) [u; v; w] = Ok [u; v; w; u; v; w].
Proof. reflexivity. Qed.

Lemma floor_half : Np.floor (1 / 2) = 0%Z.
Proof. apply Zfloor_eq. simpl. lra. Qed.

(** [Bilinear] at the midpoint of a 2 by 2 image: the mean of the four
    pixels, and the adjoint gives each of them a quarter. *)
Example Bilinear_run (a b c d : R) :
  exists B, Bilinear [[1 / 2]; [1 / 2]] (2, 2)%Z = Ok B /\
            matvec B [a; b; c; d] = Ok [(a + b + c + d) / 4] /\
            forall y, rmatvec B [y] = Ok [y / 4; y / 4; y / 4; y / 4].
Proof.
  eexists. split; [reflexivity |]. simpl. rewrite floor_half. split.
  - unfold Bilinear_matvec. run_arrays. same_entries.
  - intros y. unfold Bilinear_rmatvec. run_arrays. same_entries.
Qed.

(** A point on the last row has no row below it. *)
Example Bilinear_last_row (a b c d : R) :
  exists B, Bilinear [[1]; [0]] (2, 2)%Z = Ok B /\
            matvec B [a; b; c; d]
            = Raise (IndexError "index is out of bounds for axis").
Proof.
  eexists. split; [reflexivity |]. simpl.
  replace (Np.floor 1) with 1%Z by (symmetry; apply (ZfloorZ 1)).
  replace (Np.floor 0) with 0%Z by (symmetry; apply (ZfloorZ 0)).
  reflexivity.
Qed.

End SmallRuns.

(* ===================================================================== *)
(** ** The library operators are forward/adjoint pairs *)
(* ===================================================================== *)

Section SumAdjoint.

Local Open Scope R_scope.

Lemma sum_axis0_dot (M N : nat) :
  forall (x y acc : list R),
    length x = (M * N)%nat -> length y = N -> length acc = N ->
    length (fold_left Np.add (Np.rows_of M N x) acc) = N /\
    Np.dot (fold_left Np.add (Np.rows_of M N x) acc) y
    = Np.dot acc y + Np.dot x (concat (repeat y M)).
Proof.
  induction M as [| M IH]; intros x y acc Hx Hy Hacc; simpl in *.
  - destruct x; [| discriminate]. simpl. split; [exact Hacc | lra].
  - assert (Hr : length (firstn N x) = N) by (rewrite length_firstn; lia).
    assert (Hs : length (skipn N x) = (M * N)%nat) by (rewrite length_skipn; lia).
    assert (Ha : length (Np.add acc (firstn N x)) = N)
      by (rewrite add_length; congruence).
    destruct (IH (skipn N x) y (Np.add acc (firstn N x)) Hs Hy Ha) as [Hl Hd].
    split; [exact Hl |].
    rewrite Hd, dot_add_l by congruence.
    rewrite <- (firstn_skipn N x) at 3.
    rewrite dot_app by congruence. lra.
Qed.

Lemma dot_repeat (r : list R) (c : R) :
  Np.dot r (repeat c (length r)) = fold_right Rplus 0 r * c.
Proof. induction r as [| a r IH]; simpl; [| rewrite IH]; lra. Qed.

Lemma sum_axis1_dot (M N : nat) :
  forall (x y : list R),
    length x = (M * N)%nat -> length y = M ->
    Np.dot (Np.sum_axis1 (Np.rows_of M N x)) y
    = Np.dot x (flat_map (fun v => repeat v N) y).
Proof.
  unfold Np.sum_axis1.
  induction M as [| M IH]; intros x y Hx Hy; simpl in *.
  - destruct x; [| discriminate]. reflexivity.
  - destruct y as [| c y]; [discriminate |]. simpl.
    assert (Hr : length (firstn N x) = N) by (rewrite length_firstn; lia).
    assert (Hs : length (skipn N x) = (M * N)%nat) by (rewrite length_skipn; lia).
    rewrite (IH (skipn N x) y Hs) by (simpl in Hy; congruence).
    rewrite <- (firstn_skipn N x) at 3.
    rewrite dot_app by (rewrite repeat_length; exact Hr).
    replace (repeat c N) with (repeat c (length (firstn N x))) by (now rewrite Hr).
    rewrite dot_repeat. reflexivity.
Qed.

Lemma rows_of_length (M N : nat) (x : list R) : length (Np.rows_of M N x) = M.
Proof. revert x. induction M; intros x; simpl; auto. Qed.

Lemma concat_repeat_length (y : list R) (M : nat) :
  length (concat (repeat y M)) = (M * length y)%nat.
Proof. induction M; simpl; [| rewrite length_app, IHM]; lia. Qed.

Lemma flat_map_repeat_length (y : list R) (N : nat) :
  length (flat_map (fun v => repeat v N) y) = (length y * N)%nat.
Proof. induction y; simpl; [| rewrite length_app, repeat_length, IHy]; lia. Qed.

Lemma reshape2_Ok (x : list R) (m n : Z) (a : list (list R)) :
  Np.reshape2 x (m, n) = Ok a ->
  (0 <= m)%Z /\ (0 <= n)%Z /\ length x = (Z.to_nat m * Z.to_nat n)%nat /\
  a = Np.rows_of (Z.to_nat m) (Z.to_nat n) x.
Proof.
  unfold Np.reshape2.
  destruct (0 <=? m)%Z eqn:Hm; [| discriminate].
  destruct (0 <=? n)%Z eqn:Hn; [| discriminate].
  destruct (Z.of_nat (length x) =? m * n)%Z eqn:Hx; [| discriminate].
  simpl. intros H. inversion H. apply Z.eqb_eq in Hx.
  repeat split; try lia; nia.
Qed.

Lemma Sum_adjoint (dims : Z * Z) (axis : Z) (x u : list R) :
  Sum_matvec dims axis x = Ok u ->
  Z.of_nat (length u) = fst (shape (SumOp dims axis)) /\
  forall y, Z.of_nat (length y) = fst (shape (SumOp dims axis)) ->
            exists v, Sum_rmatvec dims axis y = Ok v /\
                      length v = length x /\ Np.dot u y = Np.dot x v.
Proof.
  destruct dims as [m n]. unfold Sum_matvec, Sum_rmatvec. intros H.
  bind_inv H. apply reshape2_Ok in Ha. destruct Ha as (Hm & Hn & Hx & ->).
  inversion H; subst u; clear H. simpl fst; simpl snd.
  destruct (Z.leb_spec 0 m); [| lia]. destruct (Z.leb_spec 0 n); [| lia]. simpl.
  destruct (axis =? 0)%Z.
  - assert (Hz : length (Np.zeros (Z.to_nat n)) = Z.to_nat n) by apply zeros_length.
    split.
    + unfold Np.sum_axis0.
      destruct (sum_axis0_dot (Z.to_nat m) (Z.to_nat n) x (Np.zeros (Z.to_nat n))
                  (Np.zeros (Z.to_nat n)) Hx Hz Hz) as [Hl _].
      rewrite Hl. lia.
    + intros y Hy. eexists. split; [reflexivity |].
      assert (Hy' : length y = Z.to_nat n) by lia.
      split; [rewrite concat_repeat_length; lia |].
      unfold Np.sum_axis0.
      destruct (sum_axis0_dot (Z.to_nat m) (Z.to_nat n) x y (Np.zeros (Z.to_nat n))
                  Hx Hy' Hz) as [_ Hd].
      rewrite Hd, dot_zeros_l. lra.
  - split.
    + unfold Np.sum_axis1. rewrite length_map, rows_of_length. lia.
    + intros y Hy. eexists. split; [reflexivity |].
      assert (Hy' : length y = Z.to_nat m) by lia.
      split; [rewrite flat_map_repeat_length; lia |].
      apply sum_axis1_dot; assumption.
Qed.

End SumAdjoint.

Section BilinearAdjoint.

Local Open Scope R_scope.

Lemma take2_Ok (x : list R) (dims : Z * Z) (rows cols : list Z) (t : list R) :
  Np.take2 x dims rows cols = Ok t ->
  exists ks, Py.mapM (Np.flat_index dims) (combine rows cols) = Ok ks /\
             t = map (fun k => nth k x 0) ks /\
             length ks = Nat.min (length rows) (length cols).
Proof.
  unfold Np.take2. intros H. bind_inv H. inversion H; subst.
  exists a. repeat split; auto.
  apply mapM_length in Ha. now rewrite length_combine in Ha.
Qed.

Lemma one_minus_length (w : list R) : length (one_minus w) = length w.
Proof. apply length_map. Qed.

Lemma Bilinear_adjoint (dims : Z * Z) (it ib : list Z) (wtb : list R)
      (il ir : list Z) (wlr : list R) (x u : list R) :
  well_formed (BilinearOp dims it ib wtb il ir wlr) ->
  Bilinear_matvec dims it ib wtb il ir wlr x = Ok u ->
  length u = length il /\
  forall y, length y = length il ->
            exists v, Bilinear_rmatvec dims it ib wtb il ir wlr y = Ok v /\
                      length v = length x /\ Np.dot u y = Np.dot x v.
Proof.
  simpl. intros (Hit & Hib & Hwtb & Hir & Hwlr) H.
  unfold Bilinear_matvec in H.
  bind_inv H. rename a into rows0. destruct dims as [nx ny].
  apply reshape2_Ok in Ha. destruct Ha as (Hnx & Hny & Hx & _).
  bind_inv H. apply take2_Ok in Ha. destruct Ha as (k1 & Hk1 & -> & L1).
  bind_inv H. apply take2_Ok in Ha. destruct Ha as (k2 & Hk2 & -> & L2).
  bind_inv H. apply take2_Ok in Ha. destruct Ha as (k3 & Hk3 & -> & L3).
  bind_inv H. apply take2_Ok in Ha. destruct Ha as (k4 & Hk4 & -> & L4).
  inversion H; subst u; clear H.
  assert (L1' : length k1 = length il) by lia.
  assert (L2' : length k2 = length il) by lia.
  assert (L3' : length k3 = length il) by lia.
  assert (L4' : length k4 = length il) by lia.
  clear L1 L2 L3 L4.
  set (n := length il) in *.
  assert (Hom1 : length (one_minus wtb) = n) by (rewrite one_minus_length; exact Hwtb).
  assert (Hom2 : length (one_minus wlr) = n) by (rewrite one_minus_length; exact Hwlr).
  assert (G : forall ks (a b : list R),
             length ks = n -> length a = n -> length b = n ->
             length (Np.mul (Np.mul (map (fun k => nth k x 0) ks) a) b) = n).
  { intros ks a b H1 H2 H3.
    assert (H4 : length (Np.mul (map (fun k => nth k x 0) ks) a) = n)
      by (rewrite mul_length; rewrite length_map; congruence).
    rewrite mul_length; congruence. }
  pose proof (G k1 _ _ L1' Hom1 Hom2) as G1.
  pose proof (G k2 _ _ L2' Hom1 Hwlr) as G2.
  pose proof (G k3 _ _ L3' Hwtb Hom2) as G3.
  pose proof (G k4 _ _ L4' Hwtb Hwlr) as G4.
  match goal with
  | |- length (Np.add (Np.add (Np.add ?t1 ?t2) ?t3) ?t4) = _ /\ _ =>
      assert (A1 : length (Np.add t1 t2) = n) by (rewrite add_length; congruence);
      assert (A2 : length (Np.add (Np.add t1 t2) t3) = n)
        by (rewrite add_length; congruence)
  end.
  split.
  { rewrite add_length; congruence. }
  intros y Hy. unfold Bilinear_rmatvec. simpl fst; simpl snd.
  destruct (Z.leb_spec 0 nx); [| lia]. destruct (Z.leb_spec 0 ny); [| lia]. simpl.
  unfold Np.add_at. rewrite Hk1. simpl. rewrite Hk2. simpl.
  rewrite Hk3. simpl. rewrite Hk4. simpl.
  eexists. split; [reflexivity |].
  assert (Hz : length x = length (Np.zeros (Z.to_nat (nx * ny))))
    by (rewrite zeros_length; nia).
  split.
  { rewrite !scatter_length, zeros_length. nia. }
  rewrite !dot_scatter; rewrite ?scatter_length; auto.
  rewrite dot_zeros_r.
  rewrite !dot_add_l by congruence.
  rewrite !dot_mul_swap.
  assert (C : forall a b : list R, Np.mul (Np.mul y b) a = Np.mul (Np.mul y a) b).
  { intros a b. unfold Np.mul. clear. revert a b.
    induction y as [| y0 y IH]; intros [| a0 a] [| b0 b]; simpl; try reflexivity.
    rewrite IH. f_equal. lra. }
  rewrite (C (one_minus wtb) (one_minus wlr)), (C (one_minus wtb) wlr),
          (C wtb (one_minus wlr)), (C wtb wlr).
  lra.
Qed.

End BilinearAdjoint.

Section OperatorInduction.

Variable P : LinearOperator -> Prop.
Hypothesis P_Sum : forall dims axis, P (SumOp dims axis).
Hypothesis P_Bilinear :
  forall dims it ib wtb il ir wlr, P (BilinearOp dims it ib wtb il ir wlr).
Hypothesis P_Product : forall A B, P A -> P B -> P (ProductOp A B).
Hypothesis P_VStack : forall ops, Forall P ops -> P (VStackOp ops).

(** Induction on an operator, with the hypothesis for every block of a stack. *)
Lemma LinearOperator_nested_ind : forall op, P op.
Proof.
  fix IH 1. intros [dims axis | dims it ib wtb il ir wlr | A B | ops].
  - apply P_Sum.
  - apply P_Bilinear.
  - apply P_Product; apply IH.
  - apply P_VStack. induction ops as [| o ops IHops]; constructor.
    + apply IH.
    + exact IHops.
Qed.

End OperatorInduction.

Section OperatorAdjoint.

Local Open Scope R_scope.

Lemma matvec_eq (op : LinearOperator) (x : list R) :
  matvec op x =
  if negb (Z.of_nat (length x) =? snd (shape op))%Z then dimension_mismatch
  else match op with
       | SumOp dims axis => Sum_matvec dims axis x
       | BilinearOp dims it ib wtb il ir wlr =>
           Bilinear_matvec dims it ib wtb il ir wlr x
       | ProductOp A B => y <- matvec B x ;; matvec A y
       | VStackOp ops => VStack_matvec matvec ops x
       end.
Proof. destruct op; reflexivity. Qed.

Lemma rmatvec_eq (op : LinearOperator) (y : list R) :
  rmatvec op y =
  if negb (Z.of_nat (length y) =? fst (shape op))%Z then dimension_mismatch
  else match op with
       | SumOp dims axis => Sum_rmatvec dims axis y
       | BilinearOp dims it ib wtb il ir wlr =>
           Bilinear_rmatvec dims it ib wtb il ir wlr y
       | ProductOp A B => x <- rmatvec A y ;; rmatvec B x
       | VStackOp ops =>
           VStack_rmatvec (fun o => Z.to_nat (fst (shape o))) rmatvec ops y
                          (Np.zeros (Z.to_nat (snd (shape op))))
       end.
Proof. destruct op; reflexivity. Qed.

Lemma matvec_Ok_inv (op : LinearOperator) (x u : list R) :
  matvec op x = Ok u ->
  Z.of_nat (length x) = snd (shape op) /\
  match op with
  | SumOp dims axis => Sum_matvec dims axis x
  | BilinearOp dims it ib wtb il ir wlr =>
      Bilinear_matvec dims it ib wtb il ir wlr x
  | ProductOp A B => y <- matvec B x ;; matvec A y
  | VStackOp ops => VStack_matvec matvec ops x
  end = Ok u.
Proof.
  rewrite matvec_eq.
  destruct (Z.eqb_spec (Z.of_nat (length x)) (snd (shape op))); simpl.
  - auto.
  - discriminate.
Qed.

Lemma matvec_checked (op : LinearOperator) (x : list R) :
  Z.of_nat (length x) = snd (shape op) ->
  matvec op x =
  match op with
  | SumOp dims axis => Sum_matvec dims axis x
  | BilinearOp dims it ib wtb il ir wlr =>
      Bilinear_matvec dims it ib wtb il ir wlr x
  | ProductOp A B => y <- matvec B x ;; matvec A y
  | VStackOp ops => VStack_matvec matvec ops x
  end.
Proof.
  intros H. rewrite matvec_eq.
  destruct (Z.eqb_spec (Z.of_nat (length x)) (snd (shape op))); simpl; congruence.
Qed.

Lemma rmatvec_checked (op : LinearOperator) (y : list R) :
  Z.of_nat (length y) = fst (shape op) ->
  rmatvec op y =
  match op with
  | SumOp dims axis => Sum_rmatvec dims axis y
  | BilinearOp dims it ib wtb il ir wlr =>
      Bilinear_rmatvec dims it ib wtb il ir wlr y
  | ProductOp A B => x <- rmatvec A y ;; rmatvec B x
  | VStackOp ops =>
      VStack_rmatvec (fun o => Z.to_nat (fst (shape o))) rmatvec ops y
                     (Np.zeros (Z.to_nat (snd (shape op))))
  end.
Proof.
  intros H. rewrite rmatvec_eq.
  destruct (Z.eqb_spec (Z.of_nat (length y)) (fst (shape op))); simpl; congruence.
Qed.

Lemma VStack_blocks_adjoint (x : list R) (ops : list LinearOperator) :
  Forall (fun o => forall u, matvec o x = Ok u -> adjoint_at o x u) ops ->
  forall u, VStack_matvec matvec ops x = Ok u ->
    Z.of_nat (length u) = rows_total ops /\
    forall y acc,
      Z.of_nat (length y) = rows_total ops -> length acc = length x ->
      exists v,
        VStack_rmatvec (fun o => Z.to_nat (fst (shape o))) rmatvec ops y acc = Ok v /\
        length v = length x /\
        Np.dot x v = Np.dot x acc + Np.dot u y.
Proof.
  unfold rows_total.
  induction 1 as [| o ops Ho Hops IH]; intros u H; simpl in *.
  - inversion H; subst u. split; [reflexivity |].
    intros y acc _ Hacc. exists acc. repeat split; auto. simpl. lra.
  - bind_inv H. rename a into u1. bind_inv H. rename a into us.
    inversion H; subst u; clear H.
    destruct (Ho u1 Ha) as (Hu1 & Hx & Hadj).
    destruct (IH us Ha0) as (Hus & Hrest).
    split; [rewrite length_app; lia |].
    intros y acc Hy Hacc.
    set (n1 := Z.to_nat (fst (shape o))).
    assert (Hn1 : n1 = length u1) by (unfold n1; lia).
    assert (Hy1 : length (firstn n1 y) = n1) by (rewrite length_firstn; lia).
    destruct (Hadj (firstn n1 y)) as (v1 & Hv1 & Lv1 & Dv1); [lia |].
    rewrite Hv1. simpl.
    destruct (Hrest (skipn n1 y) (Np.add acc v1)) as (v & Hv & Lv & Dv).
    + rewrite length_skipn. lia.
    + rewrite add_length; congruence.
    + exists v. repeat split; auto.
      rewrite Dv, dot_add_r by congruence.
      replace (Np.dot (u1 ++ us) y)
        with (Np.dot (u1 ++ us) (firstn n1 y ++ skipn n1 y))
        by (now rewrite firstn_skipn).
      rewrite dot_app by congruence. lra.
Qed.

(** Every operator built from [Sum], [Bilinear], products and stacks is a
    forward/adjoint pair wherever its forward returns. *)
Lemma operator_adjoint :
  forall op, well_formed op ->
             forall x u, matvec op x = Ok u -> adjoint_at op x u.
Proof.
  intros op.
  induction op as [dims axis | dims it ib wtb il ir wlr | A B IHA IHB | ops IH]
    using LinearOperator_nested_ind; intros Hwf x u H;
    apply matvec_Ok_inv in H; destruct H as [Hx H].
  - destruct (Sum_adjoint dims axis x u H) as [Hu Hadj].
    split; [exact Hu |]. split; [exact Hx |].
    intros y Hy. rewrite rmatvec_checked by exact Hy. now apply Hadj.
  - destruct (Bilinear_adjoint dims it ib wtb il ir wlr x u Hwf H) as [Hu Hadj].
    split; [simpl; lia |]. split; [exact Hx |].
    intros y Hy. rewrite rmatvec_checked by exact Hy. apply Hadj.
    simpl in Hy. lia.
  - destruct Hwf as [HwA HwB].
    bind_inv H. rename a into w.
    destruct (IHB HwB x w Ha) as (Hw & _ & HadjB).
    destruct (IHA HwA w u H) as (Hu & Hw' & HadjA).
    split; [exact Hu |]. split; [exact Hx |].
    intros y Hy. rewrite rmatvec_checked by exact Hy.
    destruct (HadjA y Hy) as (w' & Hrw & Lw' & Dw').
    rewrite Hrw. simpl.
    destruct (HadjB w') as (v & Hrv & Lv & Dv); [lia |].
    exists v. repeat split; auto. congruence.
  - assert (Hall : Forall (fun o => forall u, matvec o x = Ok u -> adjoint_at o x u) ops).
    { clear H Hx. induction IH as [| o ops Ho Hops IH']; constructor.
      - intros u0 Hu0. apply Ho; [apply Hwf | exact Hu0].
      - apply IH'. apply Hwf. }
    destruct (VStack_blocks_adjoint x ops Hall u H) as (Hu & Hadj).
    split; [exact Hu |]. split; [exact Hx |].
    intros y Hy. rewrite rmatvec_checked by exact Hy.
    destruct (Hadj y (Np.zeros (Z.to_nat (snd (shape (VStackOp ops)))))) as (v & Hv & Lv & Dv).
    + exact Hy.
    + rewrite zeros_length. lia.
    + exists v. repeat split; auto.
      rewrite Dv, dot_zeros_r. lra.
Qed.

End OperatorAdjoint.

(* ===================================================================== *)
(** ** [RadonRotate]: the code against its description *)
(* ===================================================================== *)

Section RadonRotateStructure.

Local Open Scope R_scope.

Lemma meshgrid_ravel_fst (A : Type) (x y : list A) :
  Np.ravel (fst (Np.meshgrid_ij x y)) = map fst (list_prod x y).
Proof.
  unfold Np.ravel, Np.meshgrid_ij. simpl.
  induction x as [| a x IH]; simpl; [reflexivity |].
  rewrite map_app, map_map, IH. reflexivity.
Qed.

Lemma meshgrid_ravel_snd (A : Type) (x y : list A) :
  Np.ravel (snd (Np.meshgrid_ij x y)) = map snd (list_prod x y).
Proof.
  unfold Np.ravel, Np.meshgrid_ij. simpl.
  induction x as [| a x IH]; simpl; [reflexivity |].
  rewrite map_app, map_map, IH. simpl. now rewrite map_id.
Qed.

(** The array [XY] of the code holds the window, one row per coordinate. *)
Lemma RadonRotate_grid_window (dims : Z * Z) (inner : Z) :
  RadonRotate_grid dims inner
  = [map fst (window dims inner); map snd (window dims inner)].
Proof.
  destruct dims as [nx ny]. unfold RadonRotate_grid, window, Py.floordiv.
  set (x := map _ (Np.arange (nx - inner))).
  set (y := map _ (Np.arange (ny - inner))).
  pose proof (meshgrid_ravel_fst Z x y) as H1.
  pose proof (meshgrid_ravel_snd Z x y) as H2.
  destruct (Np.meshgrid_ij x y) as [X Y]. simpl in H1, H2.
  unfold Np.vstack. now rewrite H1, H2.
Qed.

Lemma rotate_row (a b c : R) (pts : list (Z * Z)) :
  map (fun e => e + c)
      (Np.add (Np.scale a (map IZR (map fst pts)))
              (Np.add (Np.scale b (map IZR (map snd pts)))
                      (Np.zeros (length pts))))
  = map (fun p => a * IZR (fst p) + b * IZR (snd p) + c) pts.
Proof.
  unfold Np.add, Np.scale, Np.zeros.
  induction pts as [| p pts IH]; simpl; [reflexivity |].
  rewrite IH. f_equal. lra.
Qed.

(** The array [XYrot] of the code holds the rotated window. *)
Lemma RadonRotate_XYrot_window (dims : Z * Z) (inner : Z) (theta : R) :
  RadonRotate_XYrot dims (RadonRotate_grid dims inner) theta
  = [map fst (rotated_window dims inner theta);
     map snd (rotated_window dims inner theta)].
Proof.
  rewrite RadonRotate_grid_window. unfold rotated_window.
  generalize (window dims inner) as pts. intros pts.
  destruct dims as [nx ny].
  unfold RadonRotate_XYrot, Np.matmul, Py.floordiv. simpl.
  rewrite !length_map, !rotate_row, !map_map.
  unfold rotated_point. simpl.
  f_equal. apply map_ext; intros p; lra.
Qed.

Lemma RadonRotate_SB_block (dims : Z * Z) (inner : Z) (theta_deg : R) :
  RadonRotate_SB dims inner
    (RadonRotate_XYrot dims (RadonRotate_grid dims inner) (Np.deg2rad theta_deg))
  = angle_block dims inner theta_deg.
Proof.
  rewrite RadonRotate_XYrot_window.
  destruct dims as [nx ny]. reflexivity.
Qed.

Lemma mapM_map (A B C : Type) (g : A -> B) (f : B -> result C) (xs : list A) :
  Py.mapM f (map g xs) = Py.mapM (fun a => f (g a)) xs.
Proof.
  induction xs as [| a xs IH]; simpl; [reflexivity |]. now rewrite IH.
Qed.

Lemma mapM_ext (A B : Type) (f g : A -> result B) (xs : list A) :
  (forall a, f a = g a) -> Py.mapM f xs = Py.mapM g xs.
Proof.
  intros H. induction xs as [| a xs IH]; simpl; [reflexivity |].
  now rewrite H, IH.
Qed.

(** [RadonRotate] builds the block of each angle, in the order of the
    angles, and hands the list to [VStack]. *)
Lemma RadonRotate_blocks (dims : Z * Z) (inner : Z) (thetas : list R) :
  RadonRotate dims inner thetas
  = (Rops <- Py.mapM (angle_block dims inner) thetas ;; VStack Rops).
Proof.
  unfold RadonRotate.
  rewrite (for_each_append R LinearOperator
             (fun theta =>
                RadonRotate_SB dims inner
                  (RadonRotate_XYrot dims (RadonRotate_grid dims inner) theta))).
  rewrite mapM_map.
  rewrite (mapM_ext _ _ _ (angle_block dims inner))
    by (intros a; apply RadonRotate_SB_block).
  destruct (Py.mapM _ thetas); reflexivity.
Qed.

End RadonRotateStructure.

(* ===================================================================== *)
(** ** [RadonRotate] returns an operator *)
(* ===================================================================== *)

Section RadonRotateReturns.

Local Open Scope R_scope.

Lemma NoDup_map_inj (A B : Type) (f : A -> B) (l : list A) :
  (forall a b, f a = f b -> a = b) -> NoDup l -> NoDup (map f l).
Proof.
  intros Hinj. induction 1 as [| a l Hin Hnd IH]; simpl; constructor; auto.
  rewrite in_map_iff. intros (b & Hb & Hbl). apply Hinj in Hb. now subst.
Qed.

Lemma NoDup_list_prod (A B : Type) (l : list A) (l' : list B) :
  NoDup l -> NoDup l' -> NoDup (list_prod l l').
Proof.
  intros Hl Hl'. induction Hl as [| a l Hin Hnd IH]; simpl; [constructor |].
  apply NoDup_app.
  - apply NoDup_map_inj; [| exact Hl']. intros b b' E. now inversion E.
  - exact IH.
  - intros [a' b] H1 H2. apply in_map_iff in H1. destruct H1 as (b' & E & _).
    inversion E; subst. apply in_prod_iff in H2. tauto.
Qed.

Lemma arange_NoDup (n : Z) : NoDup (Np.arange n).
Proof.
  unfold Np.arange. apply NoDup_map_inj; [| apply seq_NoDup].
  intros a b. apply Nat2Z.inj.
Qed.

Lemma arange_In (n k : Z) : In k (Np.arange n) <-> (0 <= k < n)%Z.
Proof.
  unfold Np.arange. rewrite in_map_iff. split.
  - intros (i & <- & Hi). apply in_seq in Hi. lia.
  - intros H. exists (Z.to_nat k). split; [lia |]. apply in_seq. lia.
Qed.

Lemma arange_length (n : Z) : length (Np.arange n) = Z.to_nat n.
Proof. unfold Np.arange. now rewrite length_map, length_seq. Qed.

Lemma window_NoDup (dims : Z * Z) (inner : Z) : NoDup (window dims inner).
Proof.
  destruct dims as [nx ny]. unfold window.
  apply NoDup_list_prod; (apply NoDup_map_inj; [intros a b; lia | apply arange_NoDup]).
Qed.

Lemma window_length (dims : Z * Z) (inner : Z) :
  length (window dims inner)
  = (Z.to_nat (fst dims - inner) * Z.to_nat (snd dims - inner))%nat.
Proof.
  destruct dims as [nx ny]. unfold window.
  now rewrite length_prod, !length_map, !arange_length.
Qed.

(** The coordinates of a window point, relative to the centre. *)
Lemma window_In (dims : Z * Z) (inner : Z) (p : Z * Z) :
  In p (window dims inner) ->
  (0 - fst dims / 2 + inner / 2 <= fst p
   <= fst dims - inner - 1 - fst dims / 2 + inner / 2)%Z /\
  (0 - snd dims / 2 + inner / 2 <= snd p
   <= snd dims - inner - 1 - snd dims / 2 + inner / 2)%Z.
Proof.
  destruct dims as [nx ny], p as [X Y]. unfold window. rewrite in_prod_iff.
  rewrite !in_map_iff. intros [(i & <- & Hi) (j & <- & Hj)].
  apply arange_In in Hi, Hj. simpl. lia.
Qed.

(** A rotation sends different points to different points. *)
Lemma rotated_point_inj (dims : Z * Z) (theta : R) (p q : Z * Z) :
  rotated_point dims theta p = rotated_point dims theta q -> p = q.
Proof.
  destruct p as [X Y], q as [X' Y']. unfold rotated_point. simpl.
  intros E. inversion E as [[E1 E2]]. clear E.
  pose proof (sin2_cos2 theta) as T. unfold Rsqr in T.
  set (c := cos theta) in *. set (s := sin theta) in *.
  assert (D1 : c * (IZR X - IZR X') - s * (IZR Y - IZR Y') = 0) by lra.
  assert (D2 : s * (IZR X - IZR X') + c * (IZR Y - IZR Y') = 0) by lra.
  assert (HX : IZR X - IZR X' = 0).
  { replace (IZR X - IZR X')
      with ((s * s + c * c) * (IZR X - IZR X')) by (rewrite T; ring).
    replace ((s * s + c * c) * (IZR X - IZR X'))
      with (c * (c * (IZR X - IZR X') - s * (IZR Y - IZR Y'))
            + s * (s * (IZR X - IZR X') + c * (IZR Y - IZR Y'))) by ring.
    rewrite D1, D2. ring. }
  assert (HY : IZR Y - IZR Y' = 0).
  { replace (IZR Y - IZR Y')
      with ((s * s + c * c) * (IZR Y - IZR Y')) by (rewrite T; ring).
    replace ((s * s + c * c) * (IZR Y - IZR Y'))
      with (c * (s * (IZR X - IZR X') + c * (IZR Y - IZR Y'))
            - s * (c * (IZR X - IZR X') - s * (IZR Y - IZR Y'))) by ring.
    rewrite D1, D2. ring. }
  f_equal; apply eq_IZR; lra.
Qed.

Lemma rotated_window_NoDup (dims : Z * Z) (inner : Z) (theta : R) :
  NoDup (rotated_window dims inner theta).
Proof.
  unfold rotated_window. apply NoDup_map_inj; [| apply window_NoDup].
  intros p q. apply rotated_point_inj.
Qed.

Lemma same_point_true (p q : R * R) : same_point p q = true <-> p = q.
Proof.
  destruct p as [a b], q as [a' b']. unfold same_point. simpl.
  destruct (Req_dec_T a a'); [destruct (Req_dec_T b b') |]; split;
    intros H; try discriminate; try reflexivity; subst; try congruence.
Qed.

Lemma has_repeats_NoDup (pts : list (R * R)) :
  NoDup pts -> has_repeats pts = false.
Proof.
  induction 1 as [| p pts Hin Hnd IH]; simpl; [reflexivity |].
  rewrite IH, orb_false_r.
  destruct (existsb (same_point p) pts) eqn:E; [| reflexivity].
  apply existsb_exists in E. destruct E as (q & Hq & Hpq).
  apply same_point_true in Hpq. subst q. contradiction.
Qed.

Lemma combine_fst_snd (A B : Type) (l : list (A * B)) :
  combine (map fst l) (map snd l) = l.
Proof. induction l as [| [a b] l IH]; simpl; [| rewrite IH]; reflexivity. Qed.

Lemma sub_floor (pts : list (R * R)) (f : R * R -> R) :
  Np.sub (map f pts) (map IZR (map Np.floor (map f pts)))
  = map (fun p => (f p - IZR (Np.floor (f p)))%R) pts.
Proof.
  unfold Np.sub. induction pts as [| p pts IH]; simpl; [reflexivity |].
  now rewrite IH.
Qed.

(** The operator that [Bilinear] builds from a list of points. *)
Lemma Bilinear_points (pts : list (R * R)) (dims : Z * Z) :
  NoDup pts ->
  Bilinear [map fst pts; map snd pts] dims
  = Ok (BilinearOp dims
          (map (fun p => Np.floor (fst p)) pts)
          (map (fun p => (Np.floor (fst p) + 1)%Z) pts)
          (map (fun p => (fst p - IZR (Np.floor (fst p)))%R) pts)
          (map (fun p => Np.floor (snd p)) pts)
          (map (fun p => (Np.floor (snd p) + 1)%Z) pts)
          (map (fun p => (snd p - IZR (Np.floor (snd p)))%R) pts)).
Proof.
  intros Hnd. unfold Bilinear. simpl nth.
  rewrite combine_fst_snd, (has_repeats_NoDup pts Hnd).
  rewrite (sub_floor pts fst), (sub_floor pts snd), !map_map. reflexivity.
Qed.

(** The block of one angle, when the window is not larger than the image. *)
Lemma angle_block_Ok (nx ny inner : Z) (theta_deg : R) :
  (inner <= nx)%Z -> (inner <= ny)%Z ->
  exists it ib wtb il ir wlr,
    let S := SumOp ((nx - inner)%Z, (ny - inner)%Z) 0 in
    let B := BilinearOp (nx, ny) it ib wtb il ir wlr in
    let pts := rotated_window (nx, ny) inner (Np.deg2rad theta_deg) in
    angle_block (nx, ny) inner theta_deg = Ok (ProductOp S B) /\
    Sum ((nx - inner)%Z, (ny - inner)%Z) 0 = Ok S /\
    Bilinear [map fst pts; map snd pts] (nx, ny) = Ok B /\
    it = map (fun p => Np.floor (fst p)) pts /\
    ib = map (fun p => (Np.floor (fst p) + 1)%Z) pts /\
    il = map (fun p => Np.floor (snd p)) pts /\
    ir = map (fun p => (Np.floor (snd p) + 1)%Z) pts /\
    well_formed (ProductOp S B) /\
    shape (ProductOp S B) = ((ny - inner)%Z, (nx * ny)%Z) /\
    wtb = map (fun p => (fst p - IZR (Np.floor (fst p)))%R) pts /\
    wlr = map (fun p => (snd p - IZR (Np.floor (snd p)))%R) pts.
Proof.
  intros Hx Hy.
  set (pts := rotated_window (nx, ny) inner (Np.deg2rad theta_deg)).
  pose proof (Bilinear_points pts (nx, ny) (rotated_window_NoDup _ _ _)) as HB.
  do 6 eexists. cbv zeta. fold pts.
  assert (Lpts : length pts = (Z.to_nat (nx - inner) * Z.to_nat (ny - inner))%nat).
  { unfold pts, rotated_window. now rewrite length_map, window_length. }
  split; [| split; [reflexivity | split; [exact HB |]]].
  - unfold angle_block. cbv zeta. simpl fst; simpl snd. fold pts.
    change (Sum ((nx - inner)%Z, (ny - inner)%Z) 0)
      with (Ok (SumOp ((nx - inner)%Z, (ny - inner)%Z) 0)).
    simpl Py.bind. rewrite HB. simpl Py.bind.
    unfold Product. simpl shape. simpl fst; simpl snd.
    rewrite length_map, Lpts.
    destruct (Z.eqb_spec ((nx - inner) * (ny - inner))
                (Z.of_nat (Z.to_nat (nx - inner) * Z.to_nat (ny - inner))));
      [reflexivity | nia].
  - repeat split; try reflexivity; simpl; now rewrite !length_map.
Qed.

End RadonRotateReturns.

Section RadonRotateResult.

Local Open Scope Z_scope.

Lemma angle_block_Ok_inv (dims : Z * Z) (inner : Z) (theta_deg : R) (o : LinearOperator) :
  angle_block dims inner theta_deg = Ok o ->
  exists S B,
    o = ProductOp S B /\
    Sum (fst dims - inner, snd dims - inner) 0 = Ok S /\
    Bilinear [map fst (rotated_window dims inner (Np.deg2rad theta_deg));
              map snd (rotated_window dims inner (Np.deg2rad theta_deg))] dims = Ok B /\
    well_formed o /\
    shape o = (snd dims - inner, fst dims * snd dims).
Proof.
  unfold angle_block. cbv zeta. intros H.
  bind_inv H. rename a into S. bind_inv H. rename a into B.
  unfold Product in H.
  destruct (snd (shape S) =? fst (shape B)) eqn:E; [| discriminate].
  inversion H; subst o; clear H.
  exists S, B. repeat split; auto.
  - inversion Ha; subst S. exact I.
  - rewrite (Bilinear_points (rotated_window dims inner (Np.deg2rad theta_deg)) dims
               (rotated_window_NoDup _ _ _)) in Ha0.
    inversion Ha0; subst B. simpl. rewrite !length_map. repeat split; auto.
  - inversion Ha; subst S.
    unfold Bilinear in Ha0.
    destruct (has_repeats _); [discriminate |]. inversion Ha0; subst B.
    reflexivity.
Qed.

Lemma RadonRotate_Ok_inv (dims : Z * Z) (inner : Z) (thetas : list R)
      (Radop : LinearOperator) :
  RadonRotate dims inner thetas = Ok Radop ->
  exists Rops,
    Py.mapM (angle_block dims inner) thetas = Ok Rops /\
    Radop = VStackOp Rops /\ thetas <> [] /\
    length Rops = length thetas /\
    Forall (fun o => well_formed o /\
                     shape o = (snd dims - inner, fst dims * snd dims)) Rops.
Proof.
  rewrite RadonRotate_blocks. intros H. bind_inv H. rename a into Rops.
  exists Rops.
  assert (L : length Rops = length thetas) by (eapply mapM_length; eauto).
  assert (F : Forall (fun o => well_formed o /\
                     shape o = (snd dims - inner, fst dims * snd dims)) Rops).
  { apply mapM_Forall2 in Ha. clear H L.
    induction Ha as [| t o ts os Hto _ IH]; constructor; auto.
    destruct (angle_block_Ok_inv _ _ _ _ Hto) as (S & B & _ & _ & _ & W & Sh).
    now split. }
  unfold VStack in H. destruct Rops as [| o rest]; [discriminate |].
  destruct (forallb _ rest); [| discriminate]. inversion H.
  repeat split; auto.
  intros ->. simpl in L. discriminate.
Qed.

Lemma mapM_total (A B : Type) (f : A -> result B) (xs : list A) :
  Forall (fun a => exists b, f a = Ok b) xs -> exists ys, Py.mapM f xs = Ok ys.
Proof.
  induction 1 as [| a xs [b Hb] _ [ys IH]]; simpl.
  - now exists [].
  - exists (b :: ys). now rewrite Hb, IH.
Qed.

Lemma RadonRotate_Ok (nx ny inner : Z) (thetas : list R) :
  thetas <> [] -> inner <= nx -> inner <= ny ->
  exists Radop, RadonRotate (nx, ny) inner thetas = Ok Radop.
Proof.
  intros Hne Hx Hy. rewrite RadonRotate_blocks.
  destruct (mapM_total _ _ (angle_block (nx, ny) inner) thetas) as [Rops HR].
  { apply Forall_forall. intros t _.
    destruct (angle_block_Ok nx ny inner t Hx Hy)
      as (it & ib & wtb & il & ir & wlr & H & _).
    eexists. exact H. }
  rewrite HR. simpl Py.bind.
  assert (F : Forall (fun o => shape o = (ny - inner, nx * ny)) Rops).
  { apply mapM_Forall2 in HR. clear Hne.
    induction HR as [| t o ts os Hto _ IH]; constructor; auto.
    destruct (angle_block_Ok_inv _ _ _ _ Hto) as (S & B & _ & _ & _ & _ & Sh).
    exact Sh. }
  unfold VStack. destruct Rops as [| o rest].
  - apply mapM_length in HR. destruct thetas; [congruence | discriminate].
  - inversion F as [| ? ? Ho Hrest]; subst.
    assert (E : forallb (fun o' => snd (shape o') =? snd (shape o)) rest = true).
    { apply forallb_forall. intros o' Ho'.
      rewrite Forall_forall in Hrest. rewrite (Hrest o' Ho'), Ho. simpl.
      apply Z.eqb_refl. }
    rewrite E. eexists. reflexivity.
Qed.

Lemma rows_total_blocks (r : Z) (c : Z) (Rops : list LinearOperator) :
  Forall (fun o => shape o = (r, c)) Rops ->
  rows_total Rops = Z.of_nat (length Rops) * r.
Proof.
  unfold rows_total. induction 1 as [| o ops Ho _ IH].
  - reflexivity.
  - cbn [map fold_right length]. rewrite IH, Ho. simpl fst. lia.
Qed.

Lemma RadonRotate_shape (dims : Z * Z) (inner : Z) (thetas : list R)
      (Radop : LinearOperator) :
  RadonRotate dims inner thetas = Ok Radop ->
  shape Radop = (Z.of_nat (length thetas) * (snd dims - inner), fst dims * snd dims).
Proof.
  intros H. apply RadonRotate_Ok_inv in H.
  destruct H as (Rops & _ & -> & Hne & L & F).
  assert (F' : Forall (fun o => shape o = (snd dims - inner, fst dims * snd dims)) Rops).
  { eapply Forall_impl; [| exact F]. intros o [_ Ho]. exact Ho. }
  change (shape (VStackOp Rops))
    with (rows_total Rops, match Rops with [] => 0 | o :: _ => snd (shape o) end).
  rewrite (rows_total_blocks _ _ _ F'), L. f_equal.
  destruct Rops as [| o rest].
  - destruct thetas; [congruence | discriminate].
  - inversion F' as [| ? ? Ho _]. now rewrite Ho.
Qed.

Lemma RadonRotate_well_formed (dims : Z * Z) (inner : Z) (thetas : list R)
      (Radop : LinearOperator) :
  RadonRotate dims inner thetas = Ok Radop -> well_formed Radop.
Proof.
  intros H. apply RadonRotate_Ok_inv in H.
  destruct H as (Rops & _ & -> & _ & _ & F). simpl.
  induction F as [| o ops [Ho _] _ IH]; simpl; auto.
Qed.

Lemma mapM_Raise_inv (A B : Type) (f : A -> result B) (xs : list A) (e : exn) :
  Py.mapM f xs = Raise e -> exists a, In a xs /\ f a = Raise e.
Proof.
  induction xs as [| a xs IH]; simpl; [discriminate |].
  destruct (f a) as [b | e'] eqn:Ea; simpl.
  - destruct (Py.mapM f xs) as [bs | e'']; simpl; [discriminate |].
    intros H. inversion H; subst. destruct IH as (a' & Ha' & Hf); auto.
    exists a'. auto.
  - intros H. inversion H; subst. exists a. auto.
Qed.

(** [RadonRotate] raises nothing of its own: an exception that leaves it
    was raised by [Bilinear] or by the product for one of the angles, or by
    [VStack] for the list of blocks. *)
Lemma RadonRotate_raises_from_library (dims : Z * Z) (inner : Z) (thetas : list R)
      (e : exn) :
  RadonRotate dims inner thetas = Raise e ->
  (exists theta, In theta thetas /\ angle_block dims inner theta = Raise e /\
     (Bilinear [map fst (rotated_window dims inner (Np.deg2rad theta));
                map snd (rotated_window dims inner (Np.deg2rad theta))] dims = Raise e
      \/ exists S B, Product S B = Raise e)) \/
  (exists Rops, Py.mapM (angle_block dims inner) thetas = Ok Rops /\
                VStack Rops = Raise e).
Proof.
  rewrite RadonRotate_blocks.
  destruct (Py.mapM (angle_block dims inner) thetas) as [Rops | e'] eqn:E; simpl.
  - intros H. right. exists Rops. auto.
  - intros H. inversion H; subst e'. left.
    apply mapM_Raise_inv in E. destruct E as (theta & Hin & Hb).
    exists theta. split; [exact Hin |]. split; [exact Hb |].
    unfold angle_block in Hb. cbv zeta in Hb.
    change (Sum ((fst dims - inner)%Z, (snd dims - inner)%Z) 0)
      with (Ok (SumOp ((fst dims - inner)%Z, (snd dims - inner)%Z) 0)) in Hb.
    simpl Py.bind in Hb.
    destruct (Bilinear _ dims) as [B | e'] eqn:EB; simpl in Hb.
    + right. eexists. eexists. exact Hb.
    + left. exact Hb.
Qed.

End RadonRotateResult.

(* ===================================================================== *)
(** ** The rotated window stays inside the image *)
(* ===================================================================== *)

Section InBounds.

Lemma square_le_max (lo hi v : Z) :
  (lo <= v <= hi)%Z -> (v * v <= Z.max (lo * lo) (hi * hi))%Z.
Proof.
  intros H. destruct (Z.le_gt_cases 0 v) as [Hv | Hv].
  - apply Z.le_trans with (hi * hi)%Z; [nia | apply Z.le_max_r].
  - apply Z.le_trans with (lo * lo)%Z; [nia | apply Z.le_max_l].
Qed.

Lemma window_within_radius (dims : Z * Z) (inner : Z) (p : Z * Z) :
  In p (window dims inner) ->
  (fst p * fst p + snd p * snd p <= window_radius2 dims inner)%Z.
Proof.
  intros H. apply window_In in H. destruct H as [HX HY].
  destruct dims as [nx ny]. unfold window_radius2. cbn [fst snd] in *.
  pose proof (square_le_max _ _ _ HX) as H1.
  pose proof (square_le_max _ _ _ HY) as H2.
  apply Z.add_le_mono; assumption.
Qed.

Lemma sqrt_up_square (a : Z) : (a <= Z.sqrt_up a * Z.sqrt_up a)%Z.
Proof.
  destruct (Z.lt_ge_cases 0 a) as [H | H].
  - pose proof (Z.sqrt_up_spec a H). nia.
  - rewrite Z.sqrt_up_eqn0 by lia. lia.
Qed.

Lemma square_le_bound (a r : R) :
  (0 <= r)%R -> (a * a <= r * r)%R -> (- r <= a <= r)%R.
Proof.
  intros Hr H. split; apply Rnot_lt_le; intros Hc.
  - assert (0 < (- r - a) * (- a + r))%R by (apply Rmult_lt_0_compat; lra). nra.
  - assert (0 < (a - r) * (a + r))%R by (apply Rmult_lt_0_compat; lra). nra.
Qed.

(** A rotation does not move a point away from the centre. *)
Lemma rotation_within (theta : R) (X Y d : Z) :
  (X * X + Y * Y <= d * d)%Z -> (0 <= d)%Z ->
  (- IZR d <= cos theta * IZR X - sin theta * IZR Y <= IZR d)%R /\
  (- IZR d <= sin theta * IZR X + cos theta * IZR Y <= IZR d)%R.
Proof.
  intros H Hd.
  apply IZR_le in H. rewrite plus_IZR, !mult_IZR in H.
  apply IZR_le in Hd.
  pose proof (sin2_cos2 theta) as T. unfold Rsqr in T.
  set (c := cos theta) in *. set (s := sin theta) in *.
  set (x := IZR X) in *. set (y := IZR Y) in *. set (r := IZR d) in *.
  assert (E : ((c * x - s * y) * (c * x - s * y)
               + (s * x + c * y) * (s * x + c * y) = x * x + y * y)%R).
  { replace (x * x + y * y)%R with ((s * s + c * c) * (x * x + y * y))%R
      by (rewrite T; ring). ring. }
  split; apply square_le_bound; try assumption.
  - pose proof (Rle_0_sqr (s * x + c * y)) as Q. unfold Rsqr in Q. lra.
  - pose proof (Rle_0_sqr (c * x - s * y)) as Q. unfold Rsqr in Q. lra.
Qed.

Lemma rotation_safe_inside (nx ny inner : Z) (theta : R) :
  rotation_safe (nx, ny) inner = true ->
  Forall (inside (nx, ny)) (rotated_window (nx, ny) inner theta).
Proof.
  unfold rotation_safe. set (d := Z.sqrt_up (window_radius2 (nx, ny) inner)).
  intros H. rewrite !andb_true_iff in H.
  destruct H as [[[[[_ _] H1] H2] H3] H4].
  apply Z.leb_le in H1, H3. apply Z.ltb_lt in H2, H4.
  apply Forall_forall. intros q Hq. unfold rotated_window in Hq.
  apply in_map_iff in Hq. destruct Hq as (p & <- & Hp).
  pose proof (window_within_radius _ _ _ Hp) as Hr.
  pose proof (sqrt_up_square (window_radius2 (nx, ny) inner)) as Hs. fold d in Hs.
  assert (Hd : (0 <= d)%Z) by apply Z.sqrt_up_nonneg.
  destruct (rotation_within theta (fst p) (snd p) d) as [Ha Hb]; [lia | lia |].
  unfold inside, rotated_point. simpl fst; simpl snd.
  apply IZR_le in H1, H3. apply IZR_lt in H2, H4.
  rewrite !minus_IZR in H2, H4. rewrite minus_IZR.
  rewrite (minus_IZR ny 1).
  split; split; lra.
Qed.

Lemma inside_rows (dims : Z * Z) (p : R * R) :
  inside dims p ->
  (0 <= Np.floor (fst p) /\ Np.floor (fst p) + 1 < fst dims)%Z /\
  (0 <= Np.floor (snd p) /\ Np.floor (snd p) + 1 < snd dims)%Z.
Proof.
  unfold inside, Np.floor. intros [[H1 H2] [H3 H4]].
  pose proof (Zfloor_bound (fst p)) as B1.
  pose proof (Zfloor_bound (snd p)) as B2.
  repeat split.
  - apply Zfloor_lub. simpl. lra.
  - assert (IZR (Zfloor (fst p)) < IZR (fst dims - 1))%R by lra.
    apply lt_IZR in H. lia.
  - apply Zfloor_lub. simpl. lra.
  - assert (IZR (Zfloor (snd p)) < IZR (snd dims - 1))%R by lra.
    apply lt_IZR in H. lia.
Qed.

Lemma index_Ok (n i : Z) : (0 <= i < n)%Z -> Np.index n i = Ok i.
Proof.
  intros H. unfold Np.index.
  destruct (Z.leb_spec 0 i); [| lia]. destruct (Z.ltb_spec i n); [| lia].
  reflexivity.
Qed.

Lemma take2_inside (x : list R) (dims : Z * Z) (pts : list (R * R))
      (f g : R * R -> Z) :
  (forall p, In p pts -> (0 <= f p < fst dims)%Z /\ (0 <= g p < snd dims)%Z) ->
  exists t, Np.take2 x dims (map f pts) (map g pts) = Ok t.
Proof.
  intros H. unfold Np.take2.
  destruct (mapM_total _ _ (Np.flat_index dims) (combine (map f pts) (map g pts)))
    as [ks Hks].
  - apply Forall_forall. intros [i j] Hij.
    assert (exists p, In p pts /\ i = f p /\ j = g p) as (p & Hp & -> & ->).
    { clear H. induction pts as [| p pts IH]; simpl in Hij; [contradiction |].
      destruct Hij as [E | Hij].
      - inversion E. exists p. simpl. auto.
      - destruct (IH Hij) as (q & Hq & E1 & E2). exists q. simpl. auto. }
    destruct (H p Hp) as [Hf Hg]. unfold Np.flat_index. simpl fst; simpl snd.
    rewrite (index_Ok _ _ Hf), (index_Ok _ _ Hg). simpl. eexists. reflexivity.
  - rewrite Hks. simpl. eexists. reflexivity.
Qed.

(** The forward of [Bilinear] returns when every point is inside. *)
Lemma Bilinear_matvec_inside (nx ny : Z) (pts : list (R * R)) (wtb wlr x : list R) :
  Forall (inside (nx, ny)) pts ->
  (0 <= nx)%Z -> (0 <= ny)%Z -> Z.of_nat (length x) = (nx * ny)%Z ->
  exists u,
    Bilinear_matvec (nx, ny)
      (map (fun p => Np.floor (fst p)) pts)
      (map (fun p => (Np.floor (fst p) + 1)%Z) pts) wtb
      (map (fun p => Np.floor (snd p)) pts)
      (map (fun p => (Np.floor (snd p) + 1)%Z) pts) wlr x = Ok u.
Proof.
  intros Hin Hnx Hny Hx. unfold Bilinear_matvec.
  assert (Hr : exists a, Np.reshape2 x (nx, ny) = Ok a).
  { unfold Np.reshape2.
    destruct (Z.leb_spec 0 nx); [| lia]. destruct (Z.leb_spec 0 ny); [| lia].
    destruct (Z.eqb_spec (Z.of_nat (length x)) (nx * ny)); [| lia].
    simpl. eexists. reflexivity. }
  destruct Hr as [a ->]. simpl Py.bind.
  rewrite Forall_forall in Hin.
  assert (Hp : forall p, In p pts ->
             (0 <= Np.floor (fst p) /\ Np.floor (fst p) + 1 < nx)%Z /\
             (0 <= Np.floor (snd p) /\ Np.floor (snd p) + 1 < ny)%Z).
  { intros p Hp. apply (inside_rows (nx, ny) p). now apply Hin. }
  destruct (take2_inside x (nx, ny) pts
              (fun p => Np.floor (fst p)) (fun p => Np.floor (snd p))) as [t1 ->].
  { intros p H. destruct (Hp p H). simpl. lia. }
  destruct (take2_inside x (nx, ny) pts
              (fun p => Np.floor (fst p)) (fun p => (Np.floor (snd p) + 1)%Z)) as [t2 ->].
  { intros p H. destruct (Hp p H). simpl. lia. }
  destruct (take2_inside x (nx, ny) pts
              (fun p => (Np.floor (fst p) + 1)%Z) (fun p => Np.floor (snd p))) as [t3 ->].
  { intros p H. destruct (Hp p H). simpl. lia. }
  destruct (take2_inside x (nx, ny) pts
              (fun p => (Np.floor (fst p) + 1)%Z) (fun p => (Np.floor (snd p) + 1)%Z))
    as [t4 ->].
  { intros p H. destruct (Hp p H). simpl. lia. }
  simpl. eexists. reflexivity.
Qed.

End InBounds.

(* ===================================================================== *)
(** ** The forward of the projection operator returns *)
(* ===================================================================== *)

Section ForwardReturns.

Local Open Scope Z_scope.

Lemma rotation_safe_dims (nx ny inner : Z) :
  rotation_safe (nx, ny) inner = true ->
  inner <= nx /\ inner <= ny /\ 0 <= nx /\ 0 <= ny.
Proof.
  unfold rotation_safe. set (d := Z.sqrt_up (window_radius2 (nx, ny) inner)).
  intros H. rewrite !andb_true_iff in H.
  destruct H as [[[[[H0 H0'] H1] H2] H3] H4].
  apply Z.leb_le in H0, H0', H1, H3.
  assert (Hd : 0 <= d) by apply Z.sqrt_up_nonneg.
  assert (0 <= nx / 2) by lia. assert (0 <= ny / 2) by lia.
  repeat split; try assumption.
  - destruct (Z.lt_ge_cases nx 0); [| assumption].
    assert (nx / 2 < 0) by (apply Z.div_lt_upper_bound; lia). lia.
  - destruct (Z.lt_ge_cases ny 0); [| assumption].
    assert (ny / 2 < 0) by (apply Z.div_lt_upper_bound; lia). lia.
Qed.

Lemma block_forward_returns (nx ny inner : Z) (theta_deg : R)
      (o : LinearOperator) (x : list R) :
  rotation_safe (nx, ny) inner = true ->
  angle_block (nx, ny) inner theta_deg = Ok o ->
  Z.of_nat (length x) = nx * ny ->
  exists u, matvec o x = Ok u.
Proof.
  intros Hsafe Ho Hx.
  destruct (rotation_safe_dims _ _ _ Hsafe) as (Hix & Hiy & Hnx & Hny).
  destruct (angle_block_Ok nx ny inner theta_deg Hix Hiy)
    as (it & ib & wtb & il & ir & wlr & Hb & _ & _ & Hit & Hib & Hil & Hir & Hwf & Hsh).
  cbv zeta in Hb, Hwf, Hsh. rewrite Hb in Ho. inversion Ho; subst o; clear Ho.
  set (pts := rotated_window (nx, ny) inner (Np.deg2rad theta_deg)) in *.
  assert (Hin : Forall (inside (nx, ny)) pts) by (apply rotation_safe_inside; exact Hsafe).
  destruct (Bilinear_matvec_inside nx ny pts wtb wlr x Hin Hnx Hny Hx) as [w Hw].
  rewrite <- Hit, <- Hib, <- Hil, <- Hir in Hw.
  assert (HB : matvec (BilinearOp (nx, ny) it ib wtb il ir wlr) x = Ok w).
  { rewrite matvec_checked by exact Hx. exact Hw. }
  destruct Hwf as [_ HwfB].
  destruct (operator_adjoint _ HwfB x w HB) as (Lw & _ & _).
  simpl shape in Lw. simpl fst in Lw.
  assert (Lil : length il = (Z.to_nat (nx - inner) * Z.to_nat (ny - inner))%nat).
  { subst il. rewrite length_map. unfold pts, rotated_window.
    now rewrite length_map, window_length. }
  rewrite matvec_checked by exact Hx. rewrite HB. simpl Py.bind.
  assert (Lw' : Z.of_nat (length w) = (nx - inner) * (ny - inner)) by nia.
  rewrite (proj2 (Z.eqb_eq _ _) Lw'). simpl negb. cbv iota.
  unfold Sum_matvec, Np.reshape2.
  destruct (Z.leb_spec 0 (nx - inner)); [| lia].
  destruct (Z.leb_spec 0 (ny - inner)); [| lia].
  destruct (Z.eqb_spec (Z.of_nat (length w)) ((nx - inner) * (ny - inner)));
    [| contradiction].
  simpl. eexists. reflexivity.
Qed.

Lemma VStack_forward_returns (ops : list LinearOperator) (x : list R) :
  Forall (fun o => exists u, matvec o x = Ok u) ops ->
  exists u, VStack_matvec matvec ops x = Ok u.
Proof.
  induction 1 as [| o ops [u1 H1] _ [us IH]]; simpl.
  - eexists. reflexivity.
  - rewrite H1, IH. simpl. eexists. reflexivity.
Qed.

Lemma RadonRotate_forward_returns (nx ny inner : Z) (thetas : list R)
      (Radop : LinearOperator) (x : list R) :
  rotation_safe (nx, ny) inner = true ->
  RadonRotate (nx, ny) inner thetas = Ok Radop ->
  Z.of_nat (length x) = nx * ny ->
  exists u, matvec Radop x = Ok u.
Proof.
  intros Hsafe H Hx.
  pose proof (RadonRotate_shape _ _ _ _ H) as Hsh.
  apply RadonRotate_Ok_inv in H. destruct H as (Rops & HR & -> & _ & _ & _).
  rewrite matvec_checked by (rewrite Hsh; exact Hx).
  apply VStack_forward_returns.
  apply mapM_Forall2 in HR. clear Hsh.
  induction HR as [| t o ts os Hto _ IH]; constructor; auto.
  eapply block_forward_returns; eauto.
Qed.

End ForwardReturns.

Section NotebookParameters.

Lemma rows_of_Forall (M N : nat) (x : list R) :
  length x = (M * N)%nat ->
  Forall (fun r => length r = N) (Np.rows_of M N x).
Proof.
  revert x. induction M as [| M IH]; intros x Hx; simpl; constructor.
  - rewrite length_firstn. lia.
  - apply IH. rewrite length_skipn. lia.
Qed.

Lemma rotation_keeps_radius (theta x y : R) :
  ((cos theta * x - sin theta * y) * (cos theta * x - sin theta * y)
   + (sin theta * x + cos theta * y) * (sin theta * x + cos theta * y)
   = x * x + y * y)%R.
Proof.
  pose proof (sin2_cos2 theta) as T. unfold Rsqr in T.
  replace (x * x + y * y)%R
    with ((sin theta * sin theta + cos theta * cos theta) * (x * x + y * y))%R
    by (rewrite T; ring).
  ring.
Qed.

Lemma notebook_rotation_safe :
  rotation_safe (Notebook.nx, Notebook.ny) Notebook.inner = true.
Proof. vm_compute. reflexivity. Qed.

Lemma notebook_window_radius2 :
  window_radius2 (Notebook.nx, Notebook.ny) Notebook.inner = 20000%Z.
Proof. vm_compute. reflexivity. Qed.

Lemma notebook_window_length (theta : R) :
  Z.of_nat (length (rotated_window (Notebook.nx, Notebook.ny) Notebook.inner theta))
  = 40000%Z.
Proof.
  unfold rotated_window. rewrite length_map, window_length.
  rewrite Nat2Z.inj_mul, !Z2Nat.id by (vm_compute; discriminate).
  vm_compute. reflexivity.
Qed.

Lemma Forall_map_iff (A B : Type) (P : B -> Prop) (f : A -> B) (l : list A) :
  Forall P (map f l) <-> Forall (fun a => P (f a)) l.
Proof.
  induction l as [| a l IH]; simpl; split; intros H;
    try constructor; inversion H; subst; try tauto.
Qed.

End NotebookParameters.

(* ===================================================================== *)
(** ** A small run of [RadonRotate] *)
(* ===================================================================== *)

Section RadonRotateRun.

Local Open Scope R_scope.

Lemma floor_IZR_eq (v : R) (z : Z) : v = IZR z -> Np.floor v = z.
Proof. intros ->. apply ZfloorZ. Qed.

(** On a 4 by 4 image with [inner = 2] and the single angle 0, the window
    is the middle 2 by 2 block, no interpolation takes place, and the
    projection sums that block over its rows. *)
Example RadonRotate_run :
  exists Radop,
    RadonRotate (4, 4)%Z 2 [0] = Ok Radop /\
    shape Radop = (2, 16)%Z /\
    forall x00 x01 x02 x03 x10 x11 x12 x13 x20 x21 x22 x23 x30 x31 x32 x33 : R,
      matvec Radop [x00; x01; x02; x03; x10; x11; x12; x13;
                    x20; x21; x22; x23; x30; x31; x32; x33]
      = Ok [x11 + x21; x12 + x22].
Proof.
  rewrite RadonRotate_blocks. simpl Py.mapM.
  destruct (angle_block_Ok 4 4 2 0) as
      (it & ib & wtb & il & ir & wlr & Hb & _ & _ & Hit & Hib & Hil & Hir & _ & _ & Hwtb & Hwlr);
    [lia | lia |].
  cbv zeta in Hb. rewrite Hb. simpl Py.bind.
  assert (Hpts : rotated_window (4, 4)%Z 2 (Np.deg2rad 0)
                 = [(1, 1); (1, 2); (2, 1); (2, 2)]).
  { unfold rotated_window, rotated_point, Np.deg2rad.
    rewrite Rmult_0_l, cos_0, sin_0.
    change (window (4, 4)%Z 2) with [(-1, -1); (-1, 0); (0, -1); (0, 0)]%Z.
    simpl map.
    replace (IZR (4 / 2)) with 2 by reflexivity.
    repeat (apply f_equal2; [apply f_equal2; lra |]). reflexivity. }
  rewrite Hpts in Hit, Hib, Hil, Hir, Hwtb, Hwlr.
  simpl map in Hit, Hib, Hil, Hir, Hwtb, Hwlr.
  rewrite !(floor_IZR_eq 1 1 eq_refl), !(floor_IZR_eq 2 2 eq_refl)
    in Hit, Hib, Hil, Hir, Hwtb, Hwlr.
  simpl in Hit, Hib, Hil, Hir. subst it ib il ir wtb wlr.
  eexists. split; [reflexivity |]. split; [reflexivity |].
  intros. simpl. unfold Bilinear_matvec. simpl.
  unfold Np.take2. simpl. unfold Sum_matvec. simpl.
  unfold Np.sum_axis0, Np.add, Np.mul, Np.zeros, one_minus. simpl.
  apply f_equal. repeat (apply f_equal2; [lra |]). reflexivity.
Qed.

End RadonRotateRun.

(* ===================================================================== *)
(** ** The projection operator: main results *)
(* ===================================================================== *)

(** C1.  The operator returned by [RadonRotate] is a forward/adjoint pair:
    for an image vector [x] of length [nx * ny] and a data vector [y] of
    length [len(thetas) * (ny - inner)], whenever the forward returns [u]
    the adjoint returns some [v] with [<u, y> = <x, v>]; and when the
    rotated window keeps its margin inside the image both of them return,
    so that the identity holds for every such [x] and [y]. *)
Theorem RadonRotate_adjoint_pair
        (nx ny inner : Z) (thetas : list R) (Radop : LinearOperator) (x y : list R) :
  RadonRotate (nx, ny) inner thetas = Ok Radop ->
  Z.of_nat (length x) = (nx * ny)%Z ->
  Z.of_nat (length y) = (Z.of_nat (length thetas) * (ny - inner))%Z ->
  (forall u, matvec Radop x = Ok u ->
             exists v, rmatvec Radop y = Ok v /\ Np.dot u y = Np.dot x v) /\
  (rotation_safe (nx, ny) inner = true ->
   exists u v, matvec Radop x = Ok u /\ rmatvec Radop y = Ok v /\
               Np.dot u y = Np.dot x v).
Proof.
  intros H Hx Hy.
  pose proof (RadonRotate_well_formed _ _ _ _ H) as Hwf.
  pose proof (RadonRotate_shape _ _ _ _ H) as Hsh. simpl fst in Hsh; simpl snd in Hsh.
  assert (A : forall u, matvec Radop x = Ok u ->
                        exists v, rmatvec Radop y = Ok v /\ Np.dot u y = Np.dot x v).
  { intros u Hu.
    destruct (operator_adjoint Radop Hwf x u Hu) as (_ & _ & Hadj).
    destruct (Hadj y) as (v & Hv & _ & Hd).
    - rewrite Hsh. exact Hy.
    - exists v. split; assumption. }
  split; [exact A |].
  intros Hsafe.
  destruct (RadonRotate_forward_returns nx ny inner thetas Radop x Hsafe H Hx) as [u Hu].
  destruct (A u Hu) as (v & Hv & Hd).
  exists u, v. repeat split; assumption.
Qed.

Lemma RadonRotate_adjoint_pair_witness :
  exists Radop u v,
    RadonRotate (Notebook.nx, Notebook.ny) Notebook.inner (map IZR Notebook.thetas)
    = Ok Radop /\
    matvec Radop (repeat 1%R (Z.to_nat 90000)) = Ok u /\
    rmatvec Radop (repeat 1%R (Z.to_nat 12000)) = Ok v /\
    Np.dot u (repeat 1%R (Z.to_nat 12000)) = Np.dot (repeat 1%R (Z.to_nat 90000)) v.
Proof.
  destruct (RadonRotate_Ok Notebook.nx Notebook.ny Notebook.inner (map IZR Notebook.thetas))
    as [Radop H].
  - intros E. apply (f_equal (@length R)) in E. vm_compute in E. discriminate E.
  - vm_compute. discriminate.
  - vm_compute. discriminate.
  - destruct (RadonRotate_adjoint_pair
                Notebook.nx Notebook.ny Notebook.inner (map IZR Notebook.thetas) Radop
                (repeat 1%R (Z.to_nat 90000)) (repeat 1%R (Z.to_nat 12000)) H)
      as [_ T].
    + rewrite repeat_length. vm_compute. reflexivity.
    + rewrite repeat_length, length_map. vm_compute. reflexivity.
    + destruct (T notebook_rotation_safe) as (u & v & Hu & Hv & Hd).
      exists Radop, u, v. repeat split; assumption.
Defined.

(** C3, as amended.  For every [dims = (nx, ny)], every margin
    [inner < min(nx, ny)] and every list of [N >= 1] angles,
    [RadonRotate] returns the vertical stack of exactly [N] operators, one
    for each angle and in the order of the angles.  The operator of the
    angle [theta], given in degrees, is the product [Sum * Bilinear], the
    [Sum] applied after the [Bilinear]: the [Bilinear] is built from the
    array [XYrot] of the code, whose two rows are the points of the window
    turned by [theta * pi / 180] radians with the standard rotation matrix
    and moved back by [(nx//2, ny//2)], and the [Sum] is the one of
    [dims=(nx-inner, ny-inner), dir=0]. *)
Theorem RadonRotate_stack_of_blocks (nx ny inner : Z) (thetas : list R) :
  thetas <> [] -> (inner < nx)%Z -> (inner < ny)%Z ->
  exists Rops,
    RadonRotate (nx, ny) inner thetas = Ok (VStackOp Rops) /\
    VStack Rops = Ok (VStackOp Rops) /\
    length Rops = length thetas /\
    Forall2
      (fun theta o =>
         let t := (theta * PI / 180)%R in
         let W := window (nx, ny) inner in
         let XYrot :=
           [map (fun p => (cos t * IZR (fst p) - sin t * IZR (snd p)
                           + IZR (nx / 2))%R) W;
            map (fun p => (sin t * IZR (fst p) + cos t * IZR (snd p)
                           + IZR (ny / 2))%R) W] in
         let S := SumOp ((nx - inner)%Z, (ny - inner)%Z) 0 in
         exists B,
           RadonRotate_grid (nx, ny) inner = [map fst W; map snd W] /\
           RadonRotate_XYrot (nx, ny) (RadonRotate_grid (nx, ny) inner) t = XYrot /\
           Sum ((nx - inner)%Z, (ny - inner)%Z) 0 = Ok S /\
           Bilinear XYrot (nx, ny) = Ok B /\
           Product S B = Ok o /\
           o = ProductOp S B /\
           forall x y, matvec B x = Ok y -> matvec o x = matvec S y)
      thetas Rops.
Proof.
  intros Hne Hx Hy. apply Z.lt_le_incl in Hx, Hy.
  destruct (RadonRotate_Ok nx ny inner thetas Hne Hx Hy) as (Radop & HR).
  destruct (RadonRotate_Ok_inv _ _ _ _ HR) as (Rops & HM & -> & _ & HL & _).
  exists Rops. split; [exact HR |]. split; [| split; [exact HL |]].
  - rewrite RadonRotate_blocks, HM in HR. exact HR.
  - apply mapM_Forall2 in HM. clear HR HL Hne.
    induction HM as [| theta o ts os Hto _ IH]; constructor; [| exact IH].
    cbv zeta.
    assert (Et : Np.deg2rad theta = (theta * PI / 180)%R)
      by (unfold Np.deg2rad, Rdiv; ring).
    destruct (angle_block_Ok nx ny inner theta Hx Hy)
      as (it & ib & wtb & il & ir & wlr & Hb & HS & HB & _).
    cbv zeta in Hb, HS, HB. rewrite Hto in Hb. injection Hb as ->.
    rewrite Et in HB.
    assert (EX : [map fst (rotated_window (nx, ny) inner (theta * PI / 180));
                  map snd (rotated_window (nx, ny) inner (theta * PI / 180))]
                 = [map (fun p => (cos (theta * PI / 180) * IZR (fst p)
                                   - sin (theta * PI / 180) * IZR (snd p)
                                   + IZR (nx / 2))%R) (window (nx, ny) inner);
                    map (fun p => (sin (theta * PI / 180) * IZR (fst p)
                                   + cos (theta * PI / 180) * IZR (snd p)
                                   + IZR (ny / 2))%R) (window (nx, ny) inner)]).
    { unfold rotated_window. rewrite !map_map. reflexivity. }
    rewrite EX in HB.
    exists (BilinearOp (nx, ny) it ib wtb il ir wlr).
    split; [apply RadonRotate_grid_window |].
    split; [rewrite RadonRotate_XYrot_window; exact EX |].
    split; [exact HS |]. split; [exact HB |].
    split; [| split; [reflexivity |]].
    + unfold angle_block in Hto. cbv zeta in Hto. cbn [fst snd] in Hto.
      rewrite HS, Et, EX, HB in Hto. exact Hto.
    + intros x y Hxy. pose proof (matvec_Ok_inv _ _ _ Hxy) as [Lx _].
      rewrite (matvec_checked (ProductOp _ _)) by exact Lx.
      now rewrite Hxy.
Qed.

Lemma RadonRotate_stack_of_blocks_witness :
  exists Rops,
    RadonRotate (4, 4)%Z 2 [0; 45]%R = Ok (VStackOp Rops) /\
    length Rops = 2%nat.
Proof.
  destruct (RadonRotate_stack_of_blocks 4 4 2 [0; 45]%R
              ltac:(discriminate) ltac:(lia) ltac:(lia))
    as (Rops & HR & _ & HL & _).
  exists Rops. split; [exact HR | exact HL].
Defined.

(** C3, as stated, speaks of every margin and every list of angles.  For
    an empty list of angles, and for a margin larger than the image,
    [RadonRotate] returns no operator: the call raises inside the
    library. *)
Lemma RadonRotate_not_built_for_every_input :
  RadonRotate (4, 4)%Z 2 [] = Raise (IndexError "list index out of range") /\
  RadonRotate (4, 4)%Z 6 [0%R]
  = Raise (ValueError "cannot multiply: shape mismatch").
Proof. split; reflexivity. Qed.

(** C4.  For [inner < min(nx, ny)] and [N] angles, the operator returned by
    [RadonRotate] has shape [(N * (ny - inner), nx * ny)]: it takes vectors
    of length [nx * ny] to vectors of length [N * (ny - inner)], which
    reshape to [(N, ny - inner)]; and it is returned when [N > 0]. *)
Theorem RadonRotate_operator_shape (nx ny inner : Z) (thetas : list R) :
  (inner < Z.min nx ny)%Z ->
  (thetas <> [] -> exists Radop, RadonRotate (nx, ny) inner thetas = Ok Radop) /\
  forall Radop,
    RadonRotate (nx, ny) inner thetas = Ok Radop ->
    shape Radop = ((Z.of_nat (length thetas) * (ny - inner))%Z, (nx * ny)%Z) /\
    forall x u,
      matvec Radop x = Ok u ->
      Z.of_nat (length x) = (nx * ny)%Z /\
      Z.of_nat (length u) = (Z.of_nat (length thetas) * (ny - inner))%Z /\
      exists rows,
        Np.reshape2 u (Z.of_nat (length thetas), (ny - inner)%Z) = Ok rows /\
        length rows = length thetas /\
        Forall (fun r => Z.of_nat (length r) = (ny - inner)%Z) rows.
Proof.
  intros Hin. split.
  - intros Hne. apply RadonRotate_Ok; [exact Hne | lia | lia].
  - intros Radop H.
    pose proof (RadonRotate_shape _ _ _ _ H) as Hsh. simpl fst in Hsh; simpl snd in Hsh.
    split; [exact Hsh |].
    intros x u Hu.
    pose proof (RadonRotate_well_formed _ _ _ _ H) as Hwf.
    destruct (operator_adjoint Radop Hwf x u Hu) as (Lu & Lx & _).
    rewrite Hsh in Lu, Lx. simpl fst in Lu; simpl snd in Lx.
    repeat split; try assumption.
    unfold Np.reshape2.
    destruct (Z.leb_spec 0 (Z.of_nat (length thetas))); [| lia].
    destruct (Z.leb_spec 0 (ny - inner)); [| lia].
    destruct (Z.eqb_spec (Z.of_nat (length u))
                (Z.of_nat (length thetas) * (ny - inner))); [| contradiction].
    simpl. eexists. split; [reflexivity |]. split.
    + rewrite rows_of_length. lia.
    + eapply Forall_impl; [| apply rows_of_Forall; nia].
      intros r Hr. simpl in Hr. lia.
Qed.

Lemma RadonRotate_operator_shape_witness :
  (Notebook.inner < Z.min Notebook.nx Notebook.ny)%Z /\
  exists Radop,
    RadonRotate (Notebook.nx, Notebook.ny) Notebook.inner (map IZR Notebook.thetas)
    = Ok Radop /\
    shape Radop = (12000%Z, 90000%Z).
Proof.
  assert (Hin : (Notebook.inner < Z.min Notebook.nx Notebook.ny)%Z)
    by (vm_compute; reflexivity).
  split; [exact Hin |].
  destruct (RadonRotate_operator_shape
              Notebook.nx Notebook.ny Notebook.inner (map IZR Notebook.thetas) Hin)
    as [Hex Hsh].
  destruct Hex as [Radop H].
  - intros E. apply (f_equal (@length R)) in E. vm_compute in E. discriminate E.
  - exists Radop. split; [exact H |].
    destruct (Hsh Radop H) as [S _]. rewrite S, length_map.
    vm_compute. reflexivity.
Defined.

(** C8, as amended.  With the parameters of the notebook ([nx = ny = 300],
    [inner = 100]) and for every angle, every coordinate of [XYrot] lies in
    [0 .. nx-1] (resp. [0 .. ny-1]): a rotated point is at most
    [sqrt 20000 = 100 * sqrt 2 < 149] away from the centre of the rotation
    [(nx//2, ny//2) = (150, 150)].  Hence all four neighbours that
    [Bilinear] reads are rows and columns of the image, and its forward
    returns on every image vector. *)
Theorem rotated_grid_inside_image (theta : R) :
  let dims := (Notebook.nx, Notebook.ny) in
  let XYrot := RadonRotate_XYrot dims (RadonRotate_grid dims Notebook.inner) theta in
  Z.of_nat (length (nth 0 XYrot [])) = 40000%Z /\
  Z.of_nat (length (nth 1 XYrot [])) = 40000%Z /\
  Forall (fun v => (0 <= v <= IZR (Notebook.nx - 1))%R) (nth 0 XYrot []) /\
  Forall (fun v => (0 <= v <= IZR (Notebook.ny - 1))%R) (nth 1 XYrot []) /\
  Forall (fun p => ((fst p - 150) * (fst p - 150) + (snd p - 150) * (snd p - 150)
                    <= 20000)%R)
         (combine (nth 0 XYrot []) (nth 1 XYrot [])) /\
  (20000 < 149 * 149)%R /\
  exists it ib wtb il ir wlr,
    Bilinear XYrot dims = Ok (BilinearOp dims it ib wtb il ir wlr) /\
    Forall (fun i => (0 <= i < Notebook.nx)%Z) it /\
    Forall (fun i => (0 <= i < Notebook.nx)%Z) ib /\
    Forall (fun j => (0 <= j < Notebook.ny)%Z) il /\
    Forall (fun j => (0 <= j < Notebook.ny)%Z) ir /\
    forall x, Z.of_nat (length x) = (Notebook.nx * Notebook.ny)%Z ->
              exists u, matvec (BilinearOp dims it ib wtb il ir wlr) x = Ok u.
Proof.
  cbv zeta. rewrite RadonRotate_XYrot_window. cbn [nth].
  set (pts := rotated_window (Notebook.nx, Notebook.ny) Notebook.inner theta).
  pose proof (rotation_safe_inside Notebook.nx Notebook.ny Notebook.inner theta
                notebook_rotation_safe) as Hin.
  fold pts in Hin.
  assert (Hidx : forall p, In p pts ->
             (0 <= Np.floor (fst p) /\ Np.floor (fst p) + 1 < Notebook.nx)%Z /\
             (0 <= Np.floor (snd p) /\ Np.floor (snd p) + 1 < Notebook.ny)%Z).
  { intros p Hp. rewrite Forall_forall in Hin.
    apply (inside_rows (Notebook.nx, Notebook.ny) p). now apply Hin. }
  split; [rewrite length_map; apply notebook_window_length |].
  split; [rewrite length_map; apply notebook_window_length |].
  split.
  { apply Forall_map_iff. eapply Forall_impl; [| exact Hin].
    intros p [[H1 H2] _]. simpl fst in *. lra. }
  split.
  { apply Forall_map_iff. eapply Forall_impl; [| exact Hin].
    intros p [_ [H1 H2]]. simpl snd in *. lra. }
  split.
  { rewrite combine_fst_snd. unfold pts, rotated_window.
    apply Forall_map_iff. apply Forall_forall. intros p Hp.
    pose proof (window_within_radius _ _ _ Hp) as Hr.
    rewrite notebook_window_radius2 in Hr.
    apply IZR_le in Hr. rewrite plus_IZR, !mult_IZR in Hr.
    pose proof (rotation_keeps_radius theta (IZR (fst p)) (IZR (snd p))) as E.
    unfold rotated_point. simpl fst; simpl snd.
    replace (IZR (Notebook.nx / 2)) with 150%R by (vm_compute; reflexivity).
    replace (IZR (Notebook.ny / 2)) with 150%R by (vm_compute; reflexivity).
    lra. }
  split; [lra |].
  pose proof (Bilinear_points pts (Notebook.nx, Notebook.ny)
                (rotated_window_NoDup _ _ _)) as HB.
  do 6 eexists.
  split; [exact HB |].
  repeat split;
    try (apply Forall_map_iff; apply Forall_forall; intros p Hp;
         destruct (Hidx p Hp); lia).
  intros x Hx. rewrite matvec_checked by exact Hx.
  apply Bilinear_matvec_inside; try assumption; vm_compute; discriminate.
Qed.

(** C8, as stated, gives the radius [sqrt(((nx-inner-1)/2)^2 +
    ((ny-inner-1)/2)^2)], about 140.7.  At 180 degrees the corner [(50, 50)]
    of the window goes to [(250, 250)], which is farther than that from the
    centre of the rotation [(150, 150)], and also from the midpoint
    [(149.5, 149.5)] of the image. *)
Lemma rotated_corner_beyond_half_diagonal :
  let dims := (Notebook.nx, Notebook.ny) in
  let XYrot :=
    RadonRotate_XYrot dims (RadonRotate_grid dims Notebook.inner) (Np.deg2rad 180) in
  In (250, 250)%R (combine (nth 0 XYrot []) (nth 1 XYrot [])) /\
  (half_diagonal2 dims Notebook.inner
   < (250 - 150) * (250 - 150) + (250 - 150) * (250 - 150))%R /\
  (half_diagonal2 dims Notebook.inner
   < (250 - 149.5) * (250 - 149.5) + (250 - 149.5) * (250 - 149.5))%R.
Proof.
  cbv zeta. rewrite RadonRotate_XYrot_window. cbn [nth].
  rewrite combine_fst_snd.
  assert (Hd : half_diagonal2 (Notebook.nx, Notebook.ny) Notebook.inner
               = (199 / 2 * (199 / 2) + 199 / 2 * (199 / 2))%R).
  { unfold half_diagonal2. simpl fst; simpl snd.
    replace (Notebook.nx - Notebook.inner - 1)%Z with 199%Z by reflexivity.
    replace (Notebook.ny - Notebook.inner - 1)%Z with 199%Z by reflexivity.
    reflexivity. }
  rewrite Hd. split; [| split; lra].
  unfold rotated_window. apply in_map_iff. exists ((-100)%Z, (-100)%Z). split.
  - unfold rotated_point. simpl fst; simpl snd.
    replace (Np.deg2rad 180) with PI by (unfold Np.deg2rad; field).
    rewrite cos_PI, sin_PI.
    replace (Notebook.nx / 2)%Z with 150%Z by reflexivity.
    replace (Notebook.ny / 2)%Z with 150%Z by reflexivity.
    f_equal; lra.
  - unfold window. apply in_prod_iff. split; apply in_map_iff; exists 0%Z;
      (split; [reflexivity | apply arange_In; vm_compute; split; congruence]).
Qed.

(** C10.  For an empty list of angles the loop leaves [Rops] empty,
    [RadonRotate] is the call [VStack([])], and that call raises inside the
    library: an operator is returned only for a non-empty list. *)
Theorem RadonRotate_no_angles (dims : Z * Z) (inner : Z) :
  RadonRotate dims inner [] = VStack [] /\
  VStack [] = Raise (IndexError "list index out of range") /\
  forall thetas Radop, RadonRotate dims inner thetas = Ok Radop -> thetas <> [].
Proof.
  split; [reflexivity |]. split; [reflexivity |].
  intros thetas Radop H. apply RadonRotate_Ok_inv in H.
  destruct H as (_ & _ & _ & Hne & _). exact Hne.
Qed.

(* ===================================================================== *)
(** ** The reconstruction error *)
(* ===================================================================== *)

Section ReconstructionError.

Lemma pad_bounds : lo = 25%Z /\ hi = (-25)%Z.
Proof. split; reflexivity. Qed.

(** The slice [l[25:-25]] removes 25 entries at each end. *)
Lemma slice_interior (A : Type) (l : list A) :
  Py.slice 25 (-25) l = interior 25 l.
Proof.
  unfold Py.slice, Py.slice_bound, interior.
  change (25 <? 0)%Z with false. change (-25 <? 0)%Z with true. cbv iota.
  destruct (Z.le_gt_cases 25 (Z.of_nat (length l))) as [H | H].
  - rewrite Z.min_l by lia.
    replace (Z.to_nat (Z.max (-25 + Z.of_nat (length l)) 0 - 25))
      with (length l - 2 * 25)%nat by lia.
    reflexivity.
  - rewrite Z.min_r by lia. rewrite Nat2Z.id.
    rewrite skipn_all. rewrite (skipn_all2 l) by lia.
    now rewrite !firstn_nil.
Qed.

Lemma getitem2_interior (a : list (list R)) :
  getitem2 a 25 (-25) 25 (-25) = interior2 25 a.
Proof.
  unfold getitem2, interior2. rewrite slice_interior.
  apply map_ext. intros r. apply slice_interior.
Qed.

Lemma sumsq_sub2 (a b : list (list R)) :
  Np.sumsq (sub2 a b) = squared_differences a b.
Proof.
  unfold Np.sumsq, sub2, squared_differences.
  revert b. induction a as [| r a IH]; intros [| r' b]; simpl; try reflexivity.
  rewrite IH. f_equal. clear.
  unfold Np.sub. revert r'.
  induction r as [| u r IH]; intros [| v r']; simpl; try reflexivity.
  now rewrite IH.
Qed.

Lemma interior_length (A : Type) (b : nat) (l : list A) :
  length (interior b l) = (length l - 2 * b)%nat.
Proof. unfold interior. rewrite length_firstn, length_skipn. lia. Qed.

Lemma In_interior (A : Type) (b : nat) (l : list A) (a : A) :
  In a (interior b l) -> In a l.
Proof.
  unfold interior. intros H.
  rewrite <- (firstn_skipn b l). apply in_or_app. right.
  rewrite <- (firstn_skipn (length l - 2 * b) (skipn b l)).
  apply in_or_app. left. exact H.
Qed.

Lemma interior2_shape (b m n : nat) (a : list (list R)) :
  has_shape a m n -> has_shape (interior2 b a) (m - 2 * b) (n - 2 * b).
Proof.
  intros [Hm Hn]. unfold has_shape, interior2. split.
  - now rewrite length_map, interior_length, Hm.
  - apply Forall_map_iff. apply Forall_forall. intros r Hr.
    apply In_interior in Hr. rewrite Forall_forall in Hn.
    rewrite interior_length. now rewrite (Hn r Hr).
Qed.

Lemma mse_fbp_interior_norm (rec image : list (list R)) :
  mse_fbp rec image = interior_norm 25 rec image.
Proof.
  unfold mse_fbp, interior_norm, Np.linalg_norm.
  destruct pad_bounds as [-> ->].
  now rewrite !getitem2_interior, sumsq_sub2.
Qed.

End ReconstructionError.

(** C5.  The error computed for the three reconstructions is one function
    of the reconstructed and the original image: the root of the sum of the
    squared differences over the part of the two arrays that is left when
    [pad//2 = 25] rows and columns are removed on every side.  It is a
    norm: on some arrays it differs from the mean of the squared
    differences over that part. *)
Theorem reconstruction_error_metric (m n : nat) (rec image : list (list R)) :
  has_shape rec m n -> has_shape image m n ->
  mse_fbp rec image = interior_norm 25 rec image /\
  mse_l2 rec image = interior_norm 25 rec image /\
  mse_tv rec image = interior_norm 25 rec image /\
  Z.of_nat 25 = Py.floordiv Notebook.pad 2 /\ (- Z.of_nat 25)%Z = Py.floordiv (- Notebook.pad) 2 /\
  has_shape (interior2 25 rec) (m - 50) (n - 50) /\
  has_shape (interior2 25 image) (m - 50) (n - 50) /\
  exists rec0 image0,
    has_shape rec0 51 51 /\ has_shape image0 51 51 /\
    mse_fbp rec0 image0 <> interior_mean_square 25 rec0 image0.
Proof.
  intros Hrec Himage.
  split; [apply mse_fbp_interior_norm |].
  split; [apply mse_fbp_interior_norm |].
  split; [apply mse_fbp_interior_norm |].
  split; [reflexivity |].
  split; [reflexivity |].
  split; [apply (interior2_shape 25 m n rec Hrec) |].
  split; [apply (interior2_shape 25 m n image Himage) |].
  exists (repeat (repeat 2%R 51) 51), (repeat (repeat 0%R 51) 51).
  split; [split; [reflexivity | repeat constructor] |].
  split; [split; [reflexivity | repeat constructor] |].
  rewrite mse_fbp_interior_norm. unfold interior_norm, interior_mean_square.
  assert (E1 : interior2 25 (repeat (repeat 2%R 51) 51) = [[2%R]])
    by (vm_compute; reflexivity).
  assert (E2 : interior2 25 (repeat (repeat 0%R 51) 51) = [[0%R]])
    by (vm_compute; reflexivity).
  rewrite E1, E2. unfold squared_differences. simpl.
  replace ((2 - 0) * (2 - 0) + 0 + 0)%R with (2 * 2)%R by ring.
  rewrite sqrt_square by lra. lra.
Qed.

Lemma reconstruction_error_metric_witness :
  has_shape (repeat (repeat 1%R 52) 52) 52 52 /\
  has_shape (repeat (repeat 0%R 52) 52) 52 52 /\
  mse_fbp (repeat (repeat 1%R 52) 52) (repeat (repeat 0%R 52) 52)
  = interior_norm 25 (repeat (repeat 1%R 52) 52) (repeat (repeat 0%R 52) 52).
Proof.
  assert (H1 : has_shape (repeat (repeat 1%R 52) 52) 52 52)
    by (split; [reflexivity | repeat constructor]).
  assert (H0 : has_shape (repeat (repeat 0%R 52) 52) 52 52)
    by (split; [reflexivity | repeat constructor]).
  split; [exact H1 |]. split; [exact H0 |].
  exact (proj1 (reconstruction_error_metric 52 52 _ _ H1 H0)).
Defined.

(* ===================================================================== *)
(** ** The [FunctionOperator] demonstration *)
(* ===================================================================== *)

Section FunctionOperatorCell.

Variable radon : ndarray -> list Z -> result ndarray.
Variable iradon : ndarray -> list Z -> result ndarray.

Lemma nd_reshape_same (a : ndarray) (b : ndarray) :
  nd_reshape a (nd_shape a) = Ok b -> b = a.
Proof.
  unfold nd_reshape. destruct (_ && _)%bool; [| discriminate].
  intros H. inversion H. now destruct a.
Qed.

Lemma nd_reshape_data (a b : ndarray) (s : list Z) :
  nd_reshape a s = Ok b -> nd_data b = nd_data a /\ nd_shape b = s.
Proof.
  unfold nd_reshape. destruct (_ && _)%bool; [| discriminate].
  intros H. inversion H. auto.
Qed.

Lemma nd_reshape_wf (a : ndarray) :
  nd_wf a -> nd_reshape (nd_ravel a) (nd_shape a) = Ok a.
Proof.
  intros [Hs Hn]. unfold nd_reshape, nd_ravel. simpl nd_data.
  unfold nd_size in Hn. rewrite Hn, Z.eqb_refl, andb_true_r.
  assert (E : forallb (fun d => (0 <=? d)%Z) (nd_shape a) = true).
  { apply forallb_forall. intros d Hd. rewrite Forall_forall in Hs.
    apply Z.leb_le. now apply Hs. }
  rewrite E. now destruct a.
Qed.

(** What the cell computes: the first value of [projection1] is not read. *)
Lemma apply_Fop_cell_Ok (Fop : FunctionOperator) (g g' : globals) :
  apply_Fop_cell Fop g = Ok g' ->
  exists p adj a,
    FunctionOperator_matvec g Fop (nd_ravel (image g)) = Ok p /\
    FunctionOperator_rmatvec (set_projection1 (set_projection1 g p) (projection g))
                             Fop (nd_ravel (projection g)) = Ok adj /\
    nd_reshape adj (nd_shape (image g)) = Ok a /\
    g' = set_image_adj
           (set_image_adj (set_projection1 (set_projection1 g p) (projection g)) adj) a.
Proof.
  unfold apply_Fop_cell. intros H.
  bind_inv H. rename a into p. cbv zeta in H.
  bind_inv H. rename a into q. simpl projection in Ha0.
  apply nd_reshape_same in Ha0. subst q.
  simpl in H. bind_inv H. rename a into adj. bind_inv H.
  inversion H; subst g'; clear H.
  exists p, adj, a. auto.
Qed.

End FunctionOperatorCell.

(** C9.  In the cell that applies [Fop] and then its adjoint, the second
    assignment binds [projection1] to the projection of scikit-image, so
    [image_adj] is the adjoint applied to that projection (reshaped to the
    shape of the image), whatever the forward of [Fop] returned: an
    operator with another forward function gives the same [image_adj].
    When [projection] is [radon] of the same image, as in the notebook,
    the forward output has the entries of [projection], and the two
    coincide. *)
Theorem adjoint_applied_to_skimage_projection
        (radon iradon : ndarray -> list Z -> result ndarray) (g g' : globals) :
  apply_Fop_cell (make_Fop radon iradon g) g = Ok g' ->
  projection1 g' = Some (projection g) /\
  (exists adj a,
      FunctionOperator_rmatvec g (make_Fop radon iradon g) (nd_ravel (projection g))
      = Ok adj /\
      nd_reshape adj (nd_shape (image g)) = Ok a /\
      image_adj g' = Some a) /\
  (forall forward g'',
      apply_Fop_cell
        {| f := forward; fc := rmvec iradon;
           nr := nd_size (projection g); nc := nd_size (image g) |} g = Ok g'' ->
      image_adj g'' = image_adj g') /\
  (forall p,
      nd_wf (image g) ->
      radon (image g) (thetas g) = Ok (projection g) ->
      FunctionOperator_matvec g (make_Fop radon iradon g) (nd_ravel (image g)) = Ok p ->
      nd_data p = nd_data (projection g)).
Proof.
  intros H. apply apply_Fop_cell_Ok in H.
  destruct H as (p & adj & a & Hp & Hadj & Ha & ->).
  split; [reflexivity |].
  split.
  { exists adj, a. repeat split; auto. }
  split.
  { intros forward g'' H'. apply apply_Fop_cell_Ok in H'.
    destruct H' as (p' & adj' & a' & _ & Hadj' & Ha' & ->).
    simpl image_adj.
    assert (E : adj' = adj).
    { assert (H1 : FunctionOperator_rmatvec g (make_Fop radon iradon g)
                     (nd_ravel (projection g)) = Ok adj) by exact Hadj.
      assert (H2 : FunctionOperator_rmatvec g (make_Fop radon iradon g)
                     (nd_ravel (projection g)) = Ok adj') by exact Hadj'.
      rewrite H1 in H2. now inversion H2. }
    subst adj'. rewrite Ha in Ha'. now inversion Ha'. }
  intros q [Hs Hn] Hradon Hq.
  unfold FunctionOperator_matvec in Hq. simpl in Hq.
  rewrite <- Hn, Z.eqb_refl in Hq.
  unfold mvec in Hq.
  rewrite (nd_reshape_wf (image g) (conj Hs Hn)) in Hq. simpl in Hq.
  rewrite Hradon in Hq. simpl in Hq.
  apply nd_reshape_data in Hq. tauto.
Qed.

Lemma adjoint_applied_to_skimage_projection_witness :
  let a := {| nd_shape := [1%Z; 1%Z]; nd_data := [1%R] |} in
  let g := {| image := a; thetas := [0%Z]; projection := a;
              projection1 := None; image_adj := None |} in
  exists g',
    apply_Fop_cell (make_Fop (fun x _ => Ok x) (fun x _ => Ok x) g) g = Ok g' /\
    projection1 g' = Some (projection g).
Proof.
  cbv zeta. eexists. split.
  - reflexivity.
  - refine (proj1 (adjoint_applied_to_skimage_projection
                     (fun x _ => Ok x) (fun x _ => Ok x) _ _ _)).
    reflexivity.
Defined.

(* ===================================================================== *)
(** ** Further results: the projection at angle 0 *)
(* ===================================================================== *)

Section AngleZero.

Local Open Scope R_scope.

Lemma map2_map (A B C D : Type) (h : B -> C -> D) (a : A -> B) (b : A -> C)
      (l : list A) :
  Np.map2 h (map a l) (map b l) = map (fun p => h (a p) (b p)) l.
Proof. induction l as [| p l IH]; simpl; [| rewrite IH]; reflexivity. Qed.

Lemma zeros_map (A : Type) (l : list A) :
  Np.zeros (length l) = map (fun _ => 0) l.
Proof. unfold Np.zeros. induction l; simpl; [| rewrite IHl]; reflexivity. Qed.

(** At angle 0 the rotated window is the window itself, moved to the
    centre: its points have whole coordinates. *)
Lemma rotated_window_zero (dims : Z * Z) (inner : Z) :
  rotated_window dims inner (Np.deg2rad 0)
  = map (fun p => (IZR (fst p + fst dims / 2), IZR (snd p + snd dims / 2)))
        (window dims inner).
Proof.
  unfold rotated_window. apply map_ext. intros p.
  unfold rotated_point, Np.deg2rad. rewrite Rmult_0_l, cos_0, sin_0.
  rewrite !plus_IZR. f_equal; lra.
Qed.

Lemma take2_value (A : Type) (x : list R) (dims : Z * Z) (pts : list A)
      (f g : A -> Z) :
  (forall p, In p pts -> (0 <= f p < fst dims)%Z /\ (0 <= g p < snd dims)%Z) ->
  Np.take2 x dims (map f pts) (map g pts)
  = Ok (map (fun p => nth (Z.to_nat (f p * snd dims + g p)) x 0) pts).
Proof.
  intros H. unfold Np.take2.
  assert (E : Py.mapM (Np.flat_index dims) (combine (map f pts) (map g pts))
              = Ok (map (fun p => Z.to_nat (f p * snd dims + g p)) pts)).
  { induction pts as [| p pts IH]; simpl; [reflexivity |].
    destruct (H p (or_introl eq_refl)) as [Hf Hg].
    unfold Np.flat_index at 1. simpl fst; simpl snd.
    rewrite (index_Ok _ _ Hf), (index_Ok _ _ Hg). simpl.
    rewrite IH; [reflexivity |]. intros q Hq. apply H. now right. }
  rewrite E. simpl. now rewrite map_map.
Qed.

(** [Bilinear] at points with whole coordinates reads one pixel each. *)
Lemma Bilinear_matvec_whole (A : Type) (nx ny : Z) (pts : list A) (f g : A -> Z)
      (x : list R) :
  (forall p, In p pts -> (0 <= f p /\ f p + 1 < nx)%Z /\ (0 <= g p /\ g p + 1 < ny)%Z) ->
  (0 <= nx)%Z -> (0 <= ny)%Z -> Z.of_nat (length x) = (nx * ny)%Z ->
  Bilinear_matvec (nx, ny)
    (map f pts) (map (fun p => (f p + 1)%Z) pts) (map (fun _ => 0) pts)
    (map g pts) (map (fun p => (g p + 1)%Z) pts) (map (fun _ => 0) pts) x
  = Ok (map (fun p => nth (Z.to_nat (f p * ny + g p)) x 0) pts).
Proof.
  intros H Hnx Hny Hx. unfold Bilinear_matvec.
  assert (Hr : exists a, Np.reshape2 x (nx, ny) = Ok a).
  { unfold Np.reshape2.
    destruct (Z.leb_spec 0 nx); [| lia]. destruct (Z.leb_spec 0 ny); [| lia].
    destruct (Z.eqb_spec (Z.of_nat (length x)) (nx * ny)); [| lia].
    simpl. eexists. reflexivity. }
  destruct Hr as [a ->]. simpl Py.bind.
  rewrite (take2_value A x (nx, ny) pts f g)
    by (intros p Hp; destruct (H p Hp); simpl; lia).
  simpl Py.bind.
  rewrite (take2_value A x (nx, ny) pts f (fun p => (g p + 1)%Z))
    by (intros p Hp; destruct (H p Hp); simpl; lia).
  simpl Py.bind.
  rewrite (take2_value A x (nx, ny) pts (fun p => (f p + 1)%Z) g)
    by (intros p Hp; destruct (H p Hp); simpl; lia).
  simpl Py.bind.
  rewrite (take2_value A x (nx, ny) pts (fun p => (f p + 1)%Z) (fun p => (g p + 1)%Z))
    by (intros p Hp; destruct (H p Hp); simpl; lia).
  simpl Py.bind. f_equal.
  unfold one_minus, Np.add, Np.mul. rewrite !map_map, !map2_map.
  apply map_ext. intros p. simpl snd. lra.
Qed.

Lemma firstn_app_exact (A : Type) (n : nat) (l1 l2 : list A) :
  length l1 = n -> firstn n (l1 ++ l2) = l1.
Proof.
  intros <-. rewrite firstn_app, Nat.sub_diag, firstn_all. simpl.
  apply app_nil_r.
Qed.

Lemma skipn_app_exact (A : Type) (n : nat) (l1 l2 : list A) :
  length l1 = n -> skipn n (l1 ++ l2) = l2.
Proof.
  intros <-. rewrite skipn_app, Nat.sub_diag, skipn_all. reflexivity.
Qed.

Lemma rows_of_list_prod (v : Z * Z -> R) (xs ys : list Z) :
  Np.rows_of (length xs) (length ys) (map v (list_prod xs ys))
  = map (fun xi => map (fun yj => v (xi, yj)) ys) xs.
Proof.
  induction xs as [| a xs IH]; simpl; [reflexivity |].
  rewrite map_app, map_map.
  assert (L : length (map (fun y => v (a, y)) ys) = length ys) by apply length_map.
  rewrite (firstn_app_exact _ _ _ _ L), (skipn_app_exact _ _ _ _ L).
  now rewrite IH.
Qed.

Lemma fold_add_columns (v : Z * Z -> R) (xs ys : list Z) (a : Z -> R) :
  fold_left Np.add (map (fun xi => map (fun yj => v (xi, yj)) ys) xs) (map a ys)
  = map (fun yj => fold_left (fun s xi => s + v (xi, yj)) xs (a yj)) ys.
Proof.
  revert a. induction xs as [| x xs IH]; intros a; simpl; [reflexivity |].
  unfold Np.add at 2. rewrite map2_map. apply IH.
Qed.

Lemma fold_left_sum (A : Type) (f : A -> R) (xs : list A) (a : R) :
  fold_left (fun s xi => s + f xi) xs a = a + fold_right Rplus 0 (map f xs).
Proof.
  revert a. induction xs as [| x xs IH]; intros a; simpl; [lra |].
  rewrite IH. lra.
Qed.

(** [Sum] over axis 0 of values laid out on a grid. *)
Lemma Sum_matvec_grid (v : Z * Z -> R) (xs ys : list Z) (m n : Z) :
  Z.of_nat (length xs) = m -> Z.of_nat (length ys) = n ->
  Sum_matvec (m, n) 0 (map v (list_prod xs ys))
  = Ok (map (fun yj => fold_right Rplus 0 (map (fun xi => v (xi, yj)) xs)) ys).
Proof.
  intros Hm Hn. unfold Sum_matvec, Np.reshape2.
  destruct (Z.leb_spec 0 m); [| lia]. destruct (Z.leb_spec 0 n); [| lia].
  rewrite length_map, length_prod.
  destruct (Z.eqb_spec (Z.of_nat (length xs * length ys)) (m * n)); [| nia].
  simpl. f_equal. unfold Np.sum_axis0.
  replace (Z.to_nat m) with (length xs) by lia.
  replace (Z.to_nat n) with (length ys) by lia.
  rewrite rows_of_list_prod, zeros_map, fold_add_columns.
  apply map_ext. intros yj. rewrite fold_left_sum. lra.
Qed.

(** The block of angle 0: its [Bilinear] has whole rows and columns and
    weights 0. *)
Lemma angle_zero_fields (nx ny inner : Z) :
  (inner <= nx)%Z -> (inner <= ny)%Z ->
  let W := window (nx, ny) inner in
  let f := fun p : Z * Z => (fst p + nx / 2)%Z in
  let g := fun p : Z * Z => (snd p + ny / 2)%Z in
  angle_block (nx, ny) inner 0
  = Ok (ProductOp (SumOp ((nx - inner)%Z, (ny - inner)%Z) 0)
          (BilinearOp (nx, ny)
             (map f W) (map (fun p => (f p + 1)%Z) W) (map (fun _ => 0) W)
             (map g W) (map (fun p => (g p + 1)%Z) W) (map (fun _ => 0) W))).
Proof.
  intros Hx Hy W f g.
  destruct (angle_block_Ok nx ny inner 0 Hx Hy)
    as (it & ib & wtb & il & ir & wlr & Hb & _ & _ & Hit & Hib & Hil & Hir & _ & _
        & Hwtb & Hwlr).
  cbv zeta in Hb. rewrite Hb.
  rewrite rotated_window_zero in Hit, Hib, Hil, Hir, Hwtb, Hwlr.
  rewrite map_map in Hit, Hib, Hil, Hir, Hwtb, Hwlr.
  cbn [fst snd] in Hit, Hib, Hil, Hir, Hwtb, Hwlr.
  assert (Eit : it = map f W).
  { subst it. apply map_ext. intros p. apply (ZfloorZ (f p)). }
  assert (Eib : ib = map (fun p => (f p + 1)%Z) W).
  { subst ib. apply map_ext. intros p. unfold Np.floor. now rewrite ZfloorZ. }
  assert (Eil : il = map g W).
  { subst il. apply map_ext. intros p. apply (ZfloorZ (g p)). }
  assert (Eir : ir = map (fun p => (g p + 1)%Z) W).
  { subst ir. apply map_ext. intros p. unfold Np.floor. now rewrite ZfloorZ. }
  assert (Ewtb : wtb = map (fun _ => 0) W).
  { subst wtb. apply map_ext. intros p. unfold Np.floor. rewrite ZfloorZ. lra. }
  assert (Ewlr : wlr = map (fun _ => 0) W).
  { subst wlr. apply map_ext. intros p. unfold Np.floor. rewrite ZfloorZ. lra. }
  now rewrite Eit, Eib, Eil, Eir, Ewtb, Ewlr.
Qed.

(** The block of angle 0 sums the window over its rows. *)
Lemma angle_zero_block (nx ny inner : Z) (x : list R) :
  (1 <= inner)%Z -> (inner <= nx)%Z -> (inner <= ny)%Z ->
  Z.of_nat (length x) = (nx * ny)%Z ->
  exists o, angle_block (nx, ny) inner 0 = Ok o /\
            matvec o x = Ok (window_column_sums (nx, ny) inner x).
Proof.
  intros Hi Hx Hy Lx.
  pose proof (angle_zero_fields nx ny inner Hx Hy) as Hb. cbv zeta in Hb.
  eexists. split; [exact Hb |].
  set (f := fun p : Z * Z => (fst p + nx / 2)%Z).
  set (g := fun p : Z * Z => (snd p + ny / 2)%Z).
  rewrite matvec_checked by exact Lx.
  rewrite (matvec_checked (BilinearOp _ _ _ _ _ _ _)) by exact Lx.
  rewrite (Bilinear_matvec_whole (Z * Z) nx ny (window (nx, ny) inner) f g x);
    try lia; try exact Lx.
  2:{ intros p Hp. apply window_In in Hp. unfold f, g. cbn [fst snd] in Hp.
      clear - Hp Hi Hx Hy. destruct p as [a b]. cbn [fst snd] in *.
      pose proof (Z.div_mod inner 2). pose proof (Z.mod_pos_bound inner 2). lia. }
  simpl Py.bind.
  set (v := fun p : Z * Z => nth (Z.to_nat (f p * ny + g p)) x 0).
  unfold window.
  set (xs := map (fun k => (k - nx / 2 + inner / 2)%Z) (Np.arange (nx - inner))).
  set (ys := map (fun k => (k - ny / 2 + inner / 2)%Z) (Np.arange (ny - inner))).
  assert (Lxs : Z.of_nat (length xs) = (nx - inner)%Z)
    by (unfold xs; rewrite length_map, arange_length; lia).
  assert (Lys : Z.of_nat (length ys) = (ny - inner)%Z)
    by (unfold ys; rewrite length_map, arange_length; lia).
  assert (Lv : Z.of_nat (length (map v (list_prod xs ys)))
               = ((nx - inner) * (ny - inner))%Z)
    by (rewrite length_map, length_prod; nia).
  rewrite (proj2 (Z.eqb_eq _ _) Lv). simpl negb. cbv iota.
  rewrite (Sum_matvec_grid v xs ys _ _ Lxs Lys).
  f_equal. unfold window_column_sums, ys, xs. simpl fst; simpl snd.
  rewrite map_map. apply map_ext. intros j. f_equal.
  rewrite map_map. apply map_ext. intros i.
  unfold v, f, g, window_pixel. simpl. f_equal. f_equal. lia.
Qed.

End AngleZero.

Section PaddedImage.

Local Open Scope R_scope.

Lemma nth_concat_grid (N : nat) (rows : list (list R)) (r c : nat) :
  Forall (fun row => length row = N) rows -> (c < N)%nat ->
  nth (r * N + c) (concat rows) 0 = nth c (nth r rows []) 0.
Proof.
  intros H Hc. revert r. induction H as [| row rows Hrow _ IH]; intros r.
  - simpl. destruct (r * N + c)%nat, r, c; reflexivity.
  - destruct r as [| r]; simpl.
    + rewrite app_nth1 by lia. reflexivity.
    + rewrite app_nth2 by lia.
      replace (N + r * N + c - length row)%nat with (r * N + c)%nat by lia.
      apply IH.
Qed.

Lemma pad_constant_shape (p : Z) (m n : nat) (a image : list (list R)) :
  has_shape a m n -> pad_constant p n a = Ok image ->
  (0 <= p)%Z /\
  has_shape image (Z.to_nat p + m + Z.to_nat p) (Z.to_nat p + n + Z.to_nat p).
Proof.
  intros [Hm Hn]. unfold pad_constant.
  destruct (Z.ltb_spec p 0); [discriminate |]. intros E. inversion E; subst; clear E.
  split; [assumption |]. split.
  - rewrite !length_app, !repeat_length, length_map. lia.
  - rewrite !Forall_app. repeat split.
    + apply Forall_forall. intros r Hr. apply repeat_spec in Hr. subst r.
      apply zeros_length.
    + apply Forall_map_iff. eapply Forall_impl; [| exact Hn].
      intros r Hr. simpl in Hr. rewrite !length_app, !zeros_length. lia.
    + apply Forall_forall. intros r Hr. apply repeat_spec in Hr. subst r.
      apply zeros_length.
Qed.

(** Entry [(i + p, j + p)] of the padded array is entry [(i, j)] of the
    array that was padded. *)
Lemma pad_constant_entry (p : Z) (m n : nat) (a image : list (list R)) (i j : nat) :
  has_shape a m n -> pad_constant p n a = Ok image ->
  (i < m)%nat -> (j < n)%nat ->
  nth (j + Z.to_nat p) (nth (i + Z.to_nat p) image []) 0 = nth j (nth i a []) 0.
Proof.
  intros [Hm Hn]. unfold pad_constant.
  destruct (Z.ltb_spec p 0); [discriminate |]. intros E. inversion E; subst; clear E.
  intros Hi Hj. set (k := Z.to_nat p).
  rewrite app_nth2 by (rewrite repeat_length; lia).
  rewrite repeat_length. replace (i + k - k)%nat with i by lia.
  rewrite app_nth1 by (rewrite length_map; lia).
  rewrite (nth_indep _ [] (Np.zeros k ++ [] ++ Np.zeros k))
    by (rewrite length_map; lia).
  rewrite (map_nth (fun r => Np.zeros k ++ r ++ Np.zeros k) a [] i).
  rewrite app_nth2 by (rewrite zeros_length; lia).
  rewrite zeros_length. replace (j + k - k)%nat with j by lia.
  rewrite app_nth1; [reflexivity |].
  rewrite Forall_forall in Hn. rewrite (Hn (nth i a [])); [lia |].
  apply nth_In. lia.
Qed.

Lemma map_nth_seq (A : Type) (l : list A) (d : A) :
  map (fun i => nth i l d) (seq 0 (length l)) = l.
Proof.
  induction l as [| a l IH]; simpl; [reflexivity |].
  f_equal. rewrite <- seq_shift, map_map. exact IH.
Qed.

End PaddedImage.

Section AngleZeroOperator.

Local Open Scope R_scope.

Lemma VStack_single (o : LinearOperator) (x u : list R) :
  matvec o x = Ok u ->
  VStack [o] = Ok (VStackOp [o]) /\ matvec (VStackOp [o]) x = Ok u.
Proof.
  intros H. split; [reflexivity |].
  apply matvec_Ok_inv in H as H'. destruct H' as [Hx _].
  rewrite matvec_checked by exact Hx.
  simpl. rewrite H. simpl. now rewrite app_nil_r.
Qed.

Lemma RadonRotate_angle_zero (nx ny inner : Z) (x : list R) :
  (1 <= inner)%Z -> (inner <= nx)%Z -> (inner <= ny)%Z ->
  Z.of_nat (length x) = (nx * ny)%Z ->
  exists Radop, RadonRotate (nx, ny) inner [0] = Ok Radop /\
                matvec Radop x = Ok (window_column_sums (nx, ny) inner x).
Proof.
  intros Hi Hx Hy Lx.
  destruct (angle_zero_block nx ny inner x Hi Hx Hy Lx) as (o & Ho & Hm).
  rewrite RadonRotate_blocks. simpl Py.mapM. rewrite Ho.
  destruct (VStack_single o x _ Hm) as [HV HM].
  exists (VStackOp [o]). split; [reflexivity | exact HM].
Qed.

Lemma concat_length_grid (N : nat) (rows : list (list R)) :
  Forall (fun row => length row = N) rows ->
  length (concat rows) = (length rows * N)%nat.
Proof.
  induction 1 as [| row rows Hrow _ IH]; simpl; [reflexivity |].
  rewrite length_app, IH, Hrow. reflexivity.
Qed.

Lemma arange_of_nat (n : nat) : Np.arange (Z.of_nat n) = map Z.of_nat (seq 0 n).
Proof. unfold Np.arange. now rewrite Nat2Z.id. Qed.

Lemma padded_window_column_sums (p : Z) (m n : nat) (a image : list (list R)) :
  has_shape a m n -> (0 <= p)%Z -> pad_constant p n a = Ok image ->
  window_column_sums ((Z.of_nat m + 2 * p)%Z, (Z.of_nat n + 2 * p)%Z) (2 * p)
                     (Np.ravel image)
  = column_sums n a.
Proof.
  intros Ha Hp Hpad.
  destruct (pad_constant_shape p m n a image Ha Hpad) as [_ [Lrows Hrows]].
  unfold window_column_sums, column_sums. cbn [fst snd].
  replace (Z.of_nat n + 2 * p - 2 * p)%Z with (Z.of_nat n) by lia.
  replace (Z.of_nat m + 2 * p - 2 * p)%Z with (Z.of_nat m) by lia.
  rewrite !arange_of_nat, map_map.
  apply map_ext_in. intros j Hj. apply in_seq in Hj. f_equal.
  rewrite map_map.
  transitivity (map (fun i => nth j (nth i a []) 0) (seq 0 m)).
  - apply map_ext_in. intros i Hi. apply in_seq in Hi.
    unfold window_pixel, Np.ravel. cbn [fst snd].
    set (k := Z.to_nat p). set (N := (k + n + k)%nat).
    replace (Z.to_nat ((Z.of_nat i + 2 * p / 2) * (Z.of_nat n + 2 * p)
                       + (Z.of_nat j + 2 * p / 2)))
      with ((i + k) * N + (j + k))%nat.
    + rewrite (nth_concat_grid N image (i + k) (j + k) Hrows) by (unfold N; lia).
      apply (pad_constant_entry p m n a image i j Ha Hpad); lia.
    + replace (2 * p / 2)%Z with p
        by (rewrite Z.mul_comm, Z.div_mul; [reflexivity | discriminate]).
      unfold N, k. apply Nat2Z.inj. rewrite Z2Nat.id by nia.
      rewrite Nat2Z.inj_add, Nat2Z.inj_mul, !Nat2Z.inj_add, !Z2Nat.id by lia.
      ring.
  - destruct Ha as [Hm _]. rewrite <- Hm.
    rewrite <- (map_nth_seq _ a []) at 2. now rewrite map_map.
Qed.

End AngleZeroOperator.

(** X1.  For a margin [inner >= 1] not larger than the image, the operator
    that [RadonRotate] builds for the single angle 0 returns, on every
    image vector, the sums over the rows of the window that starts
    [inner//2] rows and columns into the image: no interpolation takes
    place at angle 0. *)
Theorem projection_at_angle_zero (nx ny inner : Z) (x : list R) :
  (1 <= inner)%Z -> (inner <= nx)%Z -> (inner <= ny)%Z ->
  Z.of_nat (length x) = (nx * ny)%Z ->
  exists Radop,
    RadonRotate (nx, ny) inner [0%R] = Ok Radop /\
    shape Radop = ((ny - inner)%Z, (nx * ny)%Z) /\
    matvec Radop x = Ok (window_column_sums (nx, ny) inner x) /\
    Z.of_nat (length (window_column_sums (nx, ny) inner x)) = (ny - inner)%Z.
Proof.
  intros Hi Hx Hy Lx.
  destruct (RadonRotate_angle_zero nx ny inner x Hi Hx Hy Lx) as (Radop & HR & HM).
  exists Radop. split; [exact HR |].
  pose proof (RadonRotate_shape _ _ _ _ HR) as Hs. cbn [fst snd length] in Hs.
  split; [rewrite Hs; f_equal; lia |]. split; [exact HM |].
  unfold window_column_sums. cbn [fst snd]. rewrite length_map, arange_length. lia.
Qed.

Lemma projection_at_angle_zero_witness :
  exists Radop,
    RadonRotate (4, 4)%Z 2 [0%R] = Ok Radop /\
    matvec Radop (map IZR (Np.arange 16))
    = Ok (window_column_sums (4, 4)%Z 2 (map IZR (Np.arange 16))).
Proof.
  destruct (projection_at_angle_zero 4 4 2 (map IZR (Np.arange 16)))
    as (Radop & HR & _ & HM & _); try lia; [reflexivity |].
  exists Radop. split; assumption.
Defined.

(** X2.  When an array is padded with [p >= 1] zeros on every side, as the
    notebook pads the phantom, and the margin of [RadonRotate] is
    [inner = 2 * p], the projection of the padded image at angle 0 is the
    sum over the rows of the array that was padded: the window is exactly
    the unpadded image. *)
Theorem padded_projection_at_angle_zero
        (p : Z) (m n : nat) (a image : list (list R)) :
  has_shape a m n -> (1 <= p)%Z -> pad_constant p n a = Ok image ->
  exists Radop,
    RadonRotate ((Z.of_nat m + 2 * p)%Z, (Z.of_nat n + 2 * p)%Z) (2 * p) [0%R]
    = Ok Radop /\
    matvec Radop (Np.ravel image) = Ok (column_sums n a).
Proof.
  intros Ha Hp Hpad.
  destruct (pad_constant_shape p m n a image Ha Hpad) as [_ [Lrows Hrows]].
  assert (Lx : Z.of_nat (length (Np.ravel image))
               = ((Z.of_nat m + 2 * p) * (Z.of_nat n + 2 * p))%Z).
  { unfold Np.ravel. rewrite (concat_length_grid _ _ Hrows), Lrows.
    rewrite Nat2Z.inj_mul, !Nat2Z.inj_add, !Z2Nat.id by lia. ring. }
  destruct (RadonRotate_angle_zero (Z.of_nat m + 2 * p) (Z.of_nat n + 2 * p) (2 * p)
              (Np.ravel image)) as (Radop & HR & HM);
    try lia.
  exists Radop. split; [exact HR |].
  rewrite HM. f_equal. apply padded_window_column_sums; try assumption. lia.
Qed.

Lemma padded_projection_at_angle_zero_witness :
  has_shape [[1; 2]; [3; 4]]%R 2 2 /\
  exists image Radop,
    pad_constant 1 2 [[1; 2]; [3; 4]]%R = Ok image /\
    RadonRotate (4, 4)%Z 2 [0%R] = Ok Radop /\
    matvec Radop (Np.ravel image) = Ok (column_sums 2 [[1; 2]; [3; 4]]%R).
Proof.
  assert (H : has_shape [[1; 2]; [3; 4]]%R 2 2)
    by (split; [reflexivity | repeat constructor]).
  split; [exact H |].
  eexists. 
  destruct (padded_projection_at_angle_zero 1 2 2 [[1; 2]; [3; 4]]%R _ H
              ltac:(lia) eq_refl) as (Radop & HR & HM).
  exists Radop. split; [reflexivity |]. split; [exact HR | exact HM].
Defined.

(* ===================================================================== *)
(** ** Further results: the margin, lists of angles *)
(* ===================================================================== *)

Section MarginAndAngles.

Local Open Scope Z_scope.

Lemma VStack_matvec_Ok_blocks (ops : list LinearOperator) (x u : list R) :
  VStack_matvec matvec ops x = Ok u ->
  Forall (fun o => exists v, matvec o x = Ok v) ops.
Proof.
  revert u. induction ops as [| o ops IH]; intros u H; simpl in H; constructor.
  - bind_inv H. eexists. exact Ha.
  - bind_inv H. bind_inv H. eapply IH. exact Ha0.
Qed.

Lemma Forall2_In_l (A B : Type) (P : A -> B -> Prop) (xs : list A) (ys : list B)
      (a : A) :
  Forall2 P xs ys -> In a xs -> exists b, In b ys /\ P a b.
Proof.
  induction 1 as [| x y xs ys Hxy _ IH]; simpl; [contradiction |].
  intros [-> | Hin].
  - exists y. auto.
  - destruct (IH Hin) as (b & Hb & Pb). exists b. auto.
Qed.

Lemma combine_map (A B C : Type) (f : A -> B) (g : A -> C) (l : list A) :
  combine (map f l) (map g l) = map (fun p => (f p, g p)) l.
Proof. induction l as [| p l IH]; simpl; [| rewrite IH]; reflexivity. Qed.

(** Without a margin the block of angle 0 cannot be applied: the pixels of
    the last column have no column to their right. *)
Lemma angle_zero_block_no_margin (nx ny : Z) (o : LinearOperator) (x v : list R) :
  1 <= nx -> 1 <= ny ->
  angle_block (nx, ny) 0 0 = Ok o -> matvec o x = Ok v -> False.
Proof.
  intros Hnx Hny Ho Hm.
  pose proof (angle_zero_fields nx ny 0 ltac:(lia) ltac:(lia)) as Hb.
  cbv zeta in Hb. rewrite Hb in Ho. inversion Ho; subst o; clear Ho Hb.
  apply matvec_Ok_inv in Hm. destruct Hm as [_ Hm].
  apply bind_Ok_inv in Hm. destruct Hm as (w & Hm & _).
  apply matvec_Ok_inv in Hm. destruct Hm as [_ Hm].
  unfold Bilinear_matvec in Hm.
  apply bind_Ok_inv in Hm. destruct Hm as (r & _ & Hm).
  apply bind_Ok_inv in Hm. destruct Hm as (tl & _ & Hm).
  apply bind_Ok_inv in Hm. destruct Hm as (tr & Htr & _).
  apply take2_Ok in Htr. destruct Htr as (ks & Hks & _ & _).
  apply mapM_Forall2 in Hks. rewrite combine_map in Hks.
  set (p0 := (nx - 1 - nx / 2 + 0 / 2, ny - 1 - ny / 2 + 0 / 2)).
  assert (Hin : In p0 (window (nx, ny) 0)).
  { unfold window, p0. apply in_prod_iff. split; apply in_map_iff.
    - exists (nx - 1). split; [f_equal; lia | apply arange_In; lia].
    - exists (ny - 1). split; [f_equal; lia | apply arange_In; lia]. }
  destruct (Forall2_In_l _ _ _ _ _ _ Hks (in_map _ _ _ Hin)) as (k & _ & Hk).
  unfold p0, Np.flat_index in Hk. cbn [fst snd] in Hk.
  change (0 / 2) with 0 in Hk.
  replace (nx - 1 - nx / 2 + 0 + nx / 2) with (nx - 1) in Hk by lia.
  replace (ny - 1 - ny / 2 + 0 + ny / 2 + 1) with ny in Hk by lia.
  rewrite (index_Ok nx (nx - 1)) in Hk by lia. simpl Py.bind in Hk.
  unfold Np.index in Hk.
  destruct (Z.ltb_spec ny ny); [lia |]. rewrite andb_false_r in Hk.
  destruct (Z.ltb_spec ny 0); [lia |]. rewrite andb_false_r in Hk.
  discriminate Hk.
Qed.

Lemma mapM_app (A B : Type) (f : A -> result B) (xs ys : list A) :
  Py.mapM f (xs ++ ys)
  = (bs <- Py.mapM f xs ;; cs <- Py.mapM f ys ;; Ok (bs ++ cs)).
Proof.
  induction xs as [| a xs IH]; simpl.
  - destruct (Py.mapM f ys); reflexivity.
  - destruct (f a); simpl; [| reflexivity]. rewrite IH.
    destruct (Py.mapM f xs); simpl; [| reflexivity].
    destruct (Py.mapM f ys); reflexivity.
Qed.

Lemma VStack_matvec_app (ops1 ops2 : list LinearOperator) (x : list R) :
  VStack_matvec matvec (ops1 ++ ops2) x
  = (u1 <- VStack_matvec matvec ops1 x ;;
     u2 <- VStack_matvec matvec ops2 x ;; Ok (u1 ++ u2)).
Proof.
  induction ops1 as [| o ops1 IH]; simpl.
  - destruct (VStack_matvec matvec ops2 x); reflexivity.
  - destruct (matvec o x); simpl; [| reflexivity]. rewrite IH.
    destruct (VStack_matvec matvec ops1 x); simpl; [| reflexivity].
    destruct (VStack_matvec matvec ops2 x); simpl; [| reflexivity].
    now rewrite app_assoc.
Qed.

(** The forward of the operator of a list of angles, in terms of its blocks. *)
Lemma RadonRotate_matvec_blocks (dims : Z * Z) (inner : Z) (thetas : list R)
      (Radop : LinearOperator) (x : list R) :
  RadonRotate dims inner thetas = Ok Radop ->
  exists Rops,
    Py.mapM (angle_block dims inner) thetas = Ok Rops /\
    matvec Radop x
    = if negb (Z.of_nat (length x) =? fst dims * snd dims) then dimension_mismatch
      else VStack_matvec matvec Rops x.
Proof.
  intros H. pose proof (RadonRotate_shape _ _ _ _ H) as Hs.
  apply RadonRotate_Ok_inv in H. destruct H as (Rops & HR & -> & _).
  exists Rops. split; [exact HR |].
  rewrite matvec_eq, Hs. reflexivity.
Qed.

End MarginAndAngles.

(** X3.  With [inner = 0] the operator is built, but it cannot be applied
    when 0 is among the angles: for every input the forward raises,
    because [Bilinear] reads the neighbour to the right of each pixel, and
    the pixels of the last column have none. *)
Theorem no_margin_forward_raises
        (nx ny : Z) (thetas : list R) (Radop : LinearOperator) (x : list R) :
  (1 <= nx)%Z -> (1 <= ny)%Z -> In 0%R thetas ->
  RadonRotate (nx, ny) 0 thetas = Ok Radop ->
  exists e, matvec Radop x = Raise e.
Proof.
  intros Hnx Hny Hin H.
  destruct (matvec Radop x) as [u | e] eqn:E; [| exists e; reflexivity].
  exfalso.
  destruct (RadonRotate_matvec_blocks _ _ _ _ x H) as (Rops & HR & HM).
  rewrite E in HM. cbn [fst snd] in HM.
  destruct (negb _); [discriminate |]. symmetry in HM.
  apply VStack_matvec_Ok_blocks in HM.
  apply mapM_Forall2 in HR.
  destruct (Forall2_In_l _ _ _ _ _ _ HR Hin) as (o & Ho & Hb).
  rewrite Forall_forall in HM. destruct (HM o Ho) as [v Hv].
  exact (angle_zero_block_no_margin nx ny o x v Hnx Hny Hb Hv).
Qed.

Lemma no_margin_forward_raises_witness :
  exists Radop e,
    RadonRotate (2, 2)%Z 0 [0%R] = Ok Radop /\
    matvec Radop [1; 2; 3; 4]%R = Raise e.
Proof.
  destruct (RadonRotate_Ok 2 2 0 [0%R]) as [Radop H];
    [discriminate | lia | lia |].
  destruct (no_margin_forward_raises 2 2 [0%R] Radop [1; 2; 3; 4]%R) as [e He];
    [lia | lia | left; reflexivity | exact H |].
  exists Radop, e. split; assumption.
Defined.

(** X4.  The operator of two lists of angles put one after the other
    projects as the two operators do one after the other: its output is the
    output for the first list followed by the output for the second, and
    it raises what the first of them to fail raises. *)
Theorem angles_concatenate
        (dims : Z * Z) (inner : Z) (thetas1 thetas2 : list R)
        (Radop : LinearOperator) :
  thetas1 <> [] -> thetas2 <> [] ->
  RadonRotate dims inner (thetas1 ++ thetas2) = Ok Radop ->
  exists Radop1 Radop2,
    RadonRotate dims inner thetas1 = Ok Radop1 /\
    RadonRotate dims inner thetas2 = Ok Radop2 /\
    forall x,
      matvec Radop x
      = (u1 <- matvec Radop1 x ;; u2 <- matvec Radop2 x ;; Ok (u1 ++ u2)).
Proof.
  intros H1 H2 H.
  destruct (RadonRotate_Ok_inv _ _ _ _ H) as (Rops & HR & _ & _ & _ & HF).
  rewrite mapM_app in HR. bind_inv HR. rename a into R1.
  bind_inv HR. rename a into R2. inversion HR; subst Rops; clear HR.
  assert (G : forall ts Rs,
             ts <> [] -> Py.mapM (angle_block dims inner) ts = Ok Rs ->
             Forall (fun o => well_formed o /\
                              shape o = ((snd dims - inner)%Z, (fst dims * snd dims)%Z)) Rs ->
             RadonRotate dims inner ts = Ok (VStackOp Rs)).
  { intros ts Rs Hne HRs F. rewrite RadonRotate_blocks, HRs. simpl Py.bind.
    unfold VStack. destruct Rs as [| o rest].
    - apply mapM_length in HRs. destruct ts; [congruence | discriminate].
    - inversion F as [| ? ? [_ Ho] Hrest]; subst.
      assert (E : forallb (fun o' => (snd (shape o') =? snd (shape o))%Z) rest = true).
      { apply forallb_forall. intros o' Ho'. rewrite Forall_forall in Hrest.
        destruct (Hrest o' Ho') as [_ Ho'']. rewrite Ho'', Ho. apply Z.eqb_refl. }
      now rewrite E. }
  apply Forall_app in HF. destruct HF as [F1 F2].
  pose proof (G thetas1 R1 H1 Ha F1) as HR1.
  pose proof (G thetas2 R2 H2 Ha0 F2) as HR2.
  exists (VStackOp R1), (VStackOp R2). split; [exact HR1 |]. split; [exact HR2 |].
  intros x.
  destruct (RadonRotate_matvec_blocks _ _ _ _ x H) as (Rops & HRs & ->).
  destruct (RadonRotate_matvec_blocks _ _ _ _ x HR1) as (Rops1 & HRs1 & ->).
  destruct (RadonRotate_matvec_blocks _ _ _ _ x HR2) as (Rops2 & HRs2 & ->).
  rewrite mapM_app, Ha, Ha0 in HRs. simpl in HRs. inversion HRs; subst Rops.
  rewrite Ha in HRs1. inversion HRs1; subst Rops1.
  rewrite Ha0 in HRs2. inversion HRs2; subst Rops2.
  destruct (negb _); [reflexivity |]. apply VStack_matvec_app.
Qed.

Lemma angles_concatenate_witness :
  exists Radop Radop1 Radop2,
    RadonRotate (4, 4)%Z 2 ([0%R] ++ [45%R]) = Ok Radop /\
    RadonRotate (4, 4)%Z 2 [0%R] = Ok Radop1 /\
    RadonRotate (4, 4)%Z 2 [45%R] = Ok Radop2 /\
    matvec Radop (map IZR (Np.arange 16))
    = (u1 <- matvec Radop1 (map IZR (Np.arange 16)) ;;
       u2 <- matvec Radop2 (map IZR (Np.arange 16)) ;; Ok (u1 ++ u2)).
Proof.
  destruct (RadonRotate_Ok 4 4 2 ([0%R] ++ [45%R])) as [Radop H];
    [discriminate | lia | lia |].
  destruct (angles_concatenate (4, 4)%Z 2 [0%R] [45%R] Radop) as (P1 & P2 & H1 & H2 & HM);
    [discriminate | discriminate | exact H |].
  exists Radop, P1, P2. repeat split; try assumption. apply HM.
Defined.

(* ===================================================================== *)
(** ** Further results: non-negative images *)
(* ===================================================================== *)

Section Nonnegative.

Local Open Scope R_scope.

Lemma nth_nonneg (x : list R) (k : nat) :
  Forall (fun v => 0 <= v) x -> 0 <= nth k x 0.
Proof.
  intros H. destruct (Nat.lt_ge_cases k (length x)) as [Hk | Hk].
  - rewrite Forall_forall in H. apply H. now apply nth_In.
  - rewrite nth_overflow by exact Hk. lra.
Qed.

Lemma take2_nonneg (x : list R) (dims : Z * Z) (rows cols : list Z) (t : list R) :
  Forall (fun v => 0 <= v) x -> Np.take2 x dims rows cols = Ok t ->
  Forall (fun v => 0 <= v) t.
Proof.
  intros Hx H. apply take2_Ok in H. destruct H as (ks & _ & -> & _).
  apply Forall_map_iff. apply Forall_forall. intros k _. now apply nth_nonneg.
Qed.

Lemma map2_Forall (P Q S : R -> Prop) (h : R -> R -> R) (u v : list R) :
  (forall a b, P a -> Q b -> S (h a b)) ->
  Forall P u -> Forall Q v -> Forall S (Np.map2 h u v).
Proof.
  intros Hh Hu. revert v. induction Hu as [| a u Ha _ IH]; intros v Hv.
  - constructor.
  - destruct Hv as [| b v Hb Hv]; simpl; constructor; auto.
Qed.

Lemma mul_nonneg (u v : list R) :
  Forall (fun a => 0 <= a) u -> Forall (fun a => 0 <= a) v ->
  Forall (fun a => 0 <= a) (Np.mul u v).
Proof.
  apply map2_Forall. intros a b Ha Hb. now apply Rmult_le_pos.
Qed.

Lemma add_nonneg (u v : list R) :
  Forall (fun a => 0 <= a) u -> Forall (fun a => 0 <= a) v ->
  Forall (fun a => 0 <= a) (Np.add u v).
Proof.
  apply map2_Forall. intros a b Ha Hb. lra.
Qed.

(** The weights of [Bilinear] are fractional parts. *)
Lemma fractional_weights (A : Type) (f : A -> R) (pts : list A) :
  let w := map (fun p => f p - IZR (Np.floor (f p))) pts in
  Forall (fun a => 0 <= a) w /\ Forall (fun a => 0 <= a) (one_minus w).
Proof.
  cbv zeta. unfold one_minus. rewrite map_map. split;
    apply Forall_map_iff; apply Forall_forall; intros p _;
    pose proof (Zfloor_bound (f p)) as B; unfold Np.floor; lra.
Qed.

Lemma Bilinear_matvec_nonneg (dims : Z * Z) (it ib il ir : list Z)
      (wtb wlr : list R) (x u : list R) :
  Forall (fun a => 0 <= a) wtb -> Forall (fun a => 0 <= a) (one_minus wtb) ->
  Forall (fun a => 0 <= a) wlr -> Forall (fun a => 0 <= a) (one_minus wlr) ->
  Forall (fun a => 0 <= a) x ->
  Bilinear_matvec dims it ib wtb il ir wlr x = Ok u ->
  Forall (fun a => 0 <= a) u.
Proof.
  intros W1 W1' W2 W2' Hx H. unfold Bilinear_matvec in H.
  apply bind_Ok_inv in H. destruct H as (r & _ & H).
  apply bind_Ok_inv in H. destruct H as (tl & Htl & H).
  apply bind_Ok_inv in H. destruct H as (tr & Htr & H).
  apply bind_Ok_inv in H. destruct H as (bl & Hbl & H).
  apply bind_Ok_inv in H. destruct H as (br & Hbr & H).
  inversion H; subst u; clear H.
  apply (take2_nonneg x) in Htl, Htr, Hbl, Hbr; try exact Hx.
  repeat apply add_nonneg; repeat apply mul_nonneg; assumption.
Qed.

Lemma fold_add_nonneg (rows : list (list R)) (acc : list R) :
  Forall (Forall (fun a => 0 <= a)) rows -> Forall (fun a => 0 <= a) acc ->
  Forall (fun a => 0 <= a) (fold_left Np.add rows acc).
Proof.
  intros H. revert acc. induction H as [| r rows Hr _ IH]; intros acc Hacc; simpl.
  - exact Hacc.
  - apply IH. now apply add_nonneg.
Qed.

Lemma rows_of_nonneg (M N : nat) (x : list R) :
  Forall (fun a => 0 <= a) x ->
  Forall (Forall (fun a => 0 <= a)) (Np.rows_of M N x).
Proof.
  revert x. induction M as [| M IH]; intros x Hx; simpl; constructor.
  - apply Forall_forall. intros a Ha. rewrite Forall_forall in Hx. apply Hx.
    rewrite <- (firstn_skipn N x). apply in_or_app. now left.
  - apply IH. apply Forall_forall. intros a Ha. rewrite Forall_forall in Hx.
    apply Hx. rewrite <- (firstn_skipn N x). apply in_or_app. now right.
Qed.

Lemma sum_nonneg (r : list R) :
  Forall (fun a => 0 <= a) r -> 0 <= fold_right Rplus 0 r.
Proof. induction 1 as [| a r Ha _ IH]; simpl; lra. Qed.

Lemma Sum_matvec_nonneg (dims : Z * Z) (axis : Z) (x u : list R) :
  Forall (fun a => 0 <= a) x -> Sum_matvec dims axis x = Ok u ->
  Forall (fun a => 0 <= a) u.
Proof.
  intros Hx H. unfold Sum_matvec in H.
  apply bind_Ok_inv in H. destruct H as (a & Ha & H).
  destruct dims as [m n]. apply reshape2_Ok in Ha. destruct Ha as (_ & _ & _ & ->).
  inversion H; subst u; clear H.
  pose proof (rows_of_nonneg (Z.to_nat m) (Z.to_nat n) x Hx) as Hr.
  destruct (axis =? 0)%Z.
  - unfold Np.sum_axis0. apply fold_add_nonneg; [exact Hr |].
    unfold Np.zeros. apply Forall_forall. intros a Ha.
    apply repeat_spec in Ha. lra.
  - unfold Np.sum_axis1. apply Forall_map_iff.
    eapply Forall_impl; [| exact Hr]. intros r. apply sum_nonneg.
Qed.

Lemma angle_block_nonneg (dims : Z * Z) (inner : Z) (theta : R)
      (o : LinearOperator) (x u : list R) :
  angle_block dims inner theta = Ok o ->
  Forall (fun a => 0 <= a) x -> matvec o x = Ok u ->
  Forall (fun a => 0 <= a) u.
Proof.
  intros Ho Hx Hu.
  destruct (angle_block_Ok_inv _ _ _ _ Ho) as (S & B & -> & HS & HB & _).
  rewrite (Bilinear_points _ dims (rotated_window_NoDup _ _ _)) in HB.
  inversion HB; subst B; clear HB. inversion HS; subst S; clear HS.
  apply matvec_Ok_inv in Hu. destruct Hu as [_ Hu].
  apply bind_Ok_inv in Hu. destruct Hu as (w & Hw & Hu).
  apply matvec_Ok_inv in Hw. destruct Hw as [_ Hw].
  apply matvec_Ok_inv in Hu. destruct Hu as [_ Hu].
  set (pts := rotated_window dims inner (Np.deg2rad theta)) in *.
  destruct (fractional_weights _ fst pts) as [W1 W1'].
  destruct (fractional_weights _ snd pts) as [W2 W2'].
  eapply Sum_matvec_nonneg; [| exact Hu].
  eapply Bilinear_matvec_nonneg; [exact W1 | exact W1' | exact W2 | exact W2' | exact Hx | exact Hw].
Qed.

Lemma VStack_matvec_nonneg (ops : list LinearOperator) (x u : list R) :
  Forall (fun o => forall v, matvec o x = Ok v -> Forall (fun a => 0 <= a) v) ops ->
  VStack_matvec matvec ops x = Ok u -> Forall (fun a => 0 <= a) u.
Proof.
  intros H. revert u. induction H as [| o ops Ho _ IH]; intros u Hu; simpl in Hu.
  - inversion Hu. constructor.
  - apply bind_Ok_inv in Hu. destruct Hu as (y & Hy & Hu).
    apply bind_Ok_inv in Hu. destruct Hu as (ys & Hys & Hu).
    inversion Hu; subst u. apply Forall_app. split; auto.
Qed.

End Nonnegative.

(** X5.  The projection of an image without negative entries has no
    negative entries: every entry of the output is a sum of pixels with
    weights between 0 and 1. *)
Theorem projection_preserves_nonnegativity
        (dims : Z * Z) (inner : Z) (thetas : list R) (Radop : LinearOperator)
        (x u : list R) :
  RadonRotate dims inner thetas = Ok Radop ->
  Forall (fun a => (0 <= a)%R) x ->
  matvec Radop x = Ok u ->
  Forall (fun a => (0 <= a)%R) u.
Proof.
  intros H Hx Hu.
  destruct (RadonRotate_matvec_blocks _ _ _ _ x H) as (Rops & HR & HM).
  rewrite Hu in HM. destruct (negb _); [discriminate |]. symmetry in HM.
  apply (VStack_matvec_nonneg Rops x u); [| exact HM].
  apply mapM_Forall2 in HR. clear HM H Hu.
  induction HR as [| t o ts os Hto _ IH]; constructor; auto.
  intros v Hv. exact (angle_block_nonneg _ _ _ _ _ _ Hto Hx Hv).
Qed.

Lemma projection_preserves_nonnegativity_witness :
  exists Radop u,
    RadonRotate (4, 4)%Z 2 [0%R] = Ok Radop /\
    matvec Radop (map IZR (Np.arange 16)) = Ok u /\
    Forall (fun a => (0 <= a)%R) u.
Proof.
  destruct (RadonRotate_angle_zero 4 4 2 (map IZR (Np.arange 16)))
    as (Radop & HR & HM); try lia; [reflexivity |].
  exists Radop, (window_column_sums (4, 4)%Z 2 (map IZR (Np.arange 16))).
  split; [exact HR |]. split; [exact HM |].
  apply (projection_preserves_nonnegativity (4, 4)%Z 2 [0%R] Radop
           (map IZR (Np.arange 16)) _ HR); [| exact HM].
  apply Forall_map_iff. apply Forall_forall. intros k Hk.
  apply arange_In in Hk. apply IZR_le. lia.
Defined.

(* ===================================================================== *)
(** ** Further results: the rows of the sinogram *)
(* ===================================================================== *)

Section SinogramRows.

Lemma fold_add_length (n : nat) (rows : list (list R)) (acc : list R) :
  Forall (fun r => length r = n) rows -> length acc = n ->
  length (fold_left Np.add rows acc) = n.
Proof.
  intros H. revert acc. induction H as [| r rows Hr _ IH]; intros acc Hacc; simpl.
  - exact Hacc.
  - apply IH. rewrite add_length; congruence.
Qed.

Lemma Sum_matvec_axis0_length (m n : Z) (w y : list R) :
  Sum_matvec (m, n) 0 w = Ok y ->
  (0 <= m)%Z /\ (0 <= n)%Z /\ length y = Z.to_nat n.
Proof.
  intros H. unfold Sum_matvec in H.
  apply bind_Ok_inv in H. destruct H as (a & Ha & H).
  apply reshape2_Ok in Ha. destruct Ha as (Hm & Hn & Lw & ->).
  inversion H; subst y; clear H. split; [exact Hm |]. split; [exact Hn |].
  simpl. unfold Np.sum_axis0. apply fold_add_length.
  - now apply rows_of_Forall.
  - apply zeros_length.
Qed.

(** The output of the block of one angle has [ny - inner] entries. *)
Lemma angle_block_output_length (dims : Z * Z) (inner : Z) (theta : R)
      (o : LinearOperator) (x y : list R) :
  angle_block dims inner theta = Ok o -> matvec o x = Ok y ->
  (0 <= snd dims - inner)%Z /\ length y = Z.to_nat (snd dims - inner).
Proof.
  intros Ho Hy.
  destruct (angle_block_Ok_inv _ _ _ _ Ho) as (S & B & -> & HS & _).
  inversion HS; subst S; clear HS.
  apply matvec_Ok_inv in Hy. destruct Hy as [_ Hy].
  apply bind_Ok_inv in Hy. destruct Hy as (w & _ & Hy).
  apply matvec_Ok_inv in Hy. destruct Hy as [_ Hy].
  apply Sum_matvec_axis0_length in Hy. tauto.
Qed.

Lemma RadonRotate_single (dims : Z * Z) (inner : Z) (theta : R)
      (o : LinearOperator) (x y : list R) :
  angle_block dims inner theta = Ok o -> matvec o x = Ok y ->
  exists R1, RadonRotate dims inner [theta] = Ok R1 /\ matvec R1 x = Ok y.
Proof.
  intros Ho Hy. destruct (VStack_single o x y Hy) as [HV HM].
  exists (VStackOp [o]). split; [| exact HM].
  rewrite RadonRotate_blocks. simpl Py.mapM. rewrite Ho. exact HV.
Qed.

Lemma VStack_matvec_rows (dims : Z * Z) (inner : Z) (x : list R)
      (thetas : list R) (ops : list LinearOperator) (u : list R) :
  Forall2 (fun t o => angle_block dims inner t = Ok o) thetas ops ->
  VStack_matvec matvec ops x = Ok u ->
  length u = (length thetas * Z.to_nat (snd dims - inner))%nat /\
  Forall2 (fun t row => exists R1, RadonRotate dims inner [t] = Ok R1 /\
                                   matvec R1 x = Ok row)
          thetas
          (Np.rows_of (length thetas) (Z.to_nat (snd dims - inner)) u).
Proof.
  intros H. revert u. induction H as [| t o ts os Hto _ IH]; intros u Hu; simpl in Hu.
  - inversion Hu. split; [reflexivity | constructor].
  - apply bind_Ok_inv in Hu. destruct Hu as (y & Hy & Hu).
    apply bind_Ok_inv in Hu. destruct Hu as (ys & Hys & Hu).
    inversion Hu; subst u; clear Hu.
    destruct (angle_block_output_length _ _ _ _ _ _ Hto Hy) as [_ Ly].
    destruct (IH ys Hys) as [Lys Hrows]. split.
    + rewrite length_app, Ly, Lys. simpl. reflexivity.
    + simpl. rewrite firstn_app_exact, skipn_app_exact by exact Ly.
      constructor; [| exact Hrows].
      exact (RadonRotate_single _ _ _ _ _ _ Hto Hy).
Qed.

End SinogramRows.

(** X6.  When the forward product of the operator returns, its output can
    be reshaped to [(len(thetas), ny - inner)] without error, and row [k]
    of the result is the projection of the image at the angle
    [thetas[k]] alone: the output of the operator built for that single
    angle. *)
Theorem sinogram_rows (dims : Z * Z) (inner : Z) (thetas : list R)
        (Radop : LinearOperator) (x u : list R) :
  RadonRotate dims inner thetas = Ok Radop ->
  matvec Radop x = Ok u ->
  exists rows,
    Np.reshape2 u (Z.of_nat (length thetas), (snd dims - inner)%Z) = Ok rows /\
    Forall2 (fun theta row =>
               exists R1, RadonRotate dims inner [theta] = Ok R1 /\
                          matvec R1 x = Ok row)
            thetas rows.
Proof.
  intros H Hu.
  destruct (RadonRotate_matvec_blocks _ _ _ _ x H) as (Rops & HR & HM).
  rewrite Hu in HM. destruct (negb _); [discriminate |]. symmetry in HM.
  pose proof (RadonRotate_Ok_inv _ _ _ _ H) as (Rops' & HR' & _ & Hne & _).
  apply mapM_Forall2 in HR.
  destruct (VStack_matvec_rows _ _ _ _ _ _ HR HM) as [Lu Hrows].
  assert (Hn : (0 <= snd dims - inner)%Z).
  { destruct HR as [| t o ts os Hto _]; [congruence |].
    simpl in HM. apply bind_Ok_inv in HM. destruct HM as (y & Hy & _).
    exact (proj1 (angle_block_output_length _ _ _ _ _ _ Hto Hy)). }
  exists (Np.rows_of (length thetas) (Z.to_nat (snd dims - inner)) u).
  split; [| exact Hrows].
  unfold Np.reshape2.
  replace ((0 <=? Z.of_nat (length thetas)) && (0 <=? snd dims - inner)
           && (Z.of_nat (length u) =? Z.of_nat (length thetas) * (snd dims - inner)))%Z
    with true.
  - now rewrite Nat2Z.id.
  - symmetry. rewrite !andb_true_iff. repeat split.
    + apply Z.leb_le. lia.
    + apply Z.leb_le. exact Hn.
    + apply Z.eqb_eq. rewrite Lu, Nat2Z.inj_mul, Z2Nat.id by exact Hn. reflexivity.
Qed.

Lemma sinogram_rows_witness :
  exists Radop u rows,
    RadonRotate (4, 4)%Z 2 [0%R] = Ok Radop /\
    matvec Radop (map IZR (Np.arange 16)) = Ok u /\
    Np.reshape2 u (1, 2)%Z = Ok rows /\
    Forall2 (fun theta row =>
               exists R1, RadonRotate (4, 4)%Z 2 [theta] = Ok R1 /\
                          matvec R1 (map IZR (Np.arange 16)) = Ok row)
            [0%R] rows.
Proof.
  destruct (RadonRotate_angle_zero 4 4 2 (map IZR (Np.arange 16)))
    as (Radop & HR & HM); try lia; [reflexivity |].
  destruct (sinogram_rows (4, 4)%Z 2 [0%R] Radop (map IZR (Np.arange 16)) _ HR HM)
    as (rows & Hrs & Hrows).
  exists Radop, (window_column_sums (4, 4)%Z 2 (map IZR (Np.arange 16))), rows.
  repeat split; assumption.
Defined.

(* ===================================================================== *)
(** ** Further results: the rotation of the image *)
(* ===================================================================== *)

Section RotatedImage.

Lemma rotation_Rop_Bilinear (dims : Z * Z) (inner : Z) (theta : R) :
  rotation_Rop dims inner theta
  = Bilinear [map fst (rotated_window dims inner (Np.deg2rad theta));
              map snd (rotated_window dims inner (Np.deg2rad theta))] dims.
Proof. unfold rotation_Rop. cbv zeta. now rewrite RadonRotate_XYrot_window. Qed.

Lemma RadonRotate_single_inv (dims : Z * Z) (inner : Z) (theta : R)
      (Radop : LinearOperator) :
  RadonRotate dims inner [theta] = Ok Radop ->
  exists B,
    rotation_Rop dims inner theta = Ok B /\
    Radop = VStackOp [ProductOp (SumOp ((fst dims - inner)%Z, (snd dims - inner)%Z) 0) B] /\
    snd (shape B) = (fst dims * snd dims)%Z /\
    fst (shape B) = ((fst dims - inner) * (snd dims - inner))%Z.
Proof.
  intros H. pose proof (RadonRotate_shape _ _ _ _ H) as Hs.
  apply RadonRotate_Ok_inv in H. destruct H as (Rops & HR & -> & _).
  simpl Py.mapM in HR. apply bind_Ok_inv in HR. destruct HR as (o & Ho & HR).
  inversion HR; subst Rops; clear HR.
  destruct (angle_block_Ok_inv _ _ _ _ Ho) as (S & B & -> & HS & HB & _ & Hsh).
  inversion HS; subst S; clear HS.
  exists B. rewrite rotation_Rop_Bilinear. split; [exact HB |]. split; [reflexivity |].
  unfold angle_block in Ho. simpl Py.bind in Ho. rewrite HB in Ho. simpl Py.bind in Ho.
  unfold Product in Ho. cbn [shape fst snd] in Ho.
  destruct (_ =? _)%Z eqn:E in Ho; [| discriminate].
  apply Z.eqb_eq in E. apply (f_equal snd) in Hsh. cbn [shape fst snd] in Hsh.
  split; [exact Hsh | symmetry; exact E].
Qed.

Lemma imagerot_eq (dims : Z * Z) (inner : Z) (theta : R) (B : LinearOperator)
      (x : list R) :
  rotation_Rop dims inner theta = Ok B ->
  imagerot dims inner theta x
  = (v <- matvec B x ;; Np.reshape2 v ((fst dims - inner)%Z, (snd dims - inner)%Z)).
Proof. intros H. unfold imagerot. rewrite H. reflexivity. Qed.

Lemma angle_block_rotation_Rop (dims : Z * Z) (inner : Z) (theta : R)
      (S B : LinearOperator) :
  angle_block dims inner theta = Ok (ProductOp S B) ->
  rotation_Rop dims inner theta = Ok B.
Proof.
  intros H. destruct (angle_block_Ok_inv _ _ _ _ H) as (S' & B' & E & _ & HB & _).
  injection E as _ ->. rewrite rotation_Rop_Bilinear. exact HB.
Qed.

End RotatedImage.

(** X7.  For a single angle and a window not larger than the image, the
    projection is the rotated image summed over its rows: the forward
    product of [RadonRotate(dims, inner, [theta])] returns [u] exactly when
    the cell that rotates the image by [theta] returns an array [imagerot]
    of [nx - inner] rows with [u = imagerot.sum(axis=0)]. *)
Theorem projection_sums_rotated_image
        (dims : Z * Z) (inner : Z) (theta : R) (Radop : LinearOperator)
        (x u : list R) :
  (inner <= fst dims)%Z -> (inner <= snd dims)%Z ->
  RadonRotate dims inner [theta] = Ok Radop ->
  matvec Radop x = Ok u <->
  exists rot, imagerot dims inner theta x = Ok rot /\
              u = Np.sum_axis0 (Z.to_nat (snd dims - inner)) rot.
Proof.
  intros _ _ H. destruct (RadonRotate_single_inv _ _ _ _ H) as (B & HB & -> & Hc & Hr).
  rewrite (imagerot_eq _ _ _ _ x HB). split.
  - intros Hu. apply matvec_Ok_inv in Hu. destruct Hu as [_ Hu].
    remember (ProductOp (SumOp ((fst dims - inner)%Z, (snd dims - inner)%Z) 0) B)
      as o eqn:Eo.
    simpl in Hu. apply bind_Ok_inv in Hu. destruct Hu as (y & Hy & Hu).
    inversion Hu; subst u; clear Hu. rewrite app_nil_r. subst o.
    apply matvec_Ok_inv in Hy. destruct Hy as [_ Hy].
    apply bind_Ok_inv in Hy. destruct Hy as (w & Hw & Hy).
    apply matvec_Ok_inv in Hy. destruct Hy as [_ Hy].
    unfold Sum_matvec in Hy. apply bind_Ok_inv in Hy. destruct Hy as (a & Ha & Hy).
    inversion Hy; subst y; clear Hy.
    exists a. rewrite Hw. split; [exact Ha | reflexivity].
  - intros (rot & Hrot & ->).
    apply bind_Ok_inv in Hrot. destruct Hrot as (w & Hw & Hrot).
    pose proof (matvec_Ok_inv _ _ _ Hw) as [Lx _].
    pose proof (reshape2_Ok _ _ _ _ Hrot) as (Hm & Hn & Lw & _).
    apply VStack_single.
    rewrite (matvec_checked (ProductOp _ _)) by (cbn [shape fst snd]; exact Lx).
    rewrite Hw. unfold Py.bind at 1. cbv beta iota.
    rewrite matvec_checked.
    + unfold Sum_matvec. rewrite Hrot. reflexivity.
    + cbn [shape fst snd]. rewrite Lw, Nat2Z.inj_mul, !Z2Nat.id by assumption.
      reflexivity.
Qed.

Lemma projection_sums_rotated_image_witness :
  exists Radop rot,
    RadonRotate (4, 4)%Z 2 [0%R] = Ok Radop /\
    imagerot (4, 4)%Z 2 0 (map IZR (Np.arange 16)) = Ok rot /\
    window_column_sums (4, 4)%Z 2 (map IZR (Np.arange 16))
    = Np.sum_axis0 (Z.to_nat 2) rot.
Proof.
  destruct (RadonRotate_angle_zero 4 4 2 (map IZR (Np.arange 16)))
    as (Radop & HR & HM); try lia; [reflexivity |].
  destruct (proj1 (projection_sums_rotated_image (4, 4)%Z 2 0 Radop
                     (map IZR (Np.arange 16)) _ ltac:(simpl; lia) ltac:(simpl; lia) HR)
                  HM) as (rot & Hrot & E).
  exists Radop, rot. repeat split; assumption.
Defined.

(** X8.  Rotating by the angle 0 changes nothing: with a margin
    [1 <= inner <= nx, ny] the rotated image is the window of the image
    itself, entry [(i, j)] being pixel [(i + inner//2, j + inner//2)]. *)
Theorem rotation_by_zero_is_window (nx ny inner : Z) (x : list R) :
  (1 <= inner)%Z -> (inner <= nx)%Z -> (inner <= ny)%Z ->
  Z.of_nat (length x) = (nx * ny)%Z ->
  imagerot (nx, ny) inner 0 x = Ok (window_pixels (nx, ny) inner x).
Proof.
  intros Hi Hx Hy Lx.
  pose proof (angle_zero_fields nx ny inner Hx Hy) as Hb. cbv zeta in Hb.
  pose proof (angle_block_rotation_Rop _ _ _ _ _ Hb) as HB.
  rewrite (imagerot_eq _ _ _ _ x HB).
  rewrite matvec_checked by exact Lx. cbv iota.
  set (f := fun p : Z * Z => (fst p + nx / 2)%Z).
  set (g := fun p : Z * Z => (snd p + ny / 2)%Z).
  assert (E : Bilinear_matvec (nx, ny)
                (map f (window (nx, ny) inner))
                (map (fun p => (f p + 1)%Z) (window (nx, ny) inner))
                (map (fun _ => 0%R) (window (nx, ny) inner))
                (map g (window (nx, ny) inner))
                (map (fun p => (g p + 1)%Z) (window (nx, ny) inner))
                (map (fun _ => 0%R) (window (nx, ny) inner)) x
              = Ok (map (fun p => nth (Z.to_nat (f p * ny + g p)) x 0%R)
                        (window (nx, ny) inner))).
  { apply Bilinear_matvec_whole; try lia; try exact Lx.
    intros p Hp. apply window_In in Hp. unfold f, g. cbn [fst snd] in Hp.
    clear - Hp Hi Hx Hy. destruct p as [a b]. cbn [fst snd] in *.
    pose proof (Z.div_mod inner 2). pose proof (Z.mod_pos_bound inner 2). lia. }
  unfold f at 2, g at 2 in E. rewrite E. clear E.
  simpl Py.bind. cbn [fst snd].
  set (v := fun p : Z * Z => nth (Z.to_nat (f p * ny + g p)) x 0%R).
  unfold window.
  set (xs := map (fun k => (k - nx / 2 + inner / 2)%Z) (Np.arange (nx - inner))).
  set (ys := map (fun k => (k - ny / 2 + inner / 2)%Z) (Np.arange (ny - inner))).
  assert (Lxs : Z.of_nat (length xs) = (nx - inner)%Z)
    by (unfold xs; rewrite length_map, arange_length; lia).
  assert (Lys : Z.of_nat (length ys) = (ny - inner)%Z)
    by (unfold ys; rewrite length_map, arange_length; lia).
  unfold Np.reshape2.
  replace ((0 <=? nx - inner) && (0 <=? ny - inner)
           && (Z.of_nat (length (map v (list_prod xs ys))) =? (nx - inner) * (ny - inner)))%Z
    with true.
  2:{ symmetry. rewrite !andb_true_iff. repeat split.
      - apply Z.leb_le. lia.
      - apply Z.leb_le. lia.
      - apply Z.eqb_eq. rewrite length_map, length_prod, Nat2Z.inj_mul. lia. }
  f_equal. rewrite <- Lxs, <- Lys, !Nat2Z.id, rows_of_list_prod.
  unfold window_pixels, xs, ys. cbn [fst snd]. rewrite !map_map.
  apply map_ext. intros i. rewrite map_map. apply map_ext. intros j.
  unfold v, f, g, window_pixel. cbn [fst snd]. f_equal. f_equal. lia.
Qed.

Lemma rotation_by_zero_is_window_witness :
  imagerot (4, 4)%Z 2 0 (map IZR (Np.arange 16))
  = Ok (window_pixels (4, 4)%Z 2 (map IZR (Np.arange 16))).
Proof.
  apply (rotation_by_zero_is_window 4 4 2 (map IZR (Np.arange 16))); try lia.
  reflexivity.
Defined.

(* ===================================================================== *)
(** ** Further results: the reconstruction error *)
(* ===================================================================== *)

Section ErrorIsDistance.

Local Open Scope R_scope.

Lemma row_squares_nonneg (r1 r2 : list R) :
  0 <= fold_right Rplus 0 (Np.map2 (fun u v => (u - v) * (u - v)) r1 r2).
Proof.
  revert r2. induction r1 as [| a r1 IH]; intros [| b r2]; simpl; try lra.
  specialize (IH r2). pose proof (Rle_0_sqr (a - b)) as Q. unfold Rsqr in Q. lra.
Qed.

Lemma row_squares_zero (r1 r2 : list R) :
  length r1 = length r2 ->
  fold_right Rplus 0 (Np.map2 (fun u v => (u - v) * (u - v)) r1 r2) = 0 <-> r1 = r2.
Proof.
  revert r2. induction r1 as [| a r1 IH]; intros [| b r2] L; simpl in *;
    try discriminate; [tauto |].
  injection L as L. specialize (IH r2 L).
  pose proof (row_squares_nonneg r1 r2) as N. split.
  - intros H. pose proof (Rle_0_sqr (a - b)) as Q. unfold Rsqr in Q.
    assert (Hab : (a - b) * (a - b) = 0) by lra.
    assert (Hr : fold_right Rplus 0 (Np.map2 (fun u v => (u - v) * (u - v)) r1 r2) = 0)
      by lra.
    f_equal; [| now apply IH].
    apply Rmult_integral in Hab. lra.
  - intros H. injection H as -> E. apply IH in E. rewrite E. ring.
Qed.

Lemma squared_differences_nonneg (a b : list (list R)) :
  0 <= squared_differences a b.
Proof.
  unfold squared_differences. revert b.
  induction a as [| r a IH]; intros [| s b]; simpl; try lra.
  specialize (IH b). pose proof (row_squares_nonneg r s). lra.
Qed.

Lemma squared_differences_zero (m n : nat) (a b : list (list R)) :
  has_shape a m n -> has_shape b m n ->
  squared_differences a b = 0 <-> a = b.
Proof.
  intros [La Ha] [Lb Hb]. subst m. revert b Lb Hb.
  induction Ha as [| r a Hr Ha IH]; intros [| s b] Lb Hb; simpl in Lb;
    try discriminate; [unfold squared_differences; simpl; tauto |].
  injection Lb as Lb. inversion Hb as [| ? ? Hs Hb']; subst.
  specialize (IH b Lb Hb').
  pose proof (squared_differences_nonneg a b) as N.
  pose proof (row_squares_nonneg r s) as Nr.
  pose proof (row_squares_zero r s ltac:(congruence)) as Z.
  unfold squared_differences in *. simpl. split.
  - intros H. f_equal; [apply Z | apply IH]; lra.
  - intros H. injection H as E1 E2. apply Z in E1. apply IH in E2. lra.
Qed.

Lemma squared_differences_sym (a b : list (list R)) :
  squared_differences a b = squared_differences b a.
Proof.
  unfold squared_differences. revert b.
  induction a as [| r a IH]; intros [| s b]; simpl; try reflexivity.
  rewrite IH. f_equal. clear. revert s.
  induction r as [| u r IH]; intros [| v s]; simpl; try reflexivity.
  rewrite IH. ring.
Qed.

Lemma nth_interior (A : Type) (b : nat) (l : list A) (k : nat) (d : A) :
  (k < length l - 2 * b)%nat -> nth k (interior b l) d = nth (b + k) l d.
Proof.
  intros H. unfold interior. rewrite nth_firstn.
  destruct (Nat.ltb_spec k (length l - 2 * b)); [| lia]. apply nth_skipn.
Qed.

Lemma nth_interior2 (b m n : nat) (a : list (list R)) (i j : nat) :
  has_shape a m n -> (i < m - 2 * b)%nat -> (j < n - 2 * b)%nat ->
  nth j (nth i (interior2 b a) []) 0 = nth (b + j) (nth (b + i) a []) 0.
Proof.
  intros [La Ha] Hi Hj. unfold interior2.
  change (@nil R) with (interior b (@nil R)) at 1. rewrite map_nth.
  rewrite (nth_interior _ b a i []) by lia.
  assert (Lr : length (nth (b + i) a []) = n).
  { rewrite Forall_forall in Ha. apply Ha. apply nth_In. lia. }
  apply nth_interior. lia.
Qed.

(** Two arrays of one shape have the same interior exactly when they agree
    at every position that is not within [b] of an edge. *)
Lemma interior2_eq (b m n : nat) (a c : list (list R)) :
  has_shape a m n -> has_shape c m n ->
  interior2 b a = interior2 b c <->
  forall i j, (b <= i < m - b)%nat -> (b <= j < n - b)%nat ->
              nth j (nth i a []) 0 = nth j (nth i c []) 0.
Proof.
  intros Ha Hc. split.
  - intros E i j Hi Hj.
    pose proof (nth_interior2 b m n a (i - b) (j - b) Ha ltac:(lia) ltac:(lia)) as E1.
    pose proof (nth_interior2 b m n c (i - b) (j - b) Hc ltac:(lia) ltac:(lia)) as E2.
    rewrite E in E1. rewrite E1 in E2.
    replace (b + (i - b))%nat with i in E2 by lia.
    replace (b + (j - b))%nat with j in E2 by lia. exact E2.
  - intros H.
    destruct (interior2_shape b m n a Ha) as [La Fa].
    destruct (interior2_shape b m n c Hc) as [Lc Fc].
    apply (nth_ext _ _ [] []); [congruence |].
    intros i Hi. rewrite La in Hi.
    assert (L1 : length (nth i (interior2 b a) []) = (n - 2 * b)%nat).
    { rewrite Forall_forall in Fa. apply Fa. apply nth_In. lia. }
    assert (L2 : length (nth i (interior2 b c) []) = (n - 2 * b)%nat).
    { rewrite Forall_forall in Fc. apply Fc. apply nth_In. lia. }
    apply (nth_ext _ _ 0 0); [congruence |].
    intros j Hj. rewrite L1 in Hj.
    rewrite (nth_interior2 b m n a i j Ha Hi Hj).
    rewrite (nth_interior2 b m n c i j Hc Hi Hj).
    apply H; lia.
Qed.

End ErrorIsDistance.

(** X9.  The reconstruction error is a distance between the interiors of
    the two images: it is never negative, it does not change when the two
    images are exchanged, and it is 0 exactly when the reconstruction and
    the image agree at every pixel that is at least 25 rows and columns
    away from the edges; the pixels nearer to an edge play no part. *)
Theorem error_zero_iff_interiors_agree (m n : nat) (rec image : list (list R)) :
  has_shape rec m n -> has_shape image m n ->
  (0 <= mse_fbp rec image)%R /\
  mse_fbp rec image = mse_fbp image rec /\
  (mse_fbp rec image = 0%R <->
   forall i j, (25 <= i < m - 25)%nat -> (25 <= j < n - 25)%nat ->
               nth j (nth i rec []) 0%R = nth j (nth i image []) 0%R).
Proof.
  intros Hrec Himage.
  rewrite !mse_fbp_interior_norm. unfold interior_norm.
  split; [apply sqrt_pos |]. split.
  - now rewrite squared_differences_sym.
  - rewrite <- (interior2_eq 25 m n rec image Hrec Himage).
    rewrite <- (squared_differences_zero (m - 2 * 25) (n - 2 * 25) _ _
                  (interior2_shape 25 m n rec Hrec)
                  (interior2_shape 25 m n image Himage)).
    split.
    + apply sqrt_eq_0. apply squared_differences_nonneg.
    + intros ->. apply sqrt_0.
Qed.

Lemma error_zero_iff_interiors_agree_witness :
  mse_fbp (repeat (repeat 1%R 52) 52) (repeat (repeat 0%R 52) 52)
  = mse_fbp (repeat (repeat 0%R 52) 52) (repeat (repeat 1%R 52) 52).
Proof.
  assert (H1 : has_shape (repeat (repeat 1%R 52) 52) 52 52)
    by (split; [reflexivity | repeat constructor]).
  assert (H0 : has_shape (repeat (repeat 0%R 52) 52) 52 52)
    by (split; [reflexivity | repeat constructor]).
  exact (proj1 (proj2 (error_zero_iff_interiors_agree 52 52 _ _ H1 H0))).
Defined.

Section CropForAnyPad.

Lemma slice_pad (A : Type) (pad : Z) (l : list A) :
  (1 <= pad <= Z.of_nat (length l))%Z ->
  Py.slice (Py.floordiv pad 2) (Py.floordiv (- pad) 2) l
  = firstn (length l - Z.to_nat pad) (skipn (Z.to_nat (pad / 2)) l).
Proof.
  intros H. unfold Py.slice, Py.slice_bound, Py.floordiv. cbv zeta.
  destruct (Z.ltb_spec (pad / 2) 0) as [C | C];
    [exfalso; clear - H C; Z.to_euclidean_division_equations; lia |].
  destruct (Z.ltb_spec (- pad / 2) 0) as [D | D];
    [| exfalso; clear - H D; Z.to_euclidean_division_equations; lia].
  f_equal.
  - clear - H. Z.to_euclidean_division_equations. lia.
  - f_equal. clear - H. Z.to_euclidean_division_equations. lia.
Qed.

Lemma nth_slice_pad (A : Type) (pad : Z) (l : list A) (k : nat) (d : A) :
  (1 <= pad <= Z.of_nat (length l))%Z ->
  (k < length l - Z.to_nat pad)%nat ->
  nth k (Py.slice (Py.floordiv pad 2) (Py.floordiv (- pad) 2) l) d
  = nth (Z.to_nat (pad / 2) + k) l d.
Proof.
  intros H Hk. rewrite slice_pad by exact H. rewrite nth_firstn.
  destruct (Nat.ltb_spec k (length l - Z.to_nat pad)); [| lia]. apply nth_skipn.
Qed.

Lemma length_slice_pad (A : Type) (pad : Z) (l : list A) :
  (1 <= pad <= Z.of_nat (length l))%Z ->
  length (Py.slice (Py.floordiv pad 2) (Py.floordiv (- pad) 2) l)
  = (length l - Z.to_nat pad)%nat.
Proof.
  intros H. rewrite slice_pad by exact H. rewrite length_firstn, length_skipn.
  assert (Z.to_nat (pad / 2) <= Z.to_nat pad)%nat; [| lia].
  apply Z2Nat.inj_le; clear - H; Z.to_euclidean_division_equations; lia.
Qed.

Lemma In_slice (A : Type) (s e : Z) (l : list A) (a : A) :
  In a (Py.slice s e l) -> In a l.
Proof.
  unfold Py.slice. cbv zeta. intros H.
  set (k := Z.to_nat (Py.slice_bound (Z.of_nat (length l)) s)) in *.
  set (c := Z.to_nat _) in H.
  rewrite <- (firstn_skipn k l). apply in_or_app. right.
  rewrite <- (firstn_skipn c (skipn k l)).
  apply in_or_app. left. exact H.
Qed.

End CropForAnyPad.

(** X10.  With [pad = 0] the two slices [pad//2:-pad//2] are [0:0] and
    select nothing: the error is 0 for every pair of images, equal or
    not. *)
Theorem error_without_pad_is_zero (a b : list (list R)) :
  crop 0 a = [] /\ crop_error 0 a b = 0%R.
Proof.
  assert (E : forall c : list (list R), crop 0 c = []).
  { intros c. unfold crop, getitem2, Py.slice, Py.slice_bound, Py.floordiv.
    cbv zeta. change (- 0 / 2)%Z with 0%Z. change (0 / 2)%Z with 0%Z.
    change (0 <? 0)%Z with false. cbv iota.
    replace (Z.to_nat (Z.min 0 (Z.of_nat (length c)) - Z.min 0 (Z.of_nat (length c))))
      with O by lia.
    reflexivity. }
  split; [apply E |].
  unfold crop_error. rewrite !E. unfold Np.linalg_norm, Np.sumsq. simpl.
  apply sqrt_0.
Qed.

(** X11.  For [1 <= pad <= m, n] the slices [pad//2:-pad//2] keep
    [m - pad] rows and [n - pad] columns, starting at row and column
    [pad//2]: entry [(i, j)] of the cropped array is entry
    [(pad//2 + i, pad//2 + j)] of the array.  For an odd [pad] one more
    row and column is removed at the end than at the start. *)
Theorem crop_keeps_rows_from_half_pad
        (pad : Z) (m n : nat) (a : list (list R)) :
  has_shape a m n ->
  (1 <= pad)%Z -> (pad <= Z.of_nat m)%Z -> (pad <= Z.of_nat n)%Z ->
  has_shape (crop pad a) (m - Z.to_nat pad) (n - Z.to_nat pad) /\
  forall i j, (i < m - Z.to_nat pad)%nat -> (j < n - Z.to_nat pad)%nat ->
    nth j (nth i (crop pad a) []) 0%R
    = nth (Z.to_nat (pad / 2) + j) (nth (Z.to_nat (pad / 2) + i) a []) 0%R.
Proof.
  intros [La Ha] Hp Hm Hn. subst m.
  assert (Hrow : forall r, In r a -> length r = n)
    by (now apply Forall_forall).
  split; [split |].
  - unfold crop, getitem2. rewrite length_map. apply length_slice_pad. lia.
  - unfold crop, getitem2. apply Forall_map_iff. apply Forall_forall.
    intros r Hr. apply In_slice in Hr. apply Hrow in Hr.
    rewrite length_slice_pad; lia.
  - intros i j Hi Hj. unfold crop, getitem2.
    assert (Hq : (Z.to_nat (pad / 2) <= Z.to_nat pad)%nat)
      by (apply Z2Nat.inj_le; clear - Hp; Z.to_euclidean_division_equations; lia).
    set (sl := Py.slice (Py.floordiv pad 2) (Py.floordiv (- pad) 2)).
    assert (E : sl [] = @nil R).
    { unfold sl, Py.slice. cbv zeta. now rewrite skipn_nil, firstn_nil. }
    rewrite <- E at 1. rewrite map_nth. unfold sl.
    rewrite (nth_slice_pad _ pad a i []) by lia.
    apply nth_slice_pad.
    + rewrite Hrow; [lia |]. apply nth_In. lia.
    + rewrite Hrow; [lia |]. apply nth_In. lia.
Qed.

Lemma crop_keeps_rows_from_half_pad_witness :
  has_shape (crop 3 [[1; 2; 3; 4]; [5; 6; 7; 8]; [9; 10; 11; 12]; [13; 14; 15; 16]]%R)
            1 1.
Proof.
  assert (H : has_shape [[1; 2; 3; 4]; [5; 6; 7; 8]; [9; 10; 11; 12];
                         [13; 14; 15; 16]]%R 4 4)
    by (split; [reflexivity | repeat constructor]).
  exact (proj1 (crop_keeps_rows_from_half_pad 3 4 4 _ H
                  ltac:(lia) ltac:(lia) ltac:(lia))).
Defined.

(* ===================================================================== *)
(** ** Further results: the image that is loaded *)
(* ===================================================================== *)

Section LoadedImage.

Lemma every_second_pair (A : Type) (d : A) (l : list A) :
  (length (every_second l) = Nat.div2 (length l + 1) /\
   forall i, nth i (every_second l) d = nth (2 * i) l d) /\
  (forall a, length (every_second (a :: l)) = Nat.div2 (length (a :: l) + 1) /\
             forall i, nth i (every_second (a :: l)) d = nth (2 * i) (a :: l) d).
Proof.
  induction l as [| b l [IH1 IH2]].
  - split; [split; [reflexivity | intros [| i]; reflexivity] |].
    intros a. split; [reflexivity |].
    intros [| [| i]]; reflexivity.
  - split; [apply IH2 |].
    intros a. destruct IH1 as [L N]. split.
    + simpl. rewrite L. replace (length l + 1)%nat with (S (length l)) by lia.
      replace (length l + 0)%nat with (length l) by lia.
      destruct (length l); reflexivity.
    + intros [| i]; [reflexivity |].
      replace (2 * S i)%nat with (S (S (2 * i))) by lia.
      simpl nth. apply N.
Qed.

Lemma every_second_length (A : Type) (l : list A) :
  length (every_second l) = Nat.div2 (length l + 1).
Proof.
  destruct l as [| a l]; [reflexivity |].
  exact (proj1 (proj2 (every_second_pair A a l) a)).
Qed.

Lemma every_second_nth (A : Type) (l : list A) (i : nat) (d : A) :
  nth i (every_second l) d = nth (2 * i) l d.
Proof. exact (proj2 (proj1 (every_second_pair A d l)) i). Qed.

Lemma every_second_In (A : Type) (l : list A) (a : A) :
  In a (every_second l) -> In a l.
Proof.
  intros H. destruct (In_nth _ _ a H) as (i & Hi & E).
  rewrite every_second_nth in E. rewrite <- E. apply nth_In.
  rewrite every_second_length in Hi.
  pose proof (Nat.div2_odd (length l + 1)) as D.
  destruct (Nat.odd (length l + 1)); simpl Nat.b2n in D; lia.
Qed.

Lemma decimate_shape (m n : nat) (a : list (list R)) :
  has_shape a m n ->
  has_shape (map every_second (every_second a)) (Nat.div2 (m + 1)) (Nat.div2 (n + 1)).
Proof.
  intros [La Ha]. split.
  - rewrite length_map, every_second_length. now rewrite La.
  - apply Forall_map_iff. apply Forall_forall. intros r Hr.
    apply every_second_In in Hr. rewrite Forall_forall in Ha.
    rewrite every_second_length. now rewrite (Ha r Hr).
Qed.

Lemma decimate_entry (a : list (list R)) (i j : nat) :
  nth j (nth i (map every_second (every_second a)) []) 0%R
  = nth (2 * j) (nth (2 * i) a []) 0%R.
Proof.
  change (@nil R) with (every_second (@nil R)) at 1.
  rewrite map_nth. now rewrite !every_second_nth.
Qed.

Lemma nth_zeros (k i : nat) : nth i (Np.zeros k) 0%R = 0%R.
Proof.
  unfold Np.zeros. destruct (Nat.lt_ge_cases i k).
  - now apply nth_repeat_lt.
  - apply nth_overflow. now rewrite repeat_length.
Qed.

Lemma nth_blank_rows (k w i j : nat) :
  nth j (nth i (repeat (Np.zeros w) k) []) 0%R = 0%R.
Proof.
  destruct (Nat.lt_ge_cases i k).
  - rewrite nth_repeat_lt by assumption. apply nth_zeros.
  - rewrite (nth_overflow (repeat (Np.zeros w) k) [])
      by (now rewrite repeat_length).
    now destruct j.
Qed.

(** The padded array is 0 outside the array that was padded. *)
Lemma pad_constant_border (p : Z) (m n : nat) (a image : list (list R)) (i j : nat) :
  has_shape a m n -> pad_constant p n a = Ok image ->
  (i < Z.to_nat p \/ Z.to_nat p + m <= i \/ j < Z.to_nat p \/ Z.to_nat p + n <= j)%nat ->
  nth j (nth i image []) 0%R = 0%R.
Proof.
  intros [Hm Hn]. unfold pad_constant.
  destruct (Z.ltb_spec p 0); [discriminate |]. intros E. inversion E; subst; clear E.
  set (k := Z.to_nat p). intros Hij.
  destruct (Nat.lt_ge_cases i k) as [Hi | Hi].
  { rewrite app_nth1 by (now rewrite repeat_length). apply nth_blank_rows. }
  rewrite app_nth2 by (rewrite repeat_length; lia). rewrite repeat_length.
  destruct (Nat.lt_ge_cases (i - k) (length a)) as [Hi' | Hi'].
  2:{ rewrite app_nth2 by (rewrite length_map; lia). apply nth_blank_rows. }
  rewrite app_nth1 by (rewrite length_map; lia).
  rewrite (nth_indep _ [] (Np.zeros k ++ [] ++ Np.zeros k))
    by (rewrite length_map; lia).
  rewrite (map_nth (fun r => Np.zeros k ++ r ++ Np.zeros k) a [] (i - k)).
  assert (Lr : length (nth (i - k) a []) = n).
  { rewrite Forall_forall in Hn. apply Hn. now apply nth_In. }
  destruct (Nat.lt_ge_cases j k) as [Hj | Hj].
  { rewrite app_nth1 by (now rewrite zeros_length). apply nth_zeros. }
  rewrite app_nth2 by (rewrite zeros_length; lia). rewrite zeros_length.
  rewrite app_nth2 by lia. apply nth_zeros.
Qed.

End LoadedImage.

(** X12.  The image the notebook works on: for a phantom of [m] by [n]
    pixels and [pad >= 0] it has [ceil(m/2) + 2 pad] rows and
    [ceil(n/2) + 2 pad] columns, its entry [(pad + i, pad + j)] is pixel
    [(2 i, 2 j)] of the phantom, and every entry in the outer [pad] rows
    and columns is 0. *)
Theorem loaded_image_pixels (pad : Z) (m n : nat) (phantom : list (list R)) :
  has_shape phantom m n -> (0 <= pad)%Z ->
  exists image,
    load_image pad n phantom = Ok image /\
    has_shape image (Z.to_nat pad + Nat.div2 (m + 1) + Z.to_nat pad)
                    (Z.to_nat pad + Nat.div2 (n + 1) + Z.to_nat pad) /\
    (forall i j, (i < Nat.div2 (m + 1))%nat -> (j < Nat.div2 (n + 1))%nat ->
       nth (j + Z.to_nat pad) (nth (i + Z.to_nat pad) image []) 0%R
       = nth (2 * j) (nth (2 * i) phantom []) 0%R) /\
    (forall i j,
       (i < Z.to_nat pad \/ Z.to_nat pad + Nat.div2 (m + 1) <= i \/
        j < Z.to_nat pad \/ Z.to_nat pad + Nat.div2 (n + 1) <= j)%nat ->
       nth j (nth i image []) 0%R = 0%R).
Proof.
  intros Hph Hp. pose proof (decimate_shape m n phantom Hph) as Hd.
  assert (E : exists image, load_image pad n phantom = Ok image).
  { unfold load_image, pad_constant. cbv zeta.
    destruct (Z.ltb_spec pad 0); [lia |]. eexists. reflexivity. }
  destruct E as (image & E). exists image. split; [exact E |].
  unfold load_image in E. cbv zeta in E.
  split; [exact (proj2 (pad_constant_shape _ _ _ _ _ Hd E)) |]. split.
  - intros i j Hi Hj.
    rewrite (pad_constant_entry _ _ _ _ _ i j Hd E Hi Hj).
    apply decimate_entry.
  - intros i j Hij. exact (pad_constant_border _ _ _ _ _ i j Hd E Hij).
Qed.

Lemma loaded_image_pixels_witness :
  exists image,
    load_image 1 3 [[1; 2; 3]; [4; 5; 6]; [7; 8; 9]]%R = Ok image /\
    has_shape image 4 4.
Proof.
  assert (H : has_shape [[1; 2; 3]; [4; 5; 6]; [7; 8; 9]]%R 3 3)
    by (split; [reflexivity | repeat constructor]).
  destruct (loaded_image_pixels 1 3 3 _ H ltac:(lia)) as (image & E & Hs & _).
  exists image. split; [exact E | exact Hs].
Defined.


(* ===================================================================== *)
(** ** Further results: linearity *)
(* ===================================================================== *)

Section Linearity.

Local Open Scope R_scope.

Variables a b : R.

(** [a * x + b * y] *)
Local Notation "'lc' x y" := (Np.add (Np.scale a x) (Np.scale b y))
  (at level 10, x at level 9, y at level 9).

Lemma lc_cons (p q : R) (x y : list R) :
  lc (p :: x) (q :: y) = (a * p + b * q) :: lc x y.
Proof. reflexivity. Qed.

Lemma lc_length (x y : list R) :
  length x = length y -> length (lc x y) = length x.
Proof.
  intros H. unfold Np.add, Np.scale. rewrite map2_length, !length_map, <- H.
  apply Nat.min_id.
Qed.

Lemma lc_nth (x y : list R) (k : nat) :
  length x = length y -> nth k (lc x y) 0 = a * nth k x 0 + b * nth k y 0.
Proof.
  unfold Np.add, Np.scale.
  revert y k. induction x as [| p x IH]; intros [| q y] k H; simpl in H;
    try discriminate.
  - destruct k; simpl; ring.
  - destruct k as [| k]; [reflexivity |]. simpl. apply IH. congruence.
Qed.

Lemma lc_map (A : Type) (f g : A -> R) (l : list A) :
  lc (map f l) (map g l) = map (fun k => a * f k + b * g k) l.
Proof.
  unfold Np.add, Np.scale. rewrite !map_map. apply map2_map.
Qed.

Lemma lc_mul (t1 t2 w : list R) :
  length t1 = length t2 ->
  Np.mul (lc t1 t2) w = lc (Np.mul t1 w) (Np.mul t2 w).
Proof.
  unfold Np.add, Np.scale, Np.mul.
  revert t2 w. induction t1 as [| p t1 IH]; intros [| q t2] [| c w] H;
    simpl in H; try discriminate; try reflexivity.
  simpl. rewrite IH by congruence. f_equal. ring.
Qed.

Lemma lc_add (p1 p2 q1 q2 : list R) :
  length p1 = length p2 -> length q1 = length q2 ->
  Np.add (lc p1 p2) (lc q1 q2) = lc (Np.add p1 q1) (Np.add p2 q2).
Proof.
  unfold Np.add, Np.scale.
  revert p2 q1 q2.
  induction p1 as [| c p1 IH]; intros [| d p2] [| e q1] [| f q2] H1 H2;
    simpl in H1, H2; try discriminate; try reflexivity.
  simpl. rewrite IH by congruence. f_equal. ring.
Qed.

Lemma lc_app (u1 u2 v1 v2 : list R) :
  length u1 = length v1 -> lc (u1 ++ u2) (v1 ++ v2) = lc u1 v1 ++ lc u2 v2.
Proof.
  unfold Np.add, Np.scale.
  revert v1. induction u1 as [| p u1 IH]; intros [| q v1] H; simpl in H;
    try discriminate; [reflexivity |].
  simpl. f_equal. apply IH. congruence.
Qed.

Lemma map2_firstn (A B C : Type) (f : A -> B -> C) (n : nat) (u : list A) (v : list B) :
  firstn n (Np.map2 f u v) = Np.map2 f (firstn n u) (firstn n v).
Proof.
  revert u v. induction n as [| n IH]; intros [| p u] [| q v]; simpl;
    try reflexivity. now rewrite IH.
Qed.

Lemma map2_skipn (A B C : Type) (f : A -> B -> C) (n : nat) (u : list A) (v : list B) :
  skipn n (Np.map2 f u v) = Np.map2 f (skipn n u) (skipn n v).
Proof.
  revert u v. induction n as [| n IH]; intros [| p u] [| q v]; simpl;
    try reflexivity.
  - now destruct (skipn n u).
  - apply IH.
Qed.

Lemma lc_firstn (n : nat) (x y : list R) :
  firstn n (lc x y) = lc (firstn n x) (firstn n y).
Proof.
  unfold Np.add, Np.scale. now rewrite map2_firstn, !firstn_map.
Qed.

Lemma lc_skipn (n : nat) (x y : list R) :
  skipn n (lc x y) = lc (skipn n x) (skipn n y).
Proof.
  unfold Np.add, Np.scale. now rewrite map2_skipn, !skipn_map.
Qed.

Lemma lc_sum (r1 r2 : list R) :
  length r1 = length r2 ->
  fold_right Rplus 0 (lc r1 r2)
  = a * fold_right Rplus 0 r1 + b * fold_right Rplus 0 r2.
Proof.
  unfold Np.add, Np.scale.
  revert r2. induction r1 as [| p r1 IH]; intros [| q r2] H; simpl in H;
    try discriminate.
  - simpl. ring.
  - simpl. rewrite IH by congruence. ring.
Qed.

Lemma mul_length_eq (t1 t2 w : list R) :
  length t1 = length t2 -> length (Np.mul t1 w) = length (Np.mul t2 w).
Proof. intros H. unfold Np.mul. now rewrite !map2_length, H. Qed.

Lemma add_length_eq (p1 p2 q1 q2 : list R) :
  length p1 = length p2 -> length q1 = length q2 ->
  length (Np.add p1 q1) = length (Np.add p2 q2).
Proof. intros H1 H2. unfold Np.add. now rewrite !map2_length, H1, H2. Qed.

Lemma take2_lc (x y : list R) (dims : Z * Z) (rows cols : list Z) (t1 t2 : list R) :
  length x = length y ->
  Np.take2 x dims rows cols = Ok t1 -> Np.take2 y dims rows cols = Ok t2 ->
  Np.take2 (lc x y) dims rows cols = Ok (lc t1 t2) /\ length t1 = length t2.
Proof.
  intros L H1 H2. unfold Np.take2 in *.
  destruct (Py.mapM (Np.flat_index dims) (combine rows cols)) as [ks | e];
    [| discriminate].
  simpl in *. inversion H1; subst t1. inversion H2; subst t2. split.
  - f_equal. rewrite lc_map. apply map_ext. intros k. now apply lc_nth.
  - now rewrite !length_map.
Qed.

Lemma reshape2_lc (x y : list R) (dims : Z * Z) (r1 r2 : list (list R)) :
  Np.reshape2 x dims = Ok r1 -> Np.reshape2 y dims = Ok r2 ->
  length x = length y /\
  Np.reshape2 (lc x y) dims
  = Ok (Np.rows_of (Z.to_nat (fst dims)) (Z.to_nat (snd dims)) (lc x y)).
Proof.
  destruct dims as [m n]. intros H1 H2.
  pose proof (reshape2_Ok _ _ _ _ H1) as (Hm & Hn & L1 & _).
  pose proof (reshape2_Ok _ _ _ _ H2) as (_ & _ & L2 & _).
  split; [congruence |].
  unfold Np.reshape2 in *. rewrite lc_length by congruence.
  destruct (_ && _)%bool; [reflexivity | discriminate].
Qed.

Lemma Bilinear_matvec_lc (dims : Z * Z) (it ib : list Z) (wtb : list R)
      (il ir : list Z) (wlr : list R) (x y u v : list R) :
  Bilinear_matvec dims it ib wtb il ir wlr x = Ok u ->
  Bilinear_matvec dims it ib wtb il ir wlr y = Ok v ->
  Bilinear_matvec dims it ib wtb il ir wlr (lc x y) = Ok (lc u v).
Proof.
  intros H1 H2. unfold Bilinear_matvec in *.
  apply bind_Ok_inv in H1. destruct H1 as (r1 & Hr1 & H1).
  apply bind_Ok_inv in H2. destruct H2 as (r2 & Hr2 & H2).
  destruct (reshape2_lc x y dims r1 r2 Hr1 Hr2) as [L ->].
  apply bind_Ok_inv in H1. destruct H1 as (tl1 & Htl1 & H1).
  apply bind_Ok_inv in H1. destruct H1 as (tr1 & Htr1 & H1).
  apply bind_Ok_inv in H1. destruct H1 as (bl1 & Hbl1 & H1).
  apply bind_Ok_inv in H1. destruct H1 as (br1 & Hbr1 & H1).
  apply bind_Ok_inv in H2. destruct H2 as (tl2 & Htl2 & H2).
  apply bind_Ok_inv in H2. destruct H2 as (tr2 & Htr2 & H2).
  apply bind_Ok_inv in H2. destruct H2 as (bl2 & Hbl2 & H2).
  apply bind_Ok_inv in H2. destruct H2 as (br2 & Hbr2 & H2).
  inversion H1; subst u; clear H1. inversion H2; subst v; clear H2.
  destruct (take2_lc x y dims it il tl1 tl2 L Htl1 Htl2) as [-> Ltl].
  destruct (take2_lc x y dims it ir tr1 tr2 L Htr1 Htr2) as [-> Ltr].
  destruct (take2_lc x y dims ib il bl1 bl2 L Hbl1 Hbl2) as [-> Lbl].
  destruct (take2_lc x y dims ib ir br1 br2 L Hbr1 Hbr2) as [-> Lbr].
  simpl Py.bind. f_equal.
  rewrite !lc_mul by auto using mul_length_eq.
  rewrite !lc_add by auto 7 using mul_length_eq, add_length_eq.
  reflexivity.
Qed.

Lemma lc_zeros (n : nat) : lc (Np.zeros n) (Np.zeros n) = Np.zeros n.
Proof.
  unfold Np.zeros, Np.add, Np.scale. induction n as [| n IH]; [reflexivity |].
  simpl. rewrite IH. f_equal. ring.
Qed.

Lemma fold_add_rows_lc (N M : nat) (x y acc1 acc2 : list R) :
  length x = (M * N)%nat -> length y = (M * N)%nat ->
  length acc1 = N -> length acc2 = N ->
  fold_left Np.add (Np.rows_of M N (lc x y)) (lc acc1 acc2)
  = lc (fold_left Np.add (Np.rows_of M N x) acc1)
       (fold_left Np.add (Np.rows_of M N y) acc2).
Proof.
  revert x y acc1 acc2. induction M as [| M IH]; intros x y acc1 acc2 Lx Ly L1 L2.
  - reflexivity.
  - simpl Np.rows_of. simpl fold_left.
    rewrite lc_firstn, lc_skipn.
    assert (F1 : length (firstn N x) = N) by (rewrite length_firstn; lia).
    assert (F2 : length (firstn N y) = N) by (rewrite length_firstn; lia).
    rewrite lc_add by congruence.
    apply IH.
    + rewrite length_skipn. lia.
    + rewrite length_skipn. lia.
    + rewrite add_length; congruence.
    + rewrite add_length; congruence.
Qed.

Lemma sum_rows_lc (N M : nat) (x y : list R) :
  length x = (M * N)%nat -> length y = (M * N)%nat ->
  Np.sum_axis1 (Np.rows_of M N (lc x y))
  = lc (Np.sum_axis1 (Np.rows_of M N x)) (Np.sum_axis1 (Np.rows_of M N y)).
Proof.
  unfold Np.sum_axis1. revert x y. induction M as [| M IH]; intros x y Lx Ly.
  - reflexivity.
  - simpl Np.rows_of. simpl map. rewrite lc_cons.
    rewrite lc_firstn, lc_skipn.
    rewrite lc_sum by (rewrite !length_firstn; lia).
    f_equal. apply IH; rewrite length_skipn; lia.
Qed.

Lemma Sum_matvec_lc (dims : Z * Z) (axis : Z) (x y u v : list R) :
  Sum_matvec dims axis x = Ok u -> Sum_matvec dims axis y = Ok v ->
  Sum_matvec dims axis (lc x y) = Ok (lc u v).
Proof.
  intros H1 H2. unfold Sum_matvec in *.
  apply bind_Ok_inv in H1. destruct H1 as (r1 & Hr1 & H1).
  apply bind_Ok_inv in H2. destruct H2 as (r2 & Hr2 & H2).
  destruct (reshape2_lc x y dims r1 r2 Hr1 Hr2) as [L ->].
  destruct dims as [m n].
  apply reshape2_Ok in Hr1. destruct Hr1 as (Hm & Hn & L1 & ->).
  apply reshape2_Ok in Hr2. destruct Hr2 as (_ & _ & L2 & ->).
  inversion H1; subst u; clear H1. inversion H2; subst v; clear H2.
  simpl Py.bind. cbn [fst snd]. f_equal.
  destruct (axis =? 0)%Z.
  - unfold Np.sum_axis0. rewrite <- (lc_zeros (Z.to_nat n)) at 1.
    apply fold_add_rows_lc; auto using zeros_length.
  - now apply sum_rows_lc.
Qed.

Lemma VStack_matvec_lc (ops : list LinearOperator) (x y u v : list R) :
  Forall (fun o => forall u v, matvec o x = Ok u -> matvec o y = Ok v ->
                               matvec o (lc x y) = Ok (lc u v) /\
                               length u = length v) ops ->
  VStack_matvec matvec ops x = Ok u -> VStack_matvec matvec ops y = Ok v ->
  VStack_matvec matvec ops (lc x y) = Ok (lc u v).
Proof.
  intros H. revert u v. induction H as [| o ops Ho _ IH]; intros u v Hu Hv;
    simpl in Hu, Hv.
  - inversion Hu. inversion Hv. reflexivity.
  - apply bind_Ok_inv in Hu. destruct Hu as (u1 & Hu1 & Hu).
    apply bind_Ok_inv in Hu. destruct Hu as (us & Hus & Hu).
    apply bind_Ok_inv in Hv. destruct Hv as (v1 & Hv1 & Hv).
    apply bind_Ok_inv in Hv. destruct Hv as (vs & Hvs & Hv).
    inversion Hu; subst u. inversion Hv; subst v.
    destruct (Ho u1 v1 Hu1 Hv1) as [E L].
    simpl. rewrite E. simpl. rewrite (IH us vs Hus Hvs). simpl.
    now rewrite lc_app.
Qed.

(** Every operator built from [Sum], [Bilinear], products and stacks is
    linear wherever its forward returns. *)
Lemma operator_linear :
  forall op, well_formed op ->
             forall x y u v, matvec op x = Ok u -> matvec op y = Ok v ->
                             matvec op (lc x y) = Ok (lc u v).
Proof.
  intros op.
  induction op as [dims axis | dims it ib wtb il ir wlr | A B IHA IHB | ops IH]
    using LinearOperator_nested_ind; intros Hwf x y u v Hu Hv;
    apply matvec_Ok_inv in Hu; destruct Hu as [Lx Hu];
    apply matvec_Ok_inv in Hv; destruct Hv as [Ly Hv];
    (rewrite matvec_checked by (rewrite lc_length; lia)).
  - now apply Sum_matvec_lc.
  - now apply Bilinear_matvec_lc.
  - destruct Hwf as [HwA HwB].
    apply bind_Ok_inv in Hu. destruct Hu as (w1 & Hw1 & Hu).
    apply bind_Ok_inv in Hv. destruct Hv as (w2 & Hw2 & Hv).
    rewrite (IHB HwB x y w1 w2 Hw1 Hw2). simpl Py.bind.
    now apply IHA.
  - apply VStack_matvec_lc; [| exact Hu | exact Hv].
    clear Hu Hv Lx Ly. induction IH as [| o ops Ho _ IH']; constructor.
    + intros u1 v1 Hu1 Hv1. split; [apply Ho; [apply Hwf | |]; assumption |].
      destruct (operator_adjoint o (proj1 Hwf) x u1 Hu1) as (L1 & _).
      destruct (operator_adjoint o (proj1 Hwf) y v1 Hv1) as (L2 & _). lia.
    + apply IH'. apply Hwf.
Qed.

End Linearity.

(** X13.  In exact arithmetic the projection is linear: when the forward
    product returns [u] for the image [x] and [v] for the image [y], it
    returns [a u + b v] for the image [a x + b y]. *)
Theorem projection_is_linear
        (dims : Z * Z) (inner : Z) (thetas : list R) (Radop : LinearOperator)
        (a b : R) (x y u v : list R) :
  RadonRotate dims inner thetas = Ok Radop ->
  matvec Radop x = Ok u -> matvec Radop y = Ok v ->
  matvec Radop (Np.add (Np.scale a x) (Np.scale b y))
  = Ok (Np.add (Np.scale a u) (Np.scale b v)).
Proof.
  intros H Hu Hv.
  exact (operator_linear a b Radop (RadonRotate_well_formed _ _ _ _ H) x y u v Hu Hv).
Qed.

Lemma projection_is_linear_witness :
  exists Radop u,
    RadonRotate (4, 4)%Z 2 [0%R] = Ok Radop /\
    matvec Radop (map IZR (Np.arange 16)) = Ok u /\
    matvec Radop (Np.add (Np.scale 2 (map IZR (Np.arange 16)))
                         (Np.scale 3 (map IZR (Np.arange 16))))
    = Ok (Np.add (Np.scale 2 u) (Np.scale 3 u)).
Proof.
  destruct (RadonRotate_angle_zero 4 4 2 (map IZR (Np.arange 16)))
    as (Radop & HR & HM); try lia; [reflexivity |].
  exists Radop, (window_column_sums (4, 4)%Z 2 (map IZR (Np.arange 16))).
  split; [exact HR |]. split; [exact HM |].
  exact (projection_is_linear (4, 4)%Z 2 [0%R] Radop 2 3 _ _ _ _ HR HM HM).
Defined.

(* ===================================================================== *)
(** ** Further results: the samples kept by [radon_kk] *)
(* ===================================================================== *)

Section SamplingMask.

Lemma list_set_length (A : Type) (l : list A) (k : nat) (v : A) :
  length (list_set l k v) = length l.
Proof. revert k. induction l as [| e l IH]; intros [| k]; simpl; auto. Qed.

Lemma list_set_nth (A : Type) (l : list A) (k k' : nat) (v d : A) :
  nth k' (list_set l k v) d
  = if ((k' =? k) && (k <? length l))%nat then v else nth k' l d.
Proof.
  revert k k'. induction l as [| e l IH]; intros k k'.
  - simpl. rewrite andb_false_r. now destruct k.
  - destruct k as [| k], k' as [| k']; simpl; try reflexivity.
    rewrite IH. reflexivity.
Qed.

Lemma list_set_In (A : Type) (l : list A) (k : nat) (v a : A) :
  In a (list_set l k v) -> (a = v /\ (k < length l)%nat) \/ In a l.
Proof.
  revert k. induction l as [| e l IH]; intros [| k]; simpl; try tauto.
  - intros [H | H]; [left; split; [auto | lia] | tauto].
  - intros [H | H]; [tauto |]. apply IH in H.
    destruct H as [[-> Hk] | H]; [left; split; [reflexivity | lia] | tauto].
Qed.

Lemma set2_shape (M N : nat) (m : list (list R)) (i j : nat) (v : R) :
  has_shape m M N -> has_shape (set2 m i j v) M N.
Proof.
  intros [L F]. unfold set2. split.
  - now rewrite list_set_length.
  - apply Forall_forall. intros r Hr. rewrite Forall_forall in F.
    apply list_set_In in Hr. destruct Hr as [[-> Hi] | Hr]; [| now apply F].
    rewrite list_set_length. apply F. now apply nth_In.
Qed.

Lemma set2_entry (m : list (list R)) (i j i' j' : nat) (v : R) :
  nth j' (nth i' (set2 m i j v) []) 0%R
  = if ((i' =? i) && (i <? length m)
        && ((j' =? j) && (j <? length (nth i m []))))%nat
    then v else nth j' (nth i' m []) 0%R.
Proof.
  unfold set2. rewrite list_set_nth.
  destruct (Nat.eqb_spec i' i) as [-> | Hi]; simpl; [| reflexivity].
  destruct (Nat.ltb_spec i (length m)); simpl; [| reflexivity].
  apply list_set_nth.
Qed.

Lemma fold_set2_shape (M N : nat) (ijs : list (nat * nat)) (m : list (list R)) :
  has_shape m M N ->
  has_shape (fold_left (fun m ij => set2 m (fst ij) (snd ij) 1%R) ijs m) M N.
Proof.
  revert m. induction ijs as [| ij ijs IH]; intros m H; simpl; [exact H |].
  apply IH. now apply set2_shape.
Qed.

(** An entry that is not 0 stays so when entries are set to 1. *)
Lemma fold_set2_keeps (ijs : list (nat * nat)) (m : list (list R)) (i j : nat) :
  nth j (nth i m []) 0%R <> 0%R ->
  nth j (nth i (fold_left (fun m ij => set2 m (fst ij) (snd ij) 1%R) ijs m) []) 0%R
  <> 0%R.
Proof.
  revert m. induction ijs as [| ij ijs IH]; intros m H; simpl; [exact H |].
  apply IH. rewrite set2_entry. destruct (_ && _)%bool; [lra | exact H].
Qed.

Lemma fold_set2_marks (M N : nat) (ijs : list (nat * nat)) (m : list (list R))
      (i j : nat) :
  has_shape m M N -> In (i, j) ijs -> (i < M)%nat -> (j < N)%nat ->
  nth j (nth i (fold_left (fun m ij => set2 m (fst ij) (snd ij) 1%R) ijs m) []) 0%R
  <> 0%R.
Proof.
  revert m. induction ijs as [| ij ijs IH]; intros m H Hin Hi Hj; [destruct Hin |].
  simpl. destruct Hin as [-> | Hin].
  - apply fold_set2_keeps. rewrite set2_entry. cbn [fst snd].
    destruct H as [L F]. rewrite Forall_forall in F.
    assert (Lr : length (nth i m []) = N) by (apply F; apply nth_In; lia).
    rewrite !Nat.eqb_refl, Lr.
    destruct (Nat.ltb_spec i (length m)); [| lia].
    destruct (Nat.ltb_spec j N); [| lia]. simpl. lra.
  - apply IH; auto. now apply set2_shape.
Qed.

Lemma select_map (A B : Type) (F : A -> B) (T : A -> bool) (l : list A) :
  select (map F l) (map T l) = map F (filter T l).
Proof.
  unfold select. induction l as [| a l IH]; simpl; [reflexivity |].
  destruct (T a); simpl; now rewrite IH.
Qed.

Lemma mapM_pure (A B : Type) (f : A -> result B) (h : A -> B) (l : list A) :
  (forall a, In a l -> f a = Ok (h a)) -> Py.mapM f l = Ok (map h l).
Proof.
  induction l as [| a l IH]; intros H; simpl; [reflexivity |].
  rewrite (H a) by now left. simpl. rewrite IH by (intros; apply H; now right).
  reflexivity.
Qed.

Lemma np_round_0 : np_round 0 = 0%Z.
Proof.
  unfold np_round, Np.floor. cbv zeta. change 0%R with (IZR 0). rewrite ZfloorZ.
  destruct (Rlt_dec (IZR 0 - IZR 0) (1 / 2)) as [_ | H]; [reflexivity |].
  exfalso. apply H. lra.
Qed.

(** One pass of the loop: it returns when the mask is at least as wide as
    it is high, and it marks the centre. *)
Lemma radon_kk_line_Ok (nx ny : Z) (mask : list (list R)) (theta : Z) :
  (1 <= nx)%Z -> (nx <= ny)%Z ->
  has_shape mask (Z.to_nat nx) (Z.to_nat ny) ->
  exists mask',
    radon_kk_line nx ny mask theta = Ok mask' /\
    has_shape mask' (Z.to_nat nx) (Z.to_nat ny) /\
    nth (Z.to_nat (nx / 2)) (nth (Z.to_nat (nx / 2)) mask' []) 0%R <> 0%R.
Proof.
  intros Hx Hxy Hs. unfold radon_kk_line, Py.floordiv. cbv zeta.
  set (g := fun k : Z =>
              (np_round (IZR (k - nx / 2) * tan (Np.deg2rad (IZR theta))) + nx / 2)%Z).
  set (T := fun k : Z => ((0 <=? g k) && (g k <? nx))%Z%bool).
  rewrite !map_map.
  change (map (fun x : Z => (np_round (IZR (x - nx / 2) * tan (Np.deg2rad (IZR theta)))
                             + nx / 2)%Z) (Np.arange nx))
    with (map g (Np.arange nx)).
  change (map (fun x : Z =>
                 ((0 <=? np_round (IZR (x - nx / 2) * tan (Np.deg2rad (IZR theta)))
                          + nx / 2)
                  && (np_round (IZR (x - nx / 2) * tan (Np.deg2rad (IZR theta)))
                      + nx / 2 <? nx))%Z%bool) (Np.arange nx))
    with (map T (Np.arange nx)).
  replace (select (Np.arange nx) (map T (Np.arange nx)))
    with (select (map (fun k : Z => k) (Np.arange nx)) (map T (Np.arange nx)))
    by (now rewrite map_id).
  rewrite !select_map. unfold setitem2. rewrite combine_map.
  rewrite (mapM_pure _ _ _ (fun p : Z * Z => (Z.to_nat (fst p), Z.to_nat (snd p)))).
  2:{ intros [i j] Hin. apply in_map_iff in Hin. destruct Hin as (k & E & Hk).
      apply filter_In in Hk. destruct Hk as [Hk HT]. apply arange_In in Hk.
      injection E as <- <-. unfold T in HT. apply andb_true_iff in HT.
      destruct HT as [H0 H1]. apply Z.leb_le in H0. apply Z.ltb_lt in H1.
      unfold index2. cbn [fst snd].
      rewrite (index_Ok nx k) by lia. simpl Py.bind.
      rewrite (index_Ok ny (g k)) by lia. reflexivity. }
  simpl Py.bind. eexists. split; [reflexivity |].
  split; [now apply fold_set2_shape |].
  assert (Hc : (0 <= nx / 2 < nx)%Z)
    by (clear - Hx; Z.to_euclidean_division_equations; lia).
  assert (Hg : g (nx / 2)%Z = (nx / 2)%Z).
  { unfold g. replace (nx / 2 - nx / 2)%Z with 0%Z by lia.
    rewrite Rmult_0_l, np_round_0. lia. }
  apply (fold_set2_marks (Z.to_nat nx) (Z.to_nat ny)); try lia; [exact Hs |].
  rewrite map_map. cbn [fst snd]. apply in_map_iff. exists (nx / 2)%Z. split.
  - now rewrite Hg.
  - apply filter_In. split; [now apply arange_In |].
    unfold T. rewrite Hg. apply andb_true_iff. split.
    + apply Z.leb_le. lia.
    + apply Z.ltb_lt. lia.
Qed.

Lemma radon_kk_line_keeps (nx ny : Z) (mask mask' : list (list R)) (theta : Z)
      (i j : nat) :
  radon_kk_line nx ny mask theta = Ok mask' ->
  nth j (nth i mask []) 0%R <> 0%R -> nth j (nth i mask' []) 0%R <> 0%R.
Proof.
  unfold radon_kk_line, setitem2. cbv zeta. intros H Hij.
  apply bind_Ok_inv in H. destruct H as (ijs & _ & H).
  inversion H; subst mask'. now apply fold_set2_keeps.
Qed.

(** The loop over the angles. *)
Lemma radon_kk_loop (nx ny : Z) (thetas : list Z) (mask : list (list R)) :
  (1 <= nx)%Z -> (nx <= ny)%Z ->
  has_shape mask (Z.to_nat nx) (Z.to_nat ny) ->
  exists mask',
    Py.for_each (radon_kk_line nx ny) thetas mask = Ok mask' /\
    has_shape mask' (Z.to_nat nx) (Z.to_nat ny) /\
    (thetas <> [] \/
     nth (Z.to_nat (nx / 2)) (nth (Z.to_nat (nx / 2)) mask []) 0%R <> 0%R ->
     nth (Z.to_nat (nx / 2)) (nth (Z.to_nat (nx / 2)) mask' []) 0%R <> 0%R).
Proof.
  intros Hx Hxy. revert mask. induction thetas as [| t ts IH]; intros mask Hs.
  - exists mask. split; [reflexivity |]. split; [exact Hs |].
    intros [H | H]; [congruence | exact H].
  - destruct (radon_kk_line_Ok nx ny mask t Hx Hxy Hs) as (m1 & E1 & Hs1 & C1).
    destruct (IH m1 Hs1) as (m2 & E2 & Hs2 & C2).
    exists m2. simpl. rewrite E1. simpl. split; [exact E2 |].
    split; [exact Hs2 |]. intros _. apply C2. now right.
Qed.

Lemma zeros2_Ok (nx ny : Z) :
  (0 <= nx)%Z -> (0 <= ny)%Z ->
  exists mask, zeros2 nx ny = Ok mask /\ has_shape mask (Z.to_nat nx) (Z.to_nat ny).
Proof.
  intros Hx Hy. unfold zeros2.
  destruct (Z.ltb_spec nx 0); [lia |]. destruct (Z.ltb_spec ny 0); [lia |].
  simpl. eexists. split; [reflexivity |]. split.
  - apply repeat_length.
  - apply Forall_forall. intros r Hr. apply repeat_spec in Hr. subst r.
    apply zeros_length.
Qed.

Lemma stretch_same (A : Type) (d : A) (n : nat) (l : list A) :
  length l = n -> stretch d n l = l.
Proof. intros H. unfold stretch. now rewrite H, Nat.eqb_refl. Qed.

Lemma stretch_rows (N : nat) (a : list (list R)) :
  Forall (fun r => length r = N) a -> map (stretch 0%R N) a = a.
Proof.
  intros H. induction H as [| r a Hr _ IH]; simpl; [reflexivity |].
  now rewrite IH, stretch_same.
Qed.

Lemma map2_nth (A B C : Type) (f : A -> B -> C) (u : list A) (v : list B)
      (i : nat) (da : A) (db : B) (dc : C) :
  (i < length u)%nat -> (i < length v)%nat ->
  nth i (Np.map2 f u v) dc = f (nth i u da) (nth i v db).
Proof.
  revert v i. induction u as [| a u IH]; intros [| b v] [| i] Hu Hv;
    simpl in *; try lia; [reflexivity |].
  apply IH; lia.
Qed.

Lemma map2_rows (A B C : Type) (f : A -> B -> C) (N : nat)
      (a : list (list A)) (b : list (list B)) :
  Forall (fun r => length r = N) a -> Forall (fun r => length r = N) b ->
  Forall (fun r => length r = N) (Np.map2 (Np.map2 f) a b).
Proof.
  intros Ha. revert b. induction Ha as [| r a Hr _ IH]; intros b Hb; simpl;
    [constructor |].
  destruct Hb as [| s b Hs Hb]; constructor.
  - rewrite map2_length, Hr, Hs. apply Nat.min_id.
  - now apply IH.
Qed.

Lemma flipped_transpose_shape (M N : nat) (a : list (list R)) :
  has_shape a M N -> has_shape (fliplr (transpose N a)) N M.
Proof.
  intros [L _]. unfold fliplr, transpose. split.
  - now rewrite !length_map, length_seq.
  - rewrite map_map. apply Forall_map_iff. apply Forall_forall. intros j _.
    now rewrite length_rev, length_map.
Qed.

(** For a square array the union with the turned array is taken entry by
    entry. *)
Lemma logical_or_square (N : nat) (a b : list (list R)) :
  has_shape a N N -> has_shape b N N ->
  exists c,
    logical_or (N, N) a (N, N) b = Ok c /\
    length c = N /\ Forall (fun r => length r = N) c /\
    forall i j, (i < N)%nat -> (j < N)%nat ->
                nth j (nth i a []) 0%R <> 0%R ->
                nth j (nth i c []) false = true.
Proof.
  intros [La Fa] [Lb Fb]. unfold logical_or, broadcast2, broadcast_dim. cbn [fst snd].
  rewrite Nat.eqb_refl. simpl Py.bind.
  rewrite !stretch_rows by assumption. rewrite !stretch_same by assumption.
  eexists. split; [reflexivity |]. split; [| split].
  - rewrite map2_length, La, Lb. apply Nat.min_id.
  - now apply map2_rows.
  - intros i j Hi Hj Hij.
    rewrite (map2_nth _ _ _ _ a b i [] [] []) by lia.
    assert (L1 : length (nth i a []) = N).
    { rewrite Forall_forall in Fa. apply Fa. apply nth_In. lia. }
    assert (L2 : length (nth i b []) = N).
    { rewrite Forall_forall in Fb. apply Fb. apply nth_In. lia. }
    rewrite (map2_nth _ _ _ _ _ _ j 0%R 0%R false) by lia.
    unfold nonzero at 1. destruct (Req_dec_T _ 0); [contradiction | reflexivity].
Qed.

Lemma ifftshift_length (A : Type) (l : list A) : length (ifftshift l) = length l.
Proof.
  unfold ifftshift. cbv zeta. rewrite length_app, length_skipn, length_firstn.
  pose proof (Nat.Div0.div_le_upper_bound (length l) 2 (length l)). lia.
Qed.

Lemma ifftshift_first (A : Type) (l : list A) (d : A) :
  l <> [] -> nth 0 (ifftshift l) d = nth (length l / 2) l d.
Proof.
  intros H. unfold ifftshift. cbv zeta.
  assert (Hs : (length l / 2 < length l)%nat).
  { apply Nat.div_lt; [| lia]. destruct l; [congruence | simpl; lia]. }
  rewrite app_nth1 by (rewrite length_skipn; lia).
  rewrite nth_skipn. f_equal. lia.
Qed.

Lemma ifftshift_In (A : Type) (l : list A) (a : A) :
  In a (ifftshift l) -> In a l.
Proof.
  unfold ifftshift. cbv zeta. intros H.
  rewrite <- (firstn_skipn (length l / 2) l).
  apply in_app_or in H. apply in_or_app. tauto.
Qed.

Lemma ifftshift2_shape (A : Type) (N : nat) (c : list (list A)) :
  length c = N -> Forall (fun r => length r = N) c ->
  length (ifftshift2 c) = N /\ Forall (fun r => length r = N) (ifftshift2 c).
Proof.
  intros L F. unfold ifftshift2. split.
  - now rewrite ifftshift_length, length_map.
  - apply Forall_forall. intros r Hr. apply ifftshift_In in Hr.
    apply in_map_iff in Hr. destruct Hr as (r0 & <- & Hr0).
    rewrite ifftshift_length. rewrite Forall_forall in F. now apply F.
Qed.

Lemma ifftshift2_first (N : nat) (c : list (list bool)) :
  (1 <= N)%nat -> length c = N -> Forall (fun r => length r = N) c ->
  nth 0 (nth 0 (ifftshift2 c) []) false = nth (N / 2) (nth (N / 2) c []) false.
Proof.
  intros HN L F. unfold ifftshift2.
  assert (Hs : (N / 2 < N)%nat) by (apply Nat.div_lt; lia).
  rewrite ifftshift_first by (destruct c; simpl in *; [lia | discriminate]).
  rewrite length_map, L.
  change (@nil bool) with (ifftshift (@nil bool)) at 1. rewrite map_nth.
  assert (Lr : length (nth (N / 2) c []) = N).
  { rewrite Forall_forall in F. apply F. apply nth_In. lia. }
  rewrite ifftshift_first by (destruct (nth (N / 2) c []); simpl in *; [lia | discriminate]).
  now rewrite Lr.
Qed.

Lemma concat_length_rows (A : Type) (N : nat) (rows : list (list A)) :
  Forall (fun row => length row = N) rows ->
  length (concat rows) = (length rows * N)%nat.
Proof.
  induction 1 as [| r rows Hr _ IH]; simpl; [reflexivity |].
  rewrite length_app, IH, Hr. reflexivity.
Qed.

Lemma where_true_In (l : list bool) (k : Z) :
  In k (where_true l) -> (0 <= k < Z.of_nat (length l))%Z.
Proof.
  unfold where_true. intros H. apply in_map_iff in H.
  destruct H as ([k' b] & E & H). simpl in E. subst k'.
  apply filter_In in H. destruct H as [H _]. apply in_combine_l in H.
  now apply arange_In in H.
Qed.

Lemma where_true_first (l : list bool) :
  nth 0 l false = true -> In 0%Z (where_true l).
Proof.
  destruct l as [| b l]; simpl; [discriminate |]. intros ->.
  unfold where_true. rewrite arange_of_nat. simpl. now left.
Qed.

End SamplingMask.

(** X14.  For a square image of side [n >= 1] and at least one angle, the
    mask of [radon_kk] is built without an error, the positions handed to
    [Restriction] lie in [0 .. n*n - 1], and position 0 is among them: the
    sample at wavenumber zero, which every line through the centre of the
    spectrum meets, is always kept. *)
Theorem kk_mask_keeps_zero_wavenumber (n : Z) (thetas : list Z) :
  (1 <= n)%Z -> thetas <> [] ->
  exists iava,
    radon_kk_iava n n thetas = Ok iava /\
    In 0%Z iava /\
    Forall (fun k => (0 <= k < n * n)%Z) iava.
Proof.
  intros Hn Hne. unfold radon_kk_iava.
  destruct (zeros2_Ok n n ltac:(lia) ltac:(lia)) as (m0 & E0 & S0).
  rewrite E0. simpl Py.bind.
  destruct (radon_kk_loop n n thetas m0 Hn ltac:(lia) S0) as (m1 & E1 & S1 & C1).
  rewrite E1. simpl Py.bind. cbv zeta.
  set (N := Z.to_nat n) in *.
  assert (HN : (1 <= N)%nat) by (unfold N; lia).
  assert (Hc : Z.to_nat (n / 2) = (N / 2)%nat).
  { unfold N. rewrite Z2Nat.inj_div by lia. reflexivity. }
  rewrite Hc in C1.
  assert (Hs : (N / 2 < N)%nat) by (apply Nat.div_lt; lia).
  destruct (logical_or_square N m1 (fliplr (transpose N m1)) S1
              (flipped_transpose_shape N N m1 S1)) as (c & Ec & Lc & Fc & Hc1).
  rewrite Ec. simpl Py.bind.
  destruct (ifftshift2_shape bool N c Lc Fc) as [Ls Fs].
  eexists. split; [reflexivity |]. split.
  - apply where_true_first.
    change false with ((fun b : bool => (Z.b2z b =? 1)%Z) false). rewrite map_nth.
    assert (E : nth 0 (Np.ravel (ifftshift2 c)) false = true).
    { unfold Np.ravel.
      pose proof (ifftshift2_first N c HN Lc Fc) as E.
      rewrite (Hc1 (N / 2)%nat (N / 2)%nat Hs Hs (C1 (or_introl Hne))) in E.
      destruct (ifftshift2 c) as [| r rs]; [simpl in Ls; lia |].
      inversion Fs as [| ? ? Lr _]; subst.
      destruct r as [| b r]; [simpl in Lr; lia |].
      simpl in E. simpl. exact E. }
    rewrite E. reflexivity.
  - apply Forall_forall. intros k Hk. apply where_true_In in Hk.
    rewrite length_map in Hk. unfold Np.ravel in Hk.
    rewrite (concat_length_rows bool N _ Fs), Ls in Hk.
    unfold N in Hk. lia.
Qed.

Lemma kk_mask_keeps_zero_wavenumber_witness :
  exists iava,
    radon_kk_iava 300 300 radon_kk_thetas = Ok iava /\ In 0%Z iava.
Proof.
  destruct (kk_mask_keeps_zero_wavenumber 300 radon_kk_thetas
              ltac:(lia) ltac:(discriminate)) as (iava & E & H0 & _).
  exists iava. split; assumption.
Defined.

(** X15.  [radon_kk] needs a square image: when the two sides differ and
    both are at least 2, building the mask raises, whatever the angles.
    For [nx < ny] it is the union with the turned mask that fails, with
    the [ValueError] of two shapes that cannot be broadcast. *)
Theorem kk_mask_needs_square_image (nx ny : Z) (thetas : list Z) :
  (2 <= nx)%Z -> (2 <= ny)%Z -> nx <> ny ->
  (exists e, radon_kk_iava nx ny thetas = Raise e) /\
  ((nx < ny)%Z ->
   radon_kk_iava nx ny thetas
   = Raise (ValueError "operands could not be broadcast together")).
Proof.
  intros Hx Hy Hne.
  assert (Hb : forall a b : list (list R),
             logical_or (Z.to_nat nx, Z.to_nat ny) a (Z.to_nat ny, Z.to_nat nx) b
             = Raise (ValueError "operands could not be broadcast together")).
  { intros a b. unfold logical_or, broadcast2, broadcast_dim. cbn [fst snd].
    destruct (Nat.eqb_spec (Z.to_nat nx) (Z.to_nat ny)); [lia |].
    destruct (Nat.eqb_spec (Z.to_nat nx) 1); [lia |].
    destruct (Nat.eqb_spec (Z.to_nat ny) 1); [lia |]. reflexivity. }
  unfold radon_kk_iava.
  destruct (zeros2_Ok nx ny ltac:(lia) ltac:(lia)) as (m0 & E0 & S0).
  rewrite E0. simpl Py.bind. split.
  - destruct (Py.for_each (radon_kk_line nx ny) thetas m0) as [m1 | e].
    + simpl Py.bind. cbv zeta. rewrite Hb. eexists. reflexivity.
    + eexists. reflexivity.
  - intros Hlt.
    destruct (radon_kk_loop nx ny thetas m0 ltac:(lia) ltac:(lia) S0)
      as (m1 & E1 & _).
    rewrite E1. simpl Py.bind. cbv zeta. now rewrite Hb.
Qed.

Lemma kk_mask_needs_square_image_witness :
  radon_kk_iava 2 3 radon_kk_thetas
  = Raise (ValueError "operands could not be broadcast together").
Proof.
  exact (proj2 (kk_mask_needs_square_image 2 3 radon_kk_thetas
                  ltac:(lia) ltac:(lia) ltac:(lia)) ltac:(lia)).
Defined.

(* ===================================================================== *)
(** ** Further results: the noise added in [radon_noise] *)
(* ===================================================================== *)

Section CentralRows.

Lemma slice_inside (A : Type) (s e : Z) (l : list A) :
  (0 <= s <= e)%Z -> (e <= Z.of_nat (length l))%Z ->
  Py.slice s e l = firstn (Z.to_nat (e - s)) (skipn (Z.to_nat s) l).
Proof.
  intros H He. unfold Py.slice, Py.slice_bound. cbv zeta.
  destruct (Z.ltb_spec s 0); [lia |]. destruct (Z.ltb_spec e 0); [lia |].
  rewrite !Z.min_l by lia. reflexivity.
Qed.

Lemma central_rows_inside (nx inner : Z) (a : list (list R)) :
  let P := Z.of_nat (length a) in
  let h := ((nx - inner) / 2)%Z in
  (0 <= h <= P / 2)%Z ->
  length (central_rows nx inner a) = Z.to_nat (2 * h) /\
  forall j d, (j < Z.to_nat (2 * h))%nat ->
              nth j (central_rows nx inner a) d = nth (Z.to_nat (P / 2 - h) + j) a d.
Proof.
  intros P h Hh. unfold central_rows, Py.floordiv. cbv zeta. fold P. fold h.
  assert (HP : (2 * (P / 2) <= P)%Z)
    by (clear; Z.to_euclidean_division_equations; lia).
  rewrite slice_inside by (fold P; lia).
  replace (P / 2 + h - (P / 2 - h))%Z with (2 * h)%Z by lia.
  split.
  - rewrite length_firstn, length_skipn. unfold P in *. lia.
  - intros j d Hj. rewrite nth_firstn.
    destruct (Nat.ltb_spec j (Z.to_nat (2 * h))); [| lia]. apply nth_skipn.
Qed.

Lemma central_rows_In (nx inner : Z) (a : list (list R)) (r : list R) :
  In r (central_rows nx inner a) -> In r a.
Proof. apply In_slice. Qed.

Lemma nth_map_in (A B : Type) (f : A -> B) (l : list A) (j : nat) (d : B) (d' : A) :
  (j < length l)%nat -> nth j (map f l) d = f (nth j l d').
Proof.
  intros H. rewrite (nth_indep _ d (f d')) by (now rewrite length_map).
  apply map_nth.
Qed.

Lemma transpose_shape (T : nat) (c : list (list R)) :
  has_shape (transpose T c) T (length c).
Proof.
  unfold transpose. split.
  - now rewrite length_map, length_seq.
  - apply Forall_map_iff. apply Forall_forall. intros j _. apply length_map.
Qed.

Lemma transpose_entry (T : nat) (c : list (list R)) (t j : nat) :
  (t < T)%nat -> (j < length c)%nat ->
  nth j (nth t (transpose T c) []) 0%R = nth t (nth j c []) 0%R.
Proof.
  intros Ht Hj. unfold transpose.
  rewrite (nth_map_in _ _ _ _ t [] O) by (now rewrite length_seq).
  rewrite seq_nth by exact Ht. simpl.
  now rewrite (nth_map_in _ _ _ _ j 0%R []).
Qed.

(** The sum of two arrays of one shape is taken entry by entry. *)
Lemma add2_same_shape (M N : nat) (a b : list (list R)) :
  has_shape a M N -> has_shape b M N ->
  exists r, add2 (M, N) a (M, N) b = Ok r /\ has_shape r M N /\
            forall i j, (i < M)%nat -> (j < N)%nat ->
                        nth j (nth i r []) 0%R
                        = (nth j (nth i a []) 0 + nth j (nth i b []) 0)%R.
Proof.
  intros [La Fa] [Lb Fb]. unfold add2, broadcast2, broadcast_dim. cbn [fst snd].
  rewrite !Nat.eqb_refl. simpl Py.bind.
  rewrite !stretch_rows by assumption. rewrite !stretch_same by assumption.
  eexists. split; [reflexivity |]. split; [split |].
  - rewrite map2_length, La, Lb. apply Nat.min_id.
  - now apply map2_rows.
  - intros i j Hi Hj.
    rewrite (map2_nth _ _ _ _ a b i [] [] []) by lia.
    assert (L1 : length (nth i a []) = N).
    { rewrite Forall_forall in Fa. apply Fa. apply nth_In. lia. }
    assert (L2 : length (nth i b []) = N).
    { rewrite Forall_forall in Fb. apply Fb. apply nth_In. lia. }
    now rewrite (map2_nth _ _ _ _ _ _ j 0%R 0%R 0%R) by lia.
Qed.

End CentralRows.

(** X16.  In [radon_noise], when [nx - inner] is even, equal to
    [ny - inner], and not larger than the number [P] of rows of the noise
    array, the sum [projection1 + n[...].T] is defined and entry [(t, j)]
    of the result is [projection1[t][j] + n[P//2 - (nx-inner)//2 + j][t]]:
    column [j] of the operator's output is matched with row
    [P//2 - (nx-inner)//2 + j] of scikit-image's layout. *)
Theorem noise_added_to_central_rows
        (nx ny inner : Z) (P T : nat) (n projection1 : list (list R)) :
  has_shape n P T ->
  has_shape projection1 T (Z.to_nat (ny - inner)) ->
  (0 <= nx - inner <= Z.of_nat P)%Z ->
  (ny - inner = 2 * ((nx - inner) / 2))%Z ->
  exists r,
    radon_noise_projection1_n nx ny inner T n projection1 = Ok r /\
    has_shape r T (Z.to_nat (ny - inner)) /\
    forall t j, (t < T)%nat -> (j < Z.to_nat (ny - inner))%nat ->
      nth j (nth t r []) 0%R
      = (nth j (nth t projection1 []) 0
         + nth t (nth (Z.to_nat (Z.of_nat P / 2 - (nx - inner) / 2) + j) n []) 0)%R.
Proof.
  intros [Ln Fn] Hp Hw Hy.
  assert (Hh : (0 <= (nx - inner) / 2 <= Z.of_nat (length n) / 2)%Z)
    by (rewrite Ln; clear - Hw; Z.to_euclidean_division_equations; lia).
  destruct (central_rows_inside nx inner n Hh) as [Lc Hc].
  rewrite <- Hy in Lc, Hc. rewrite Ln in Hc.
  unfold radon_noise_projection1_n. cbv zeta.
  pose proof (transpose_shape T (central_rows nx inner n)) as Ht.
  rewrite Lc in *.
  destruct (add2_same_shape T (Z.to_nat (ny - inner)) projection1 _ Hp Ht)
    as (r & Er & Sr & Hr).
  exists r. split; [exact Er |]. split; [exact Sr |].
  intros t j Ht' Hj. rewrite (Hr t j Ht' Hj). f_equal.
  rewrite transpose_entry by lia. now rewrite Hc.
Qed.

Lemma noise_added_to_central_rows_witness :
  exists r,
    radon_noise_projection1_n 4 4 2 1 [[1]; [2]; [3]; [4]; [5]]%R [[10; 20]]%R = Ok r /\
    has_shape r 1 2.
Proof.
  assert (Hn : has_shape [[1]; [2]; [3]; [4]; [5]]%R 5 1)
    by (split; [reflexivity | repeat constructor]).
  assert (Hp : has_shape [[10; 20]]%R 1 (Z.to_nat (4 - 2)))
    by (split; [reflexivity | repeat constructor]).
  destruct (noise_added_to_central_rows 4 4 2 5 1 _ _ Hn Hp
              ltac:(lia) ltac:(reflexivity)) as (r & E & S & _).
  exists r. split; [exact E | exact S].
Defined.

(** X17.  For a square image whose window has an odd number [nx - inner]
    of rows, at least 3 and at most [P], the sum in [radon_noise] raises
    [ValueError]: the slice keeps [2 * ((nx - inner) // 2) = nx - inner - 1]
    rows, one fewer than [projection1] has columns. *)
Theorem noise_for_odd_window_raises
        (nx inner : Z) (P T : nat) (n projection1 : list (list R)) :
  has_shape n P T ->
  (3 <= nx - inner <= Z.of_nat P)%Z -> Z.odd (nx - inner) = true ->
  length (central_rows nx inner n) = Z.to_nat (nx - inner - 1) /\
  radon_noise_projection1_n nx nx inner T n projection1
  = Raise (ValueError "operands could not be broadcast together").
Proof.
  intros [Ln Fn] Hw Hodd.
  assert (Hdiv : (2 * ((nx - inner) / 2) = nx - inner - 1)%Z).
  { rewrite (Z.div_mod (nx - inner) 2) at 2 by lia.
    rewrite Zmod_odd, Hodd. lia. }
  assert (Hh : (0 <= (nx - inner) / 2 <= Z.of_nat (length n) / 2)%Z)
    by (rewrite Ln; clear - Hw; Z.to_euclidean_division_equations; lia).
  destruct (central_rows_inside nx inner n Hh) as [Lc _].
  rewrite Hdiv in Lc. split; [exact Lc |].
  unfold radon_noise_projection1_n, add2, broadcast2, broadcast_dim.
  cbv zeta. cbn [fst snd]. rewrite Lc, Nat.eqb_refl. simpl Py.bind.
  destruct (Nat.eqb_spec (Z.to_nat (nx - inner)) (Z.to_nat (nx - inner - 1))); [lia |].
  destruct (Nat.eqb_spec (Z.to_nat (nx - inner)) 1); [lia |].
  destruct (Nat.eqb_spec (Z.to_nat (nx - inner - 1)) 1); [lia |].
  reflexivity.
Qed.

Lemma noise_for_odd_window_raises_witness :
  radon_noise_projection1_n 5 5 2 1 [[1]; [2]; [3]; [4]; [5]]%R [[10; 20; 30]]%R
  = Raise (ValueError "operands could not be broadcast together").
Proof.
  assert (Hn : has_shape [[1]; [2]; [3]; [4]; [5]]%R 5 1)
    by (split; [reflexivity | repeat constructor]).
  exact (proj2 (noise_for_odd_window_raises 5 2 5 1 _ [[10; 20; 30]]%R Hn
                  ltac:(lia) ltac:(reflexivity))).
Defined.

(* ===================================================================== *)
(** ** Further results: bounds on the projection *)
(* ===================================================================== *)

Section Bounds.

Local Open Scope R_scope.

Variables lo hi : R.
Hypothesis lo_hi : lo <= 0 <= hi.

Lemma nth_within (x : list R) (k : nat) :
  Forall (fun v => lo <= v <= hi) x -> lo <= nth k x 0 <= hi.
Proof.
  intros H. destruct (Nat.lt_ge_cases k (length x)) as [Hk | Hk].
  - rewrite Forall_forall in H. apply H. now apply nth_In.
  - rewrite nth_overflow by exact Hk. exact lo_hi.
Qed.

Lemma take2_within (x : list R) (dims : Z * Z) (rows cols : list Z) (t : list R) :
  Forall (fun v => lo <= v <= hi) x -> Np.take2 x dims rows cols = Ok t ->
  Forall (fun v => lo <= v <= hi) t.
Proof.
  intros Hx H. apply take2_Ok in H. destruct H as (ks & _ & -> & _).
  apply Forall_map_iff. apply Forall_forall. intros k _. now apply nth_within.
Qed.

(** A weighted mean of four values with the weights of [Bilinear] lies
    between the bounds of the values. *)
Lemma weighted_mean_within (a b tl tr bl br : R) :
  0 <= a <= 1 -> 0 <= b <= 1 ->
  lo <= tl <= hi -> lo <= tr <= hi -> lo <= bl <= hi -> lo <= br <= hi ->
  lo <= tl * (1 - a) * (1 - b) + tr * (1 - a) * b + bl * a * (1 - b) + br * a * b
     <= hi.
Proof.
  intros Ha Hb H1 H2 H3 H4.
  assert (W1 : 0 <= (1 - a) * (1 - b)) by (apply Rmult_le_pos; lra).
  assert (W2 : 0 <= (1 - a) * b) by (apply Rmult_le_pos; lra).
  assert (W3 : 0 <= a * (1 - b)) by (apply Rmult_le_pos; lra).
  assert (W4 : 0 <= a * b) by (apply Rmult_le_pos; lra).
  split.
  - assert (E : tl * (1 - a) * (1 - b) + tr * (1 - a) * b + bl * a * (1 - b)
                + br * a * b - lo
                = (tl - lo) * ((1 - a) * (1 - b)) + (tr - lo) * ((1 - a) * b)
                  + (bl - lo) * (a * (1 - b)) + (br - lo) * (a * b)) by ring.
    assert (0 <= (tl - lo) * ((1 - a) * (1 - b))) by (apply Rmult_le_pos; lra).
    assert (0 <= (tr - lo) * ((1 - a) * b)) by (apply Rmult_le_pos; lra).
    assert (0 <= (bl - lo) * (a * (1 - b))) by (apply Rmult_le_pos; lra).
    assert (0 <= (br - lo) * (a * b)) by (apply Rmult_le_pos; lra).
    lra.
  - assert (E : hi - (tl * (1 - a) * (1 - b) + tr * (1 - a) * b + bl * a * (1 - b)
                      + br * a * b)
                = (hi - tl) * ((1 - a) * (1 - b)) + (hi - tr) * ((1 - a) * b)
                  + (hi - bl) * (a * (1 - b)) + (hi - br) * (a * b)) by ring.
    assert (0 <= (hi - tl) * ((1 - a) * (1 - b))) by (apply Rmult_le_pos; lra).
    assert (0 <= (hi - tr) * ((1 - a) * b)) by (apply Rmult_le_pos; lra).
    assert (0 <= (hi - bl) * (a * (1 - b))) by (apply Rmult_le_pos; lra).
    assert (0 <= (hi - br) * (a * b)) by (apply Rmult_le_pos; lra).
    lra.
Qed.

Lemma interpolation_within (wa wb tl tr bl br : list R) :
  Forall (fun a => 0 <= a <= 1) wa -> Forall (fun b => 0 <= b <= 1) wb ->
  Forall (fun v => lo <= v <= hi) tl -> Forall (fun v => lo <= v <= hi) tr ->
  Forall (fun v => lo <= v <= hi) bl -> Forall (fun v => lo <= v <= hi) br ->
  Forall (fun v => lo <= v <= hi)
    (Np.add
       (Np.add
          (Np.add
             (Np.mul (Np.mul tl (one_minus wa)) (one_minus wb))
             (Np.mul (Np.mul tr (one_minus wa)) wb))
          (Np.mul (Np.mul bl wa) (one_minus wb)))
       (Np.mul (Np.mul br wa) wb)).
Proof.
  intros Ha. revert wb tl tr bl br.
  induction Ha as [| a wa Ha _ IH]; intros wb tl tr bl br Hb H1 H2 H3 H4.
  - destruct tl, tr, bl, br, wb; simpl; constructor.
  - destruct Hb as [| b wb Hb Hbs]; [destruct tl, tr, bl, br; simpl; constructor |].
    destruct H1 as [| t1 tl H1 H1s]; [simpl; constructor |].
    destruct H2 as [| t2 tr H2 H2s]; [simpl; constructor |].
    destruct H3 as [| t3 bl H3 H3s]; [simpl; constructor |].
    destruct H4 as [| t4 br H4 H4s]; [simpl; constructor |].
    unfold Np.add, Np.mul, one_minus in *. simpl. constructor.
    + now apply weighted_mean_within.
    + now apply IH.
Qed.

Lemma fractional_weights_unit (A : Type) (f : A -> R) (pts : list A) :
  Forall (fun a => 0 <= a <= 1) (map (fun p => f p - IZR (Np.floor (f p))) pts).
Proof.
  apply Forall_map_iff. apply Forall_forall. intros p _.
  pose proof (Zfloor_bound (f p)) as B. unfold Np.floor. lra.
Qed.

Lemma add_within (s : R) (acc row : list R) :
  Forall (fun v => s * lo <= v <= s * hi) acc ->
  Forall (fun v => lo <= v <= hi) row ->
  Forall (fun v => (s + 1) * lo <= v <= (s + 1) * hi) (Np.add acc row).
Proof.
  intros H1 H2. unfold Np.add.
  apply (map2_Forall (fun v => s * lo <= v <= s * hi) (fun v => lo <= v <= hi));
    [| assumption | assumption].
  intros a b Ha Hb. lra.
Qed.

Lemma fold_add_within (rows : list (list R)) (k : nat) (acc : list R) :
  Forall (Forall (fun v => lo <= v <= hi)) rows ->
  Forall (fun v => INR k * lo <= v <= INR k * hi) acc ->
  Forall (fun v => INR (k + length rows) * lo <= v <= INR (k + length rows) * hi)
         (fold_left Np.add rows acc).
Proof.
  intros H. revert k acc. induction H as [| r rows Hr _ IH]; intros k acc Hacc; simpl.
  - now rewrite Nat.add_0_r.
  - replace (k + S (length rows))%nat with (S k + length rows)%nat by lia.
    apply IH. rewrite S_INR. now apply (add_within (INR k)).
Qed.

Lemma rows_of_within (M N : nat) (x : list R) :
  Forall (fun v => lo <= v <= hi) x ->
  Forall (Forall (fun v => lo <= v <= hi)) (Np.rows_of M N x).
Proof.
  revert x. induction M as [| M IH]; intros x Hx; simpl; constructor.
  - apply Forall_forall. intros a Ha. rewrite Forall_forall in Hx. apply Hx.
    rewrite <- (firstn_skipn N x). apply in_or_app. now left.
  - apply IH. apply Forall_forall. intros a Ha. rewrite Forall_forall in Hx.
    apply Hx. rewrite <- (firstn_skipn N x). apply in_or_app. now right.
Qed.

Lemma Sum_matvec_axis0_within (m n : Z) (w u : list R) :
  Forall (fun v => lo <= v <= hi) w -> Sum_matvec (m, n) 0 w = Ok u ->
  Forall (fun v => IZR m * lo <= v <= IZR m * hi) u.
Proof.
  intros Hw H. unfold Sum_matvec in H.
  apply bind_Ok_inv in H. destruct H as (a & Ha & H).
  apply reshape2_Ok in Ha. destruct Ha as (Hm & _ & _ & ->).
  inversion H; subst u; clear H. simpl. unfold Np.sum_axis0.
  pose proof (fold_add_within (Np.rows_of (Z.to_nat m) (Z.to_nat n) w) 0
                (Np.zeros (Z.to_nat n)) (rows_of_within _ _ _ Hw)) as F.
  rewrite rows_of_length in F. simpl in F.
  rewrite INR_IZR_INZ, Z2Nat.id in F by exact Hm.
  apply F. unfold Np.zeros. apply Forall_forall. intros v Hv.
  apply repeat_spec in Hv. subst v. lra.
Qed.

Lemma angle_block_within (dims : Z * Z) (inner : Z) (theta : R)
      (o : LinearOperator) (x u : list R) :
  angle_block dims inner theta = Ok o ->
  Forall (fun v => lo <= v <= hi) x -> matvec o x = Ok u ->
  Forall (fun v => IZR (fst dims - inner) * lo <= v <= IZR (fst dims - inner) * hi) u.
Proof.
  intros Ho Hx Hu.
  destruct (angle_block_Ok_inv _ _ _ _ Ho) as (S & B & -> & HS & HB & _).
  rewrite (Bilinear_points _ dims (rotated_window_NoDup _ _ _)) in HB.
  inversion HB; subst B; clear HB. inversion HS; subst S; clear HS.
  apply matvec_Ok_inv in Hu. destruct Hu as [_ Hu].
  apply bind_Ok_inv in Hu. destruct Hu as (w & Hw & Hu).
  apply matvec_Ok_inv in Hw. destruct Hw as [_ Hw].
  apply matvec_Ok_inv in Hu. destruct Hu as [_ Hu].
  apply (Sum_matvec_axis0_within (fst dims - inner) (snd dims - inner) w u);
    [| exact Hu].
  unfold Bilinear_matvec in Hw.
  apply bind_Ok_inv in Hw. destruct Hw as (r & _ & Hw).
  apply bind_Ok_inv in Hw. destruct Hw as (tl & Htl & Hw).
  apply bind_Ok_inv in Hw. destruct Hw as (tr & Htr & Hw).
  apply bind_Ok_inv in Hw. destruct Hw as (bl & Hbl & Hw).
  apply bind_Ok_inv in Hw. destruct Hw as (br & Hbr & Hw).
  inversion Hw; subst w; clear Hw.
  apply (take2_within x) in Htl, Htr, Hbl, Hbr; try exact Hx.
  apply interpolation_within; try assumption; apply fractional_weights_unit.
Qed.

Lemma VStack_matvec_Forall (P : R -> Prop) (ops : list LinearOperator) (x u : list R) :
  Forall (fun o => forall v, matvec o x = Ok v -> Forall P v) ops ->
  VStack_matvec matvec ops x = Ok u -> Forall P u.
Proof.
  intros H. revert u. induction H as [| o ops Ho _ IH]; intros u Hu; simpl in Hu.
  - inversion Hu. constructor.
  - apply bind_Ok_inv in Hu. destruct Hu as (y & Hy & Hu).
    apply bind_Ok_inv in Hu. destruct Hu as (ys & Hys & Hu).
    inversion Hu; subst u. apply Forall_app. split; auto.
Qed.

End Bounds.

(** X18.  The projection of an image whose pixels lie between [lo <= 0]
    and [hi >= 0] lies between [(nx - inner) * lo] and [(nx - inner) * hi]:
    every interpolated value is a weighted mean of four pixels, and each
    entry of the projection adds [nx - inner] of them. *)
Theorem projection_within_bounds
        (dims : Z * Z) (inner : Z) (thetas : list R) (Radop : LinearOperator)
        (lo hi : R) (x u : list R) :
  (lo <= 0 <= hi)%R ->
  RadonRotate dims inner thetas = Ok Radop ->
  Forall (fun v => (lo <= v <= hi)%R) x ->
  matvec Radop x = Ok u ->
  Forall (fun v => (IZR (fst dims - inner) * lo <= v
                    <= IZR (fst dims - inner) * hi)%R) u.
Proof.
  intros Hb H Hx Hu.
  destruct (RadonRotate_matvec_blocks _ _ _ _ x H) as (Rops & HR & HM).
  rewrite Hu in HM. destruct (negb _); [discriminate |]. symmetry in HM.
  apply (VStack_matvec_Forall _ Rops x u); [| exact HM].
  apply mapM_Forall2 in HR. clear HM H Hu.
  induction HR as [| t o ts os Hto _ IH]; constructor; auto.
  intros v Hv. exact (angle_block_within lo hi Hb _ _ _ _ _ _ Hto Hx Hv).
Qed.

Lemma projection_within_bounds_witness :
  exists Radop u,
    RadonRotate (4, 4)%Z 2 [0%R] = Ok Radop /\
    matvec Radop (map IZR (Np.arange 16)) = Ok u /\
    Forall (fun v => (IZR (4 - 2) * 0 <= v <= IZR (4 - 2) * 15)%R) u.
Proof.
  destruct (RadonRotate_angle_zero 4 4 2 (map IZR (Np.arange 16)))
    as (Radop & HR & HM); try lia; [reflexivity |].
  exists Radop, (window_column_sums (4, 4)%Z 2 (map IZR (Np.arange 16))).
  split; [exact HR |]. split; [exact HM |].
  apply (projection_within_bounds (4, 4)%Z 2 [0%R] Radop 0 15
           (map IZR (Np.arange 16)) _ ltac:(lra) HR); [| exact HM].
  apply Forall_map_iff. apply Forall_forall. intros k Hk.
  apply arange_In in Hk. split; apply IZR_le; lia.
Defined.

(* ===================================================================== *)
(** ** Further results: the adjoint at angle 0 *)
(* ===================================================================== *)

Section BackProjection.

Local Open Scope R_scope.

Lemma iadd_at_same (y : list R) (k : nat) (v : R) :
  (k < length y)%nat -> nth k (Np.iadd_at y k v) 0 = nth k y 0 + v.
Proof.
  revert k. induction y as [| e y IH]; intros [| k] H; simpl in *; try lia.
  - reflexivity.
  - apply IH. lia.
Qed.

Lemma iadd_at_other (y : list R) (k k' : nat) (v : R) :
  k' <> k -> nth k' (Np.iadd_at y k v) 0 = nth k' y 0.
Proof.
  revert k k'. induction y as [| e y IH]; intros [| k] [| k'] H; simpl;
    try reflexivity; try congruence.
  apply IH. congruence.
Qed.

Lemma iadd_at_zero (y : list R) (k : nat) : Np.iadd_at y k 0 = y.
Proof.
  revert k. induction y as [| e y IH]; intros [| k]; simpl; try reflexivity.
  - f_equal. ring.
  - now rewrite IH.
Qed.

Variable A : Type.
Variable pos : A -> nat.

(** Adding the values [val p] at the positions [pos p]. *)
Lemma scatter_other (val : A -> R) (l : list A) (acc : list R) (k : nat) :
  (forall p, In p l -> pos p <> k) ->
  nth k (fold_left (fun a kv => Np.iadd_at a (fst kv) (snd kv))
                   (combine (map pos l) (map val l)) acc) 0
  = nth k acc 0.
Proof.
  revert acc. induction l as [| q l IH]; intros acc H; simpl; [reflexivity |].
  rewrite IH by (intros p Hp; apply H; now right).
  apply iadd_at_other. intros E. apply (H q); [now left | auto].
Qed.

Lemma scatter_at (val : A -> R) (l : list A) (acc : list R) (p : A) :
  NoDup (map pos l) -> In p l -> (pos p < length acc)%nat ->
  nth (pos p) (fold_left (fun a kv => Np.iadd_at a (fst kv) (snd kv))
                         (combine (map pos l) (map val l)) acc) 0
  = nth (pos p) acc 0 + val p.
Proof.
  revert acc. induction l as [| q l IH]; intros acc Hnd Hin Hp; [destruct Hin |].
  simpl. inversion Hnd as [| ? ? Hq Hnd']; subst.
  destruct Hin as [-> | Hin].
  - rewrite scatter_other.
    + now apply iadd_at_same.
    + intros r Hr E. apply Hq. rewrite <- E. now apply in_map.
  - rewrite IH by (try rewrite iadd_at_length; assumption).
    rewrite iadd_at_other; [reflexivity |].
    intros E. apply Hq. rewrite <- E. now apply in_map.
Qed.

Lemma scatter_zero (val : A -> R) (l : list A) (acc : list R) :
  (forall p, val p = 0) ->
  fold_left (fun a kv => Np.iadd_at a (fst kv) (snd kv))
            (combine (map pos l) (map val l)) acc
  = acc.
Proof.
  intros H. revert acc. induction l as [| q l IH]; intros acc; simpl; [reflexivity |].
  now rewrite H, iadd_at_zero.
Qed.

End BackProjection.

Section BackProjectionAtZero.

Local Open Scope R_scope.

Lemma flat_index_map (A : Type) (dims : Z * Z) (pts : list A) (f g : A -> Z) :
  (forall p, In p pts -> (0 <= f p < fst dims)%Z /\ (0 <= g p < snd dims)%Z) ->
  Py.mapM (Np.flat_index dims) (combine (map f pts) (map g pts))
  = Ok (map (fun p => Z.to_nat (f p * snd dims + g p)) pts).
Proof.
  intros H. induction pts as [| p pts IH]; simpl; [reflexivity |].
  destruct (H p (or_introl eq_refl)) as [Hf Hg].
  unfold Np.flat_index at 1. simpl fst; simpl snd.
  rewrite (index_Ok _ _ Hf), (index_Ok _ _ Hg). simpl.
  rewrite IH; [reflexivity |]. intros q Hq. apply H. now right.
Qed.

Lemma add_at_map (A : Type) (dims : Z * Z) (pts : list A) (f g : A -> Z)
      (val : A -> R) (acc : list R) :
  (forall p, In p pts -> (0 <= f p < fst dims)%Z /\ (0 <= g p < snd dims)%Z) ->
  Np.add_at acc dims (map f pts) (map g pts) (map val pts)
  = Ok (fold_left (fun a kv => Np.iadd_at a (fst kv) (snd kv))
                  (combine (map (fun p => Z.to_nat (f p * snd dims + g p)) pts)
                           (map val pts)) acc).
Proof.
  intros H. unfold Np.add_at. now rewrite flat_index_map.
Qed.

Lemma map_list_prod (B : Type) (v : Z * Z -> B) (xs ys : list Z) :
  map v (list_prod xs ys) = concat (map (fun xi => map (fun yj => v (xi, yj)) ys) xs).
Proof.
  induction xs as [| x xs IH]; simpl; [reflexivity |].
  now rewrite map_app, map_map, IH.
Qed.

Lemma map_const_repeat (B C : Type) (c : C) (l : list B) :
  map (fun _ => c) l = repeat c (length l).
Proof. induction l as [| a l IH]; simpl; [| rewrite IH]; reflexivity. Qed.

Lemma add_zeros_l (z : list R) : Np.add (Np.zeros (length z)) z = z.
Proof.
  unfold Np.add, Np.zeros. induction z as [| e z IH]; simpl; [reflexivity |].
  rewrite IH. f_equal. ring.
Qed.

(** The vector [y] repeated once for every row of the window, as values
    on the points of the window. *)
Lemma tiled_on_window (nx ny inner : Z) (y : list R) :
  (inner <= nx)%Z -> (inner <= ny)%Z ->
  Z.of_nat (length y) = (ny - inner)%Z ->
  concat (repeat y (Z.to_nat (nx - inner)))
  = map (fun p : Z * Z => nth (Z.to_nat (snd p + ny / 2 - inner / 2)) y 0)
        (window (nx, ny) inner).
Proof.
  intros Hx Hy Ly. unfold window. rewrite map_list_prod. f_equal.
  rewrite map_map. cbn [snd].
  rewrite <- (arange_length (nx - inner)), <- map_const_repeat.
  apply map_ext. intros i. rewrite map_map.
  replace (ny - inner)%Z with (Z.of_nat (length y)) by exact Ly.
  rewrite arange_of_nat, map_map.
  rewrite <- (map_nth_seq R y 0) at 1.
  apply map_ext. intros j. f_equal. lia.
Qed.

Lemma NoDup_map_inj_in (B C : Type) (f : B -> C) (l : list B) :
  (forall a b, In a l -> In b l -> f a = f b -> a = b) -> NoDup l -> NoDup (map f l).
Proof.
  intros Hinj H. induction H as [| a l Hin Hnd IH]; simpl; constructor.
  - rewrite in_map_iff. intros (b & Hb & Hbl).
    apply Hinj in Hb; [now subst | now right | now left].
  - apply IH. intros b c Hb Hc. apply Hinj; now right.
Qed.

Lemma window_positions_NoDup (nx ny inner : Z) :
  (1 <= inner)%Z -> (inner <= nx)%Z -> (inner <= ny)%Z ->
  NoDup (map (fun p : Z * Z => Z.to_nat ((fst p + nx / 2) * ny + (snd p + ny / 2)))
             (window (nx, ny) inner)).
Proof.
  intros Hi Hx Hy. apply NoDup_map_inj_in; [| apply window_NoDup].
  intros [a b] [c d] Hp Hq E. apply window_In in Hp, Hq. cbn [fst snd] in *.
  pose proof (Z.div_mod inner 2 ltac:(lia)) as D.
  pose proof (Z.mod_pos_bound inner 2 ltac:(lia)) as D'.
  assert (E' : ((a + nx / 2) * ny + (b + ny / 2) = (c + nx / 2) * ny + (d + ny / 2))%Z).
  { apply Z2Nat.inj in E; [exact E | nia | nia]. }
  assert (Ha : (a = c)%Z) by nia.
  subst c. f_equal. lia.
Qed.

End BackProjectionAtZero.

Section BackProjectionOperator.

Local Open Scope R_scope.

Lemma mul_map (B : Type) (a b : B -> R) (l : list B) :
  Np.mul (map a l) (map b l) = map (fun p => a p * b p) l.
Proof. unfold Np.mul. apply map2_map. Qed.

(** The adjoint of [Bilinear] at points with whole coordinates adds each
    value onto one pixel. *)
Lemma Bilinear_rmatvec_whole (nx ny : Z) (pts : list (Z * Z)) (f g : Z * Z -> Z)
      (v : Z * Z -> R) :
  (forall p, In p pts -> (0 <= f p /\ f p + 1 < nx)%Z /\ (0 <= g p /\ g p + 1 < ny)%Z) ->
  (0 <= nx)%Z -> (0 <= ny)%Z ->
  Bilinear_rmatvec (nx, ny)
    (map f pts) (map (fun p => (f p + 1)%Z) pts) (map (fun _ => 0) pts)
    (map g pts) (map (fun p => (g p + 1)%Z) pts) (map (fun _ => 0) pts)
    (map v pts)
  = Ok (fold_left (fun a kv => Np.iadd_at a (fst kv) (snd kv))
                  (combine (map (fun p => Z.to_nat (f p * ny + g p)) pts) (map v pts))
                  (Np.zeros (Z.to_nat (nx * ny)))).
Proof.
  intros H Hnx Hny. unfold Bilinear_rmatvec. cbn [fst snd].
  destruct (Z.leb_spec 0 nx); [| lia]. destruct (Z.leb_spec 0 ny); [| lia].
  cbn [andb]. unfold one_minus. rewrite !map_map, !mul_map.
  rewrite (add_at_map _ (nx, ny) pts f g)
    by (intros p Hp; destruct (H p Hp); cbn [fst snd]; lia).
  cbn [Py.bind fst snd].
  rewrite (add_at_map _ (nx, ny) pts f (fun p => (g p + 1)%Z))
    by (intros p Hp; destruct (H p Hp); cbn [fst snd]; lia).
  cbn [Py.bind fst snd].
  rewrite (add_at_map _ (nx, ny) pts (fun p => (f p + 1)%Z) g)
    by (intros p Hp; destruct (H p Hp); cbn [fst snd]; lia).
  cbn [Py.bind fst snd].
  rewrite (add_at_map _ (nx, ny) pts (fun p => (f p + 1)%Z) (fun p => (g p + 1)%Z))
    by (intros p Hp; destruct (H p Hp); cbn [fst snd]; lia).
  cbn [fst snd]. f_equal.
  rewrite scatter_zero by (intros; ring).
  rewrite scatter_zero by (intros; ring).
  rewrite scatter_zero by (intros; ring).
  f_equal. f_equal. apply map_ext. intros p. ring.
Qed.

Lemma VStack_rmatvec_single (o : LinearOperator) (y acc : list R) :
  VStack_rmatvec (fun o => Z.to_nat (fst (shape o))) rmatvec [o] y acc
  = (v <- rmatvec o (firstn (Z.to_nat (fst (shape o))) y) ;; Ok (Np.add acc v)).
Proof. reflexivity. Qed.

End BackProjectionOperator.

(** X19.  The adjoint at angle 0 spreads the data over the columns of the
    window: for [1 <= inner <= nx, ny] and a data vector [y] of
    [ny - inner] entries, the adjoint of [RadonRotate(dims, inner, [0])]
    returns an image of [nx * ny] pixels in which pixel
    [(i + inner//2, j + inner//2)] of the window is [y[j]], for every row
    [i] of the window, and every pixel outside the window is 0. *)
Theorem backprojection_at_angle_zero (nx ny inner : Z) (y : list R) :
  (1 <= inner)%Z -> (inner <= nx)%Z -> (inner <= ny)%Z ->
  Z.of_nat (length y) = (ny - inner)%Z ->
  exists Radop z,
    RadonRotate (nx, ny) inner [0%R] = Ok Radop /\
    rmatvec Radop y = Ok z /\
    Z.of_nat (length z) = (nx * ny)%Z /\
    (forall i j, (0 <= i < nx - inner)%Z -> (0 <= j < ny - inner)%Z ->
       window_pixel (nx, ny) inner z i j = nth (Z.to_nat j) y 0%R) /\
    (forall k,
       (forall i j, (0 <= i < nx - inner)%Z -> (0 <= j < ny - inner)%Z ->
          k <> Z.to_nat ((i + inner / 2) * ny + (j + inner / 2))) ->
       nth k z 0%R = 0%R).
Proof.
  intros Hi Hx Hy Ly.
  pose proof (angle_zero_fields nx ny inner Hx Hy) as Hb. cbv zeta in Hb.
  set (W := window (nx, ny) inner) in *.
  set (f := fun p : Z * Z => (fst p + nx / 2)%Z) in *.
  set (g := fun p : Z * Z => (snd p + ny / 2)%Z) in *.
  set (S := SumOp ((nx - inner)%Z, (ny - inner)%Z) 0) in *.
  set (B := BilinearOp (nx, ny)
              (map f W) (map (fun p => (f p + 1)%Z) W) (map (fun _ => 0%R) W)
              (map g W) (map (fun p => (g p + 1)%Z) W) (map (fun _ => 0%R) W)) in *.
  assert (HR : RadonRotate (nx, ny) inner [0%R] = Ok (VStackOp [ProductOp S B])).
  { rewrite RadonRotate_blocks. simpl Py.mapM. rewrite Hb. reflexivity. }
  pose proof (RadonRotate_shape _ _ _ _ HR) as Hsh.
  cbn [length fst snd] in Hsh.
  assert (D : (2 * (inner / 2) <= inner < 2 * (inner / 2) + 2)%Z)
    by (clear; Z.to_euclidean_division_equations; lia).
  assert (Hin : forall p, In p W ->
            (0 <= f p /\ f p + 1 < nx)%Z /\ (0 <= g p /\ g p + 1 < ny)%Z).
  { intros p Hp. apply window_In in Hp. unfold f, g. cbn [fst snd] in Hp.
    clear - Hp Hi Hx Hy D. destruct p as [a b]. cbn [fst snd] in *. lia. }
  set (v := fun p : Z * Z => nth (Z.to_nat (snd p + ny / 2 - inner / 2)) y 0%R).
  set (pos := fun p : Z * Z => Z.to_nat (f p * ny + g p)).
  set (z := fold_left (fun a kv => Np.iadd_at a (fst kv) (snd kv))
                      (combine (map pos W) (map v W))
                      (Np.zeros (Z.to_nat (nx * ny)))).
  assert (Lz : length z = Z.to_nat (nx * ny))
    by (unfold z; rewrite scatter_length; apply zeros_length).
  assert (Hz : rmatvec (VStackOp [ProductOp S B]) y = Ok z).
  { rewrite rmatvec_checked by (rewrite Hsh; cbn [fst]; clear - Ly; lia).
    rewrite VStack_rmatvec_single.
    assert (E1 : fst (shape (ProductOp S B)) = (ny - inner)%Z) by reflexivity.
    rewrite E1, firstn_all2 by lia.
    rewrite (rmatvec_checked (ProductOp S B)) by (rewrite E1; exact Ly).
    rewrite (rmatvec_checked S) by exact Ly.
    unfold S at 1. cbv iota. unfold Sum_rmatvec. cbn [fst snd].
    destruct (Z.leb_spec 0 (nx - inner)); [| lia].
    destruct (Z.leb_spec 0 (ny - inner)); [| lia].
    cbn [andb Py.bind]. change (0 =? 0)%Z with true. cbv iota.
    rewrite (tiled_on_window nx ny inner y Hx Hy Ly). fold W. fold v.
    rewrite rmatvec_checked by (unfold B; cbn [shape fst]; now rewrite !length_map).
    unfold B at 1. cbv iota.
    rewrite (Bilinear_rmatvec_whole nx ny W f g v Hin) by lia.
    cbn [Py.bind]. fold pos. fold z. f_equal.
    rewrite Hsh. cbn [snd]. rewrite <- Lz. apply add_zeros_l. }
  exists (VStackOp [ProductOp S B]), z.
  split; [exact HR |]. split; [exact Hz |]. split; [rewrite Lz; nia |]. split.
  - intros i j Hi' Hj'. unfold window_pixel. cbn [fst snd].
    set (p := ((i - nx / 2 + inner / 2)%Z, (j - ny / 2 + inner / 2)%Z)).
    assert (Hp : In p W).
    { unfold W, window. apply in_prod; apply in_map_iff.
      - exists i. split; [reflexivity | now apply arange_In].
      - exists j. split; [reflexivity | now apply arange_In]. }
    assert (Ep : Z.to_nat ((i + inner / 2) * ny + (j + inner / 2)) = pos p).
    { unfold pos, f, g, p. cbn [fst snd]. f_equal. ring. }
    rewrite Ep. unfold z.
    rewrite (scatter_at _ pos v W _ p (window_positions_NoDup nx ny inner Hi Hx Hy) Hp).
    + rewrite nth_zeros. unfold v, p. cbn [fst snd].
      replace (j - ny / 2 + inner / 2 + ny / 2 - inner / 2)%Z with j by ring.
      ring.
    + rewrite zeros_length, <- Ep. clear - Hi' Hj' Hi Hx Hy D. nia.
  - intros k Hk. unfold z. rewrite scatter_other; [apply nth_zeros |].
    intros p Hp E. pose proof (window_In _ _ _ Hp) as Hw. cbn [fst snd] in Hw.
    apply (Hk (fst p + nx / 2 - inner / 2)%Z (snd p + ny / 2 - inner / 2)%Z);
      [lia | lia |].
    rewrite <- E. unfold pos, f, g. f_equal. ring.
Qed.

Lemma backprojection_at_angle_zero_witness :
  exists Radop z,
    RadonRotate (4, 4)%Z 2 [0%R] = Ok Radop /\
    rmatvec Radop [5; 7]%R = Ok z /\
    window_pixel (4, 4)%Z 2 z 0 1 = 7%R.
Proof.
  destruct (backprojection_at_angle_zero 4 4 2 [5; 7]%R
              ltac:(lia) ltac:(lia) ltac:(lia) ltac:(reflexivity))
    as (Radop & z & HR & Hz & _ & Hw & _).
  exists Radop, z. split; [exact HR |]. split; [exact Hz |].
  exact (Hw 0%Z 1%Z ltac:(lia) ltac:(lia)).
Defined.

(* ===================================================================== *)
(** ** Further results: shifting the spectrum back *)
(* ===================================================================== *)

Section SpectrumShift.

Lemma fftshift_ifftshift (A : Type) (l : list A) : fftshift (ifftshift l) = l.
Proof.
  unfold fftshift. cbv zeta. rewrite ifftshift_length. unfold ifftshift. cbv zeta.
  set (s := (length l / 2)%nat).
  assert (Hs : (s <= length l)%nat)
    by (unfold s; apply Nat.Div0.div_le_upper_bound; lia).
  assert (L : length (skipn s l) = (length l - s)%nat) by apply length_skipn.
  rewrite skipn_app_exact by exact L. rewrite firstn_app_exact by exact L.
  apply firstn_skipn.
Qed.

Lemma ifftshift_map (A B : Type) (f : A -> B) (l : list A) :
  ifftshift (map f l) = map f (ifftshift l).
Proof.
  unfold ifftshift. cbv zeta. now rewrite length_map, map_app, skipn_map, firstn_map.
Qed.

End SpectrumShift.

(** X20.  [np.fft.fftshift] undoes the [np.fft.ifftshift] that [radon_kk]
    applies to its mask, for an array of any size, odd sides included:
    shifted back, the samples are where the loop over the angles put
    them. *)
Theorem fftshift_undoes_ifftshift (A : Type) (a : list (list A)) :
  fftshift2 (ifftshift2 a) = a.
Proof.
  unfold fftshift2, ifftshift2.
  rewrite <- ifftshift_map, fftshift_ifftshift, map_map.
  rewrite <- (map_id a) at 2. apply map_ext. intros r. apply fftshift_ifftshift.
Qed.

(* ===================================================================== *)
(** ** Further results: how many samples [radon_kk] keeps *)
(* ===================================================================== *)

Section SampleCount.

Lemma list_set_count (A : Type) (P : A -> bool) (l : list A) (k : nat) (v : A) :
  (length (filter P (list_set l k v)) <= length (filter P l) + 1)%nat.
Proof.
  revert k. induction l as [| e l IH]; intros [| k]; simpl; try lia.
  - destruct (P v), (P e); simpl; lia.
  - specialize (IH k). destruct (P e); simpl; lia.
Qed.

Lemma set2_count (m : list (list R)) (i j : nat) (v : R) :
  (count_nonzero (set2 m i j v) <= count_nonzero m + 1)%nat.
Proof.
  unfold count_nonzero, Np.ravel, set2. revert i.
  induction m as [| r m IH]; intros [| i]; simpl; try lia.
  - rewrite !filter_app, !length_app.
    pose proof (list_set_count R nonzero r j v). lia.
  - rewrite !filter_app, !length_app. specialize (IH i). lia.
Qed.

Lemma fold_set2_count (ijs : list (nat * nat)) (m : list (list R)) :
  (count_nonzero (fold_left (fun m ij => set2 m (fst ij) (snd ij) 1%R) ijs m)
   <= count_nonzero m + length ijs)%nat.
Proof.
  revert m. induction ijs as [| ij ijs IH]; intros m; simpl; [lia |].
  specialize (IH (set2 m (fst ij) (snd ij) 1%R)).
  pose proof (set2_count m (fst ij) (snd ij) 1%R). lia.
Qed.

Lemma select_length (A : Type) (l : list A) (sel : list bool) :
  (length (select l sel) <= length l)%nat.
Proof.
  unfold select. rewrite length_map.
  pose proof (filter_length_le snd (combine l sel)) as H.
  rewrite length_combine in H. lia.
Qed.

(** One pass of the loop marks at most one sample in each row. *)
Lemma radon_kk_line_count (nx ny : Z) (mask mask' : list (list R)) (theta : Z) :
  radon_kk_line nx ny mask theta = Ok mask' ->
  (count_nonzero mask' <= count_nonzero mask + Z.to_nat nx)%nat.
Proof.
  unfold radon_kk_line, setitem2. cbv zeta. intros H.
  apply bind_Ok_inv in H. destruct H as (ijs & Hijs & H).
  inversion H; subst mask'; clear H.
  apply mapM_length in Hijs. rewrite length_combine in Hijs.
  pose proof (fold_set2_count ijs mask) as F.
  match type of Hijs with
  | length ijs = Nat.min (length (select ?l ?s)) _ =>
      pose proof (select_length Z l s) as L
  end.
  rewrite arange_length in L. lia.
Qed.

Lemma radon_kk_loop_count (nx ny : Z) (thetas : list Z) (mask mask' : list (list R)) :
  Py.for_each (radon_kk_line nx ny) thetas mask = Ok mask' ->
  (count_nonzero mask' <= count_nonzero mask + length thetas * Z.to_nat nx)%nat.
Proof.
  revert mask. induction thetas as [| t ts IH]; intros mask H; simpl in H.
  - inversion H. simpl. lia.
  - apply bind_Ok_inv in H. destruct H as (m1 & H1 & H).
    apply radon_kk_line_count in H1. apply IH in H. simpl. lia.
Qed.

Lemma zeros2_count (nx ny : Z) (mask : list (list R)) :
  zeros2 nx ny = Ok mask -> count_nonzero mask = O.
Proof.
  unfold zeros2. destruct (_ || _)%bool; [discriminate |].
  intros H. inversion H; subst mask; clear H.
  unfold count_nonzero, Np.ravel. generalize (Z.to_nat nx) as M.
  induction M as [| M IH]; simpl; [reflexivity |].
  rewrite filter_app, length_app, IH.
  unfold Np.zeros. generalize (Z.to_nat ny) as N.
  induction N as [| N IHN]; simpl; [reflexivity |].
  unfold nonzero at 1. destruct (Req_dec_T 0 0); [exact IHN | congruence].
Qed.

Lemma row_or_count (r s : list R) :
  (length (filter (fun b : bool => b)
                  (Np.map2 (fun u v => nonzero u || nonzero v) r s))
   <= length (filter nonzero r) + length (filter nonzero s))%nat.
Proof.
  revert s. induction r as [| u r IH]; intros [| v s]; simpl; try lia.
  specialize (IH s). destruct (nonzero u), (nonzero v); simpl; lia.
Qed.

Lemma or_count (a b : list (list R)) :
  (count_true (Np.map2 (Np.map2 (fun u v => nonzero u || nonzero v)) a b)
   <= count_nonzero a + count_nonzero b)%nat.
Proof.
  unfold count_true, count_nonzero, Np.ravel. revert b.
  induction a as [| r a IH]; intros [| s b]; simpl; try lia.
  rewrite !filter_app, !length_app.
  specialize (IH b). pose proof (row_or_count r s). lia.
Qed.

Lemma fliplr_count (a : list (list R)) : count_nonzero (fliplr a) = count_nonzero a.
Proof.
  unfold count_nonzero, Np.ravel, fliplr.
  induction a as [| r a IH]; simpl; [reflexivity |].
  now rewrite !filter_app, !length_app, IH, filter_rev, length_rev.
Qed.

Lemma columns_count (F : nat -> R) (G : nat -> list R) (js : list nat) :
  count_nonzero (map (fun j => F j :: G j) js)
  = (length (filter nonzero (map F js)) + count_nonzero (map G js))%nat.
Proof.
  unfold count_nonzero, Np.ravel.
  induction js as [| j js IH]; simpl; [reflexivity |].
  destruct (nonzero (F j)); simpl; rewrite !filter_app, !length_app, IH; lia.
Qed.

Lemma transpose_count (N : nat) (a : list (list R)) :
  Forall (fun r => length r = N) a ->
  count_nonzero (transpose N a) = count_nonzero a.
Proof.
  intros H. unfold transpose. induction H as [| r a Hr _ IH].
  - simpl. unfold count_nonzero, Np.ravel. generalize (seq 0 N) as js.
    induction js; simpl; auto.
  - simpl map.
    rewrite (columns_count (fun j => nth j r 0%R)
               (fun j => map (fun r0 => nth j r0 0%R) a)).
    rewrite IH. rewrite <- Hr, map_nth_seq.
    unfold count_nonzero, Np.ravel. simpl. now rewrite filter_app, length_app.
Qed.

Lemma ifftshift_count (A : Type) (P : A -> bool) (l : list A) :
  length (filter P (ifftshift l)) = length (filter P l).
Proof.
  unfold ifftshift. cbv zeta.
  assert (E : length (filter P l)
              = length (filter P (firstn (length l / 2) l ++ skipn (length l / 2) l)))
    by (now rewrite firstn_skipn).
  rewrite E, !filter_app, !length_app. lia.
Qed.

Lemma ifftshift2_count (c : list (list bool)) :
  count_true (ifftshift2 c) = count_true c.
Proof.
  unfold count_true, Np.ravel, ifftshift2.
  transitivity (length (filter (fun b : bool => b) (concat (map ifftshift c)))).
  - unfold ifftshift at 1. cbv zeta.
    set (l := map ifftshift c).
    assert (E : length (filter (fun b : bool => b) (concat l))
                = length (filter (fun b : bool => b)
                            (concat (firstn (length l / 2) l ++ skipn (length l / 2) l))))
      by (now rewrite firstn_skipn).
    rewrite E, !concat_app, !filter_app, !length_app. lia.
  - induction c as [| r c IH]; simpl; [reflexivity |].
    now rewrite !filter_app, !length_app, IH, ifftshift_count.
Qed.

Lemma where_true_length (l : list bool) :
  length (where_true l) = length (filter (fun b => b) l).
Proof.
  unfold where_true. rewrite length_map.
  assert (G : forall (ks : list Z), length ks = length l ->
              length (filter snd (combine ks l)) = length (filter (fun b => b) l)).
  { induction l as [| b l IH]; intros [| k ks] H; simpl in *; try discriminate;
      [reflexivity |].
    destruct b; simpl; rewrite IH by congruence; reflexivity. }
  apply G. rewrite arange_length. lia.
Qed.

Lemma radon_kk_square_returns (n : Z) (thetas : list Z) :
  (1 <= n)%Z -> exists iava, radon_kk_iava n n thetas = Ok iava.
Proof.
  intros Hn. unfold radon_kk_iava.
  destruct (zeros2_Ok n n ltac:(lia) ltac:(lia)) as (m0 & E0 & S0).
  rewrite E0. simpl Py.bind.
  destruct (radon_kk_loop n n thetas m0 Hn ltac:(lia) S0) as (m1 & E1 & S1 & _).
  rewrite E1. simpl Py.bind. cbv zeta.
  destruct (logical_or_square (Z.to_nat n) m1 _ S1
              (flipped_transpose_shape _ _ m1 S1)) as (c & Ec & _).
  rewrite Ec. simpl Py.bind. eexists. reflexivity.
Qed.

End SampleCount.

(** X21.  [radon_kk] keeps few samples: for a square image of side
    [n >= 1] the number of positions handed to [Restriction] is at most
    [2 * n * len(thetas)], since each angle marks at most one sample in
    each row and the union with the turned mask at most doubles their
    number. *)
Theorem kk_mask_sample_count (n : Z) (thetas : list Z) (iava : list Z) :
  (1 <= n)%Z ->
  radon_kk_iava n n thetas = Ok iava ->
  (Z.of_nat (length iava) <= 2 * n * Z.of_nat (length thetas))%Z.
Proof.
  intros Hn H. unfold radon_kk_iava in H.
  destruct (zeros2_Ok n n ltac:(lia) ltac:(lia)) as (m0 & E0 & S0).
  rewrite E0 in H. simpl Py.bind in H.
  destruct (radon_kk_loop n n thetas m0 Hn ltac:(lia) S0) as (m1 & E1 & S1 & _).
  rewrite E1 in H. simpl Py.bind in H. cbv zeta in H.
  pose proof (radon_kk_loop_count _ _ _ _ _ E1) as C1.
  rewrite (zeros2_count _ _ _ E0) in C1.
  set (N := Z.to_nat n) in *.
  pose proof (flipped_transpose_shape N N m1 S1) as S2.
  assert (C2 : count_nonzero (fliplr (transpose N m1)) = count_nonzero m1).
  { rewrite fliplr_count. apply transpose_count. apply S1. }
  assert (E : logical_or (N, N) m1 (N, N) (fliplr (transpose N m1))
              = Ok (Np.map2 (Np.map2 (fun u v => nonzero u || nonzero v))
                            m1 (fliplr (transpose N m1)))).
  { destruct S1 as [L1 F1], S2 as [L2 F2].
    unfold logical_or, broadcast2, broadcast_dim. cbn [fst snd].
    rewrite Nat.eqb_refl. simpl Py.bind.
    rewrite !stretch_rows by assumption. now rewrite !stretch_same by assumption. }
  rewrite E in H. simpl Py.bind in H. inversion H; subst iava; clear H.
  rewrite where_true_length.
  replace (map (fun b : bool => (Z.b2z b =? 1)%Z) (Np.ravel (ifftshift2 _)))
    with (Np.ravel (ifftshift2 (Np.map2 (Np.map2 (fun u v => nonzero u || nonzero v))
                                        m1 (fliplr (transpose N m1))))).
  2:{ rewrite <- (map_id (Np.ravel _)) at 1. apply map_ext. now intros []. }
  fold (count_true (ifftshift2 (Np.map2 (Np.map2 (fun u v => nonzero u || nonzero v))
                                        m1 (fliplr (transpose N m1))))).
  rewrite ifftshift2_count.
  pose proof (or_count m1 (fliplr (transpose N m1))) as C3.
  rewrite C2 in C3. unfold N in *. nia.
Qed.

Lemma kk_mask_sample_count_witness :
  exists iava,
    radon_kk_iava 300 300 radon_kk_thetas = Ok iava /\
    (Z.of_nat (length iava) <= 10800)%Z.
Proof.
  destruct (radon_kk_square_returns 300 radon_kk_thetas ltac:(lia)) as (iava & E).
  exists iava. split; [exact E |].
  exact (kk_mask_sample_count 300 radon_kk_thetas iava ltac:(lia) E).
Defined.

(* ===================================================================== *)
(** ** Further results: which samples [radon_kk] keeps *)
(* ===================================================================== *)

Section MaskPositions.

Lemma fold_set2_entry (M N : nat) (ijs : list (nat * nat)) (m : list (list R))
      (i j : nat) :
  has_shape m M N -> (i < M)%nat -> (j < N)%nat ->
  nth j (nth i (fold_left (fun m ij => set2 m (fst ij) (snd ij) 1%R) ijs m) []) 0%R
  <> 0%R
  <-> nth j (nth i m []) 0%R <> 0%R \/ In (i, j) ijs.
Proof.
  intros Hs Hi Hj. split.
  - revert m Hs. induction ijs as [| [a b] ijs IH]; intros m Hs H; simpl in H;
      [now left |].
    destruct (IH _ (set2_shape M N m a b 1%R Hs) H) as [H1 | H1];
      [| right; now right].
    rewrite set2_entry in H1.
    destruct (Nat.eqb_spec i a) as [-> | Hia]; simpl in H1; [| now left].
    destruct (Nat.ltb_spec a (length m)); simpl in H1; [| now left].
    destruct (Nat.eqb_spec j b) as [-> | Hjb]; simpl in H1; [| now left].
    right. now left.
  - intros [H | H].
    + now apply fold_set2_keeps.
    + now apply (fold_set2_marks M N).
Qed.

(** One pass of the loop, written out. *)
Lemma radon_kk_line_eq (n : Z) (mask : list (list R)) (theta : Z) :
  (1 <= n)%Z ->
  radon_kk_line n n mask theta
  = Ok (fold_left (fun m ij => set2 m (fst ij) (snd ij) 1%R)
          (map (fun k => (Z.to_nat k, Z.to_nat (radon_kk_iky n theta k)))
               (filter (fun k => ((0 <=? radon_kk_iky n theta k)
                                  && (radon_kk_iky n theta k <? n))%Z%bool)
                       (Np.arange n)))
          mask).
Proof.
  intros Hx. unfold radon_kk_line. cbv zeta.
  set (g := radon_kk_iky n theta).
  set (T := fun k : Z => ((0 <=? g k) && (g k <? n))%Z%bool).
  rewrite !map_map.
  change (map (fun x : Z => (np_round (IZR (x - Py.floordiv n 2)
                                       * tan (Np.deg2rad (IZR theta)))
                             + Py.floordiv n 2)%Z) (Np.arange n))
    with (map g (Np.arange n)).
  change (map (fun x : Z =>
                 ((0 <=? np_round (IZR (x - Py.floordiv n 2)
                                   * tan (Np.deg2rad (IZR theta)))
                          + Py.floordiv n 2)
                  && (np_round (IZR (x - Py.floordiv n 2)
                                * tan (Np.deg2rad (IZR theta)))
                      + Py.floordiv n 2 <? n))%Z%bool) (Np.arange n))
    with (map T (Np.arange n)).
  replace (select (Np.arange n) (map T (Np.arange n)))
    with (select (map (fun k : Z => k) (Np.arange n)) (map T (Np.arange n)))
    by (now rewrite map_id).
  rewrite !select_map. unfold setitem2. rewrite combine_map.
  rewrite (mapM_pure _ _ _ (fun p : Z * Z => (Z.to_nat (fst p), Z.to_nat (snd p)))).
  2:{ intros [i j] Hin. apply in_map_iff in Hin. destruct Hin as (k & E & Hk).
      apply filter_In in Hk. destruct Hk as [Hk HT]. apply arange_In in Hk.
      injection E as <- <-. unfold T in HT. apply andb_true_iff in HT.
      destruct HT as [H0 H1]. apply Z.leb_le in H0. apply Z.ltb_lt in H1.
      unfold index2. cbn [fst snd].
      rewrite (index_Ok n k) by lia. simpl Py.bind.
      rewrite (index_Ok n (g k)) by lia. reflexivity. }
  simpl Py.bind. now rewrite map_map.
Qed.

Lemma radon_kk_line_entry (n : Z) (mask mask' : list (list R)) (theta : Z)
      (a b : nat) :
  (1 <= n)%Z -> has_shape mask (Z.to_nat n) (Z.to_nat n) ->
  radon_kk_line n n mask theta = Ok mask' ->
  (a < Z.to_nat n)%nat -> (b < Z.to_nat n)%nat ->
  nth b (nth a mask' []) 0%R <> 0%R
  <-> nth b (nth a mask []) 0%R <> 0%R
      \/ Z.of_nat b = radon_kk_iky n theta (Z.of_nat a).
Proof.
  intros Hn Hs H Ha Hb. rewrite radon_kk_line_eq in H by exact Hn.
  inversion H; subst mask'; clear H.
  rewrite (fold_set2_entry (Z.to_nat n) (Z.to_nat n) _ mask a b Hs Ha Hb).
  apply or_iff_compat_l. rewrite in_map_iff. split.
  - intros (k & E & Hk). apply filter_In in Hk. destruct Hk as [Hk HT].
    apply arange_In in Hk. apply andb_true_iff in HT. destruct HT as [H0 H1].
    apply Z.leb_le in H0. apply Z.ltb_lt in H1.
    injection E as E1 E2. replace (Z.of_nat a) with k by lia. lia.
  - intros E. exists (Z.of_nat a). rewrite <- E, !Nat2Z.id. split; [reflexivity |].
    apply filter_In. split; [apply arange_In; lia |].
    rewrite <- E. apply andb_true_iff. split; [apply Z.leb_le | apply Z.ltb_lt]; lia.
Qed.

Lemma radon_kk_loop_entry (n : Z) (thetas : list Z) (mask mask' : list (list R))
      (a b : nat) :
  (1 <= n)%Z -> has_shape mask (Z.to_nat n) (Z.to_nat n) ->
  Py.for_each (radon_kk_line n n) thetas mask = Ok mask' ->
  (a < Z.to_nat n)%nat -> (b < Z.to_nat n)%nat ->
  nth b (nth a mask' []) 0%R <> 0%R
  <-> nth b (nth a mask []) 0%R <> 0%R
      \/ exists theta, In theta thetas /\
                       Z.of_nat b = radon_kk_iky n theta (Z.of_nat a).
Proof.
  intros Hn Hs H Ha Hb. revert mask Hs H.
  induction thetas as [| t ts IH]; intros mask Hs H; simpl in H.
  - inversion H; subst mask'. split; [now left |].
    intros [E | (t & [] & _)]. exact E.
  - apply bind_Ok_inv in H. destruct H as (m1 & H1 & H).
    destruct (radon_kk_line_Ok n n mask t Hn ltac:(lia) Hs) as (m1' & E1 & S1 & _).
    rewrite H1 in E1. inversion E1; subst m1'; clear E1.
    rewrite (IH m1 S1 H).
    rewrite (radon_kk_line_entry n mask m1 t a b Hn Hs H1 Ha Hb).
    split.
    + intros [[E | E] | (t' & Ht' & E)].
      * now left.
      * right. exists t. split; [now left | exact E].
      * right. exists t'. split; [now right | exact E].
    + intros [E | (t' & [<- | Ht'] & E)].
      * left. now left.
      * left. now right.
      * right. exists t'. split; assumption.
Qed.

Lemma logical_or_square_eq (N : nat) (a b : list (list R)) :
  has_shape a N N -> has_shape b N N ->
  logical_or (N, N) a (N, N) b
  = Ok (Np.map2 (Np.map2 (fun u v => nonzero u || nonzero v)) a b).
Proof.
  intros [La Fa] [Lb Fb]. unfold logical_or, broadcast2, broadcast_dim. cbn [fst snd].
  rewrite Nat.eqb_refl. simpl Py.bind.
  rewrite !stretch_rows by assumption. now rewrite !stretch_same by assumption.
Qed.

Lemma or_entry (N : nat) (a b : list (list R)) (i j : nat) :
  has_shape a N N -> has_shape b N N -> (i < N)%nat -> (j < N)%nat ->
  nth j (nth i (Np.map2 (Np.map2 (fun u v => nonzero u || nonzero v)) a b) []) false
  = nonzero (nth j (nth i a []) 0%R) || nonzero (nth j (nth i b []) 0%R).
Proof.
  intros [La Fa] [Lb Fb] Hi Hj.
  rewrite (map2_nth _ _ _ _ a b i [] [] []) by lia.
  assert (L1 : length (nth i a []) = N).
  { rewrite Forall_forall in Fa. apply Fa. apply nth_In. lia. }
  assert (L2 : length (nth i b []) = N).
  { rewrite Forall_forall in Fb. apply Fb. apply nth_In. lia. }
  now rewrite (map2_nth _ _ _ _ _ _ j 0%R 0%R false) by lia.
Qed.

Lemma flipped_transpose_entry (N : nat) (a : list (list R)) (i j : nat) :
  has_shape a N N -> (i < N)%nat -> (j < N)%nat ->
  nth j (nth i (fliplr (transpose N a)) []) 0%R
  = nth i (nth (N - 1 - j) a []) 0%R.
Proof.
  intros [La Fa] Hi Hj. unfold fliplr.
  pose proof (transpose_shape N a) as [Lt Ft]. rewrite La in Ft.
  rewrite (nth_map_in _ _ (@rev R) _ i [] []) by lia.
  assert (Lr : length (nth i (transpose N a) []) = N).
  { rewrite Forall_forall in Ft. apply Ft. apply nth_In. lia. }
  rewrite rev_nth by lia. rewrite Lr.
  replace (N - S j)%nat with (N - 1 - j)%nat by lia.
  apply transpose_entry; lia.
Qed.

(** The position an entry of the shifted array comes from. *)
Lemma ifftshift_nth (A : Type) (l : list A) (i : nat) (d : A) :
  (i < length l)%nat ->
  nth i (ifftshift l) d
  = nth (if (i <? length l - length l / 2)%nat then (length l / 2 + i)%nat
         else (i - (length l - length l / 2))%nat) l d.
Proof.
  intros Hi. unfold ifftshift. cbv zeta.
  assert (Hs : (length l / 2 <= length l)%nat)
    by (apply Nat.Div0.div_le_upper_bound; lia).
  destruct (Nat.ltb_spec i (length l - length l / 2)).
  - rewrite app_nth1 by (rewrite length_skipn; lia). apply nth_skipn.
  - rewrite app_nth2 by (rewrite length_skipn; lia). rewrite length_skipn.
    rewrite nth_firstn.
    destruct (Nat.ltb_spec (i - (length l - length l / 2)) (length l / 2));
      [reflexivity | lia].
Qed.

Lemma ifftshift2_entry (N : nat) (c : list (list bool)) (i j : nat) :
  length c = N -> Forall (fun r => length r = N) c -> (i < N)%nat -> (j < N)%nat ->
  let sh := fun k => if (k <? N - N / 2)%nat then (N / 2 + k)%nat
                     else (k - (N - N / 2))%nat in
  nth j (nth i (ifftshift2 c) []) false = nth (sh j) (nth (sh i) c []) false.
Proof.
  intros L F Hi Hj sh. unfold ifftshift2.
  assert (Hs : (N / 2 <= N)%nat) by (apply Nat.Div0.div_le_upper_bound; lia).
  assert (Hshi : (sh i < N)%nat)
    by (unfold sh; destruct (Nat.ltb_spec i (N - N / 2)); lia).
  rewrite ifftshift_nth by (now rewrite length_map, L).
  rewrite length_map, L. fold (sh i).
  rewrite (nth_map_in _ _ (@ifftshift bool) c (sh i) [] []) by lia.
  assert (Lr : length (nth (sh i) c []) = N).
  { rewrite Forall_forall in F. apply F. apply nth_In. lia. }
  rewrite ifftshift_nth by lia. now rewrite Lr.
Qed.

Lemma nth_concat_rows (A : Type) (N : nat) (rows : list (list A)) (r c : nat) (d : A) :
  Forall (fun row => length row = N) rows -> (c < N)%nat ->
  nth (r * N + c) (concat rows) d = nth c (nth r rows []) d.
Proof.
  intros H Hc. revert r. induction H as [| row rows Hrow _ IH]; intros r.
  - simpl. destruct (r * N + c)%nat, r, c; reflexivity.
  - destruct r as [| r]; simpl.
    + rewrite app_nth1 by lia. reflexivity.
    + rewrite app_nth2 by lia.
      replace (N + r * N + c - length row)%nat with (r * N + c)%nat by lia.
      apply IH.
Qed.

Lemma in_combine_seq (l : list bool) (s k : nat) (b : bool) :
  In (k, b) (combine (seq s (length l)) l)
  <-> (s <= k < s + length l)%nat /\ nth (k - s) l false = b.
Proof.
  revert s. induction l as [| e l IH]; intros s; simpl.
  - split; [tauto | lia].
  - rewrite IH. split.
    + intros [E | [Hk E]].
      * injection E as <- <-. split; [lia |]. now rewrite Nat.sub_diag.
      * split; [lia |]. replace (k - s)%nat with (S (k - S s)) by lia. exact E.
    + intros [Hk E]. destruct (Nat.eq_dec k s) as [-> | Hne].
      * left. rewrite Nat.sub_diag in E. now subst.
      * right. split; [lia |].
        replace (k - s)%nat with (S (k - S s)) in E by lia. exact E.
Qed.

Lemma where_true_iff (l : list bool) (k : nat) :
  In (Z.of_nat k) (where_true l) <-> (k < length l)%nat /\ nth k l false = true.
Proof.
  unfold where_true. rewrite arange_of_nat, in_map_iff. split.
  - intros ([k' b] & E & H). simpl in E. subst k'.
    apply filter_In in H. destruct H as [H Hb]. simpl in Hb. subst b.
    assert (H' : In (k, true) (combine (seq 0 (length l)) l)).
    { clear - H. revert H. generalize (seq 0 (length l)) as ks.
      induction l as [| e l IH]; intros [| q ks] H; simpl in *; try contradiction.
      destruct H as [E | H].
      - injection E as E1 E2. left. f_equal; [lia | exact E2].
      - right. now apply IH. }
    apply in_combine_seq in H'. rewrite Nat.sub_0_r in H'. split; [lia | tauto].
  - intros [Hk E]. exists (Z.of_nat k, true). split; [reflexivity |].
    apply filter_In. split; [| reflexivity].
    assert (H' : In (k, true) (combine (seq 0 (length l)) l)).
    { apply in_combine_seq. rewrite Nat.sub_0_r. split; [lia | exact E]. }
    clear - H'. revert H'. generalize (seq 0 (length l)) as ks.
    induction l as [| e l IH]; intros [| q ks] H; simpl in *; try contradiction.
    destruct H as [E | H].
    + injection E as -> ->. now left.
    + right. now apply IH.
Qed.

End MaskPositions.

Section MaskPositionsSquare.

Lemma zeros2_eq (nx ny : Z) :
  (0 <= nx)%Z -> (0 <= ny)%Z ->
  zeros2 nx ny = Ok (repeat (Np.zeros (Z.to_nat ny)) (Z.to_nat nx)).
Proof.
  intros Hx Hy. unfold zeros2.
  destruct (Z.ltb_spec nx 0); [lia |]. destruct (Z.ltb_spec ny 0); [lia |].
  reflexivity.
Qed.

Lemma nonzero_true (v : R) : nonzero v = true <-> v <> 0%R.
Proof.
  unfold nonzero. destruct (Req_dec_T v 0); split; intros H;
    try discriminate; try contradiction; auto.
Qed.

(** The shift of [ifftshift], as a remainder. *)
Lemma shifted_index (n i : Z) :
  (1 <= n)%Z -> (0 <= i < n)%Z ->
  let N := Z.to_nat n in
  let I := Z.to_nat i in
  (Z.of_nat (if (I <? N - N / 2)%nat then (N / 2 + I)%nat
             else (I - (N - N / 2))%nat)
   = (i + n / 2) mod n)%Z.
Proof.
  intros Hn Hi N I.
  assert (HN : (N / 2)%nat = Z.to_nat (n / 2))
    by (unfold N; rewrite Z2Nat.inj_div by lia; reflexivity).
  assert (Hh : (0 <= n / 2 /\ 2 * (n / 2) <= n)%Z)
    by (clear - Hn; Z.to_euclidean_division_equations; lia).
  rewrite HN. destruct (Nat.ltb_spec I (N - Z.to_nat (n / 2))) as [C | C].
  - rewrite Z.mod_small by (unfold N, I in C; lia). unfold I. lia.
  - apply (Z.mod_unique _ _ 1); [left; unfold N, I in *; lia |].
    unfold N, I in *. lia.
Qed.

End MaskPositionsSquare.

(** X22.  Which samples [radon_kk] keeps, for a square image of side
    [n >= 1]: position [i * n + j] is handed to [Restriction] exactly when,
    with [r = (i + n//2) mod n] and [c = (j + n//2) mod n] the row and the
    column before [ifftshift], some angle [theta] of the loop has
    [c = round((r - n//2) * tan(theta)) + n//2], the line of [theta] on row
    [r], or [r = round((n-1-c - n//2) * tan(theta)) + n//2], the same line
    turned by a quarter. *)
Theorem kk_mask_positions (n : Z) (thetas : list Z) (iava : list Z) :
  (1 <= n)%Z ->
  radon_kk_iava n n thetas = Ok iava ->
  forall i j, (0 <= i < n)%Z -> (0 <= j < n)%Z ->
    let r := ((i + n / 2) mod n)%Z in
    let c := ((j + n / 2) mod n)%Z in
    In (i * n + j)%Z iava <->
    exists theta, In theta thetas /\
                  (c = radon_kk_iky n theta r \/
                   r = radon_kk_iky n theta (n - 1 - c)%Z).
Proof.
  intros Hn H i j Hi Hj r c. unfold radon_kk_iava in H.
  rewrite zeros2_eq in H by lia. simpl Py.bind in H.
  set (N := Z.to_nat n) in *.
  set (m0 := repeat (Np.zeros N) N) in *.
  assert (S0 : has_shape m0 N N).
  { destruct (zeros2_Ok n n ltac:(lia) ltac:(lia)) as (m0' & E0 & S0).
    rewrite zeros2_eq in E0 by lia. inversion E0; subst m0'. exact S0. }
  destruct (radon_kk_loop n n thetas m0 Hn ltac:(lia) S0) as (m1 & E1 & S1 & _).
  rewrite E1 in H. simpl Py.bind in H. cbv zeta in H. fold N in H.
  pose proof (flipped_transpose_shape N N m1 S1) as S2.
  rewrite (logical_or_square_eq N m1 _ S1 S2) in H. simpl Py.bind in H.
  inversion H; subst iava; clear H.
  set (C := Np.map2 (Np.map2 (fun u v => nonzero u || nonzero v))
                    m1 (fliplr (transpose N m1))).
  assert (SC : length C = N /\ Forall (fun row => length row = N) C).
  { destruct S1 as [L1 F1], S2 as [L2 F2]. split.
    - unfold C. rewrite map2_length, L1, L2. apply Nat.min_id.
    - now apply map2_rows. }
  destruct SC as [LC FC].
  destruct (ifftshift2_shape bool N C LC FC) as [LS FS].
  replace (map (fun b : bool => (Z.b2z b =? 1)%Z) (Np.ravel (ifftshift2 C)))
    with (Np.ravel (ifftshift2 C))
    by (rewrite <- (map_id (Np.ravel _)) at 1; apply map_ext; now intros []).
  set (I := Z.to_nat i). set (J := Z.to_nat j).
  assert (HI : (I < N)%nat) by (unfold I, N; lia).
  assert (HJ : (J < N)%nat) by (unfold J, N; lia).
  replace (i * n + j)%Z with (Z.of_nat (I * N + J)) by (unfold I, J, N; nia).
  rewrite where_true_iff. unfold Np.ravel.
  rewrite (concat_length_rows bool N _ FS), LS.
  rewrite (nth_concat_rows bool N _ I J false FS HJ).
  rewrite (ifftshift2_entry N C I J LC FC HI HJ). cbv zeta.
  pose proof (shifted_index n i Hn Hi) as Er. cbv zeta in Er. fold N in Er. fold I in Er.
  pose proof (shifted_index n j Hn Hj) as Ec. cbv zeta in Ec. fold N in Ec. fold J in Ec.
  fold r in Er. fold c in Ec.
  set (a := if (I <? N - N / 2)%nat then (N / 2 + I)%nat else (I - (N - N / 2))%nat) in *.
  set (b := if (J <? N - N / 2)%nat then (N / 2 + J)%nat else (J - (N - N / 2))%nat) in *.
  assert (Hs : (N / 2 <= N)%nat) by (apply Nat.Div0.div_le_upper_bound; lia).
  assert (Ha : (a < N)%nat)
    by (unfold a; destruct (Nat.ltb_spec I (N - N / 2)); lia).
  assert (Hb : (b < N)%nat)
    by (unfold b; destruct (Nat.ltb_spec J (N - N / 2)); lia).
  unfold C. rewrite (or_entry N m1 _ a b S1 S2 Ha Hb).
  rewrite (flipped_transpose_entry N m1 a b S1 Ha Hb).
  rewrite orb_true_iff, !nonzero_true.
  rewrite (radon_kk_loop_entry n thetas m0 m1 a b Hn S0 E1 Ha Hb).
  rewrite (radon_kk_loop_entry n thetas m0 m1 (N - 1 - b) a Hn S0 E1 ltac:(lia) Ha).
  unfold m0. rewrite !nth_blank_rows.
  replace (Z.of_nat (N - 1 - b)) with (n - 1 - c)%Z by (unfold N in *; lia).
  rewrite Er, Ec. split.
  - intros [_ [[E | (t & Ht & E)] | [E | (t & Ht & E)]]]; try congruence;
      exists t; split; auto.
  - intros (t & Ht & [E | E]); (split; [nia |]).
    + left. right. exists t. split; assumption.
    + right. right. exists t. split; assumption.
Qed.

Lemma kk_mask_positions_witness :
  exists iava,
    radon_kk_iava 300 300 radon_kk_thetas = Ok iava /\
    (In (0 * 300 + 0)%Z iava <->
     exists theta, In theta radon_kk_thetas /\
       (((0 + 300 / 2) mod 300)%Z
        = radon_kk_iky 300 theta ((0 + 300 / 2) mod 300)%Z \/
        ((0 + 300 / 2) mod 300)%Z
        = radon_kk_iky 300 theta (300 - 1 - (0 + 300 / 2) mod 300)%Z)).
Proof.
  destruct (radon_kk_square_returns 300 radon_kk_thetas ltac:(lia)) as (iava & E).
  exists iava. split; [exact E |].
  exact (kk_mask_positions 300 radon_kk_thetas iava ltac:(lia) E 0%Z 0%Z
           ltac:(lia) ltac:(lia)).
Defined.

(* ===================================================================== *)
(** ** Further results: the first row of the sinogram of the notebook *)
(* ===================================================================== *)

Section NotebookPipeline.

Lemma RadonRotate_rows (dims : Z * Z) (inner : Z) (thetas : list R)
      (Radop : LinearOperator) (x u : list R) :
  RadonRotate dims inner thetas = Ok Radop ->
  matvec Radop x = Ok u ->
  Np.reshape2 u (Z.of_nat (length thetas), (snd dims - inner)%Z)
  = Ok (Np.rows_of (length thetas) (Z.to_nat (snd dims - inner)) u) /\
  Forall2 (fun theta row =>
             exists R1, RadonRotate dims inner [theta] = Ok R1 /\
                        matvec R1 x = Ok row)
          thetas (Np.rows_of (length thetas) (Z.to_nat (snd dims - inner)) u).
Proof.
  intros H Hu.
  destruct (RadonRotate_matvec_blocks _ _ _ _ x H) as (Rops & HR & HM).
  rewrite Hu in HM. destruct (negb _); [discriminate |]. symmetry in HM.
  pose proof (RadonRotate_Ok_inv _ _ _ _ H) as (Rops' & HR' & _ & Hne & _).
  apply mapM_Forall2 in HR.
  destruct (VStack_matvec_rows _ _ _ _ _ _ HR HM) as [Lu Hrows].
  assert (Hn : (0 <= snd dims - inner)%Z).
  { destruct HR as [| t o ts os Hto _]; [congruence |].
    simpl in HM. apply bind_Ok_inv in HM. destruct HM as (y & Hy & _).
    exact (proj1 (angle_block_output_length _ _ _ _ _ _ Hto Hy)). }
  split; [| exact Hrows].
  unfold Np.reshape2.
  replace ((0 <=? Z.of_nat (length thetas)) && (0 <=? snd dims - inner)
           && (Z.of_nat (length u) =? Z.of_nat (length thetas) * (snd dims - inner)))%Z
    with true.
  - now rewrite Nat2Z.id.
  - symmetry. rewrite !andb_true_iff. repeat split.
    + apply Z.leb_le. lia.
    + apply Z.leb_le. exact Hn.
    + apply Z.eqb_eq. rewrite Lu, Nat2Z.inj_mul, Z2Nat.id by exact Hn. reflexivity.
Qed.

(** With [inner = 2 * p] and the angle 0 first, the first row of the
    output is the sum over the rows of the array that was padded. *)
Lemma first_row_of_padded (p : Z) (m n : nat) (a image : list (list R))
      (rest : list R) (Radop : LinearOperator) (u : list R) :
  has_shape a m n -> (1 <= p)%Z -> pad_constant p n a = Ok image ->
  RadonRotate ((Z.of_nat m + 2 * p)%Z, (Z.of_nat n + 2 * p)%Z) (2 * p) (0%R :: rest)
  = Ok Radop ->
  matvec Radop (Np.ravel image) = Ok u ->
  nth 0 (Np.rows_of (S (length rest)) (Z.to_nat (Z.of_nat n + 2 * p - 2 * p)) u) []
  = column_sums n a.
Proof.
  intros Ha Hp Ei HR Hu.
  destruct (RadonRotate_rows _ _ _ _ _ _ HR Hu) as [_ Hrows].
  cbn [snd length] in Hrows.
  set (N := Z.to_nat (Z.of_nat n + 2 * p - 2 * p)) in *.
  change (Np.rows_of (S (length rest)) N u)
    with (firstn N u :: Np.rows_of (length rest) N (skipn N u)) in Hrows |- *.
  inversion Hrows as [| t row ts rws (R1 & HR1 & HM1) _]; subst.
  pose proof (proj2 (pad_constant_shape p m n a image Ha Ei)) as [Li Fi].
  assert (Lx : Z.of_nat (length (Np.ravel image))
               = ((Z.of_nat m + 2 * p) * (Z.of_nat n + 2 * p))%Z).
  { unfold Np.ravel. rewrite (concat_length_grid _ image Fi), Li. nia. }
  destruct (RadonRotate_angle_zero (Z.of_nat m + 2 * p) (Z.of_nat n + 2 * p) (2 * p)
              (Np.ravel image) ltac:(lia) ltac:(lia) ltac:(lia) Lx)
    as (R0 & HR0 & HM0).
  rewrite HR0 in HR1. inversion HR1; subst R1. rewrite HM0 in HM1.
  inversion HM1 as [E]. cbn [nth].
  exact (padded_window_column_sums p m n a image Ha ltac:(lia) Ei).
Qed.

End NotebookPipeline.

(** X23.  The cells of the notebook, one after the other, for any phantom
    of 400 by 400 pixels: the image is loaded with shape [(300, 300)], the
    operator is built for the 60 angles, its forward product returns, the
    output reshapes to 60 rows, and the first row, the projection at angle
    0, is the sum over the rows of the image as it was before the padding:
    with [inner = 2 * pad] the window is exactly the unpadded image. *)
Theorem notebook_first_projection (phantom : list (list R)) :
  has_shape phantom 400 400 ->
  exists image Radop u rows,
    load_image Notebook.pad 400 phantom = Ok image /\
    has_shape image 300 300 /\
    RadonRotate (Notebook.nx, Notebook.ny) Notebook.inner (map IZR Notebook.thetas)
    = Ok Radop /\
    matvec Radop (Np.ravel image) = Ok u /\
    Np.reshape2 u (60, 200)%Z = Ok rows /\
    length rows = 60%nat /\
    nth 0 rows [] = column_sums 200 (map every_second (every_second phantom)).
Proof.
  intros Hph.
  set (a := map every_second (every_second phantom)).
  assert (Ha : has_shape a 200 200) by exact (decimate_shape 400 400 phantom Hph).
  assert (Ei : exists image, pad_constant 50 200 a = Ok image).
  { unfold pad_constant. simpl (50 <? 0)%Z. cbv iota. eexists. reflexivity. }
  destruct Ei as (image & Ei).
  pose proof (proj2 (pad_constant_shape 50 200 200 a image Ha Ei)) as Hs.
  change (Z.to_nat 50 + 200 + Z.to_nat 50)%nat with 300%nat in Hs.
  assert (Lx : Z.of_nat (length (Np.ravel image)) = (300 * 300)%Z).
  { unfold Np.ravel.
    rewrite (concat_length_grid 300 image (proj2 Hs)), (proj1 Hs), Nat2Z.inj_mul.
    reflexivity. }
  assert (Hne : map IZR Notebook.thetas <> []) by discriminate.
  destruct (RadonRotate_Ok 300 300 100 (map IZR Notebook.thetas) Hne
              ltac:(lia) ltac:(lia)) as (Radop & HR).
  destruct (RadonRotate_forward_returns 300 300 100 _ Radop (Np.ravel image)
              notebook_rotation_safe HR Lx) as (u & Hu).
  destruct (RadonRotate_rows _ _ _ _ _ _ HR Hu) as [Hrs _].
  assert (L60 : length (map IZR Notebook.thetas) = 60%nat) by reflexivity.
  rewrite L60 in Hrs. cbn [snd] in Hrs.
  assert (E200 : Z.to_nat (300 - 100) = 200%nat) by reflexivity.
  rewrite E200 in Hrs.
  change (Z.of_nat 60) with 60%Z in Hrs. change (300 - 100)%Z with 200%Z in Hrs.
  exists image, Radop, u, (Np.rows_of 60 200 u).
  split; [exact Ei |]. split; [exact Hs |]. split; [exact HR |].
  split; [exact Hu |]. split; [exact Hrs |]. split; [apply rows_of_length |].
  pose proof (first_row_of_padded 50 200 200 a image (map IZR (tl Notebook.thetas))
                Radop u Ha ltac:(lia) Ei HR Hu) as F.
  assert (E59 : S (length (map IZR (tl Notebook.thetas))) = 60%nat) by reflexivity.
  assert (E200' : Z.to_nat (Z.of_nat 200 + 2 * 50 - 2 * 50) = 200%nat) by reflexivity.
  rewrite E59, E200' in F. exact F.
Qed.

Lemma notebook_first_projection_witness :
  exists image Radop u,
    load_image Notebook.pad 400 (repeat (repeat 1%R 400) 400) = Ok image /\
    RadonRotate (Notebook.nx, Notebook.ny) Notebook.inner (map IZR Notebook.thetas)
    = Ok Radop /\
    matvec Radop (Np.ravel image) = Ok u.
Proof.
  assert (H : has_shape (repeat (repeat 1%R 400) 400) 400 400).
  { split; [apply repeat_length |]. apply Forall_forall. intros r Hr.
    apply repeat_spec in Hr. subst r. apply repeat_length. }
  destruct (notebook_first_projection _ H)
    as (image & Radop & u & rows & E & _ & HR & Hu & _).
  exists image, Radop, u. repeat split; assumption.
Defined.
